(** * ai-transcription-server: the response-recovery and retry core

    A shallow embedding of [ai_service.py] (JSON salvage, metadata,
    result assembly) and [main.py] (platform classification, the retry
    loop of the transcription fetcher, the cached [/transcribe] endpoint,
    the tables of the other endpoints) and [scraper_service.py] (the search
    for a product description and its cleaning), followed by the properties
    proved about them. *)

From Stdlib Require Import ZArith NArith List Bool Lia String Ascii Floats.
From stdpp Require Import base option list gmap.
#[local] Set Warnings "-register-all".
#[local] Set Warnings "-inexact-float".
Import ListNotations.

Local Open Scope N_scope.

(** ** Python strings

    A Python [str] is a sequence of Unicode code points. *)

Definition str := list N.

Definition ch (a : ascii) : N := N_of_ascii a.

(** [lit s] is the [str] with the characters of the literal [s]. *)
Definition lit (s : string) : str := map N_of_ascii (list_ascii_of_string s).

Definition QUOTE : N := 34.
Definition BACKSLASH : N := 92.

(** [qlit s] reads [s] as a literal in which the apostrophe stands for the
    double quote, the way the source writes JSON text inside single quotes. *)
Definition qlit (s : string) : str :=
  map (fun c => if c =? 39 then QUOTE else c) (lit s).

Definition str_eqb (a b : str) : bool := bool_decide (a = b).

(** [str.isspace] on one character (CPython's [Py_UNICODE_ISSPACE]); the
    regular expression class [\s] on [str] patterns is the same set. *)
Definition isspace (c : N) : bool :=
  ((9 <=? c) && (c <=? 13)) || ((28 <=? c) && (c <=? 32))
  || (c =? 133) || (c =? 160) || (c =? 5760)
  || ((8192 <=? c) && (c <=? 8202)) || (c =? 8232) || (c =? 8233)
  || (c =? 8239) || (c =? 8287) || (c =? 12288).

Fixpoint drop_while (p : N -> bool) (s : str) : str :=
  match s with
  | c :: r => if p c then drop_while p r else s
  | [] => []
  end.

Definition lstrip (s : str) : str := drop_while isspace s.
Definition rstrip (s : str) : str := rev (drop_while isspace (rev s)).
Definition strip (s : str) : str := rstrip (lstrip s).

(** [s.rstrip(chars)] for a one-character [chars]. *)
Definition rstrip_char (c : N) (s : str) : str :=
  rev (drop_while (N.eqb c) (rev s)).

Fixpoint startswith (p s : str) : bool :=
  match p, s with
  | [], _ => true
  | a :: p', b :: s' => (a =? b) && startswith p' s'
  | _ :: _, [] => false
  end.

Definition endswith (p s : str) : bool := startswith (rev p) (rev s).

(** [p in s]: [p] occurs in [s] as a contiguous run. *)
Fixpoint contains (p s : str) : bool :=
  startswith p s ||
  match s with
  | [] => false
  | _ :: r => contains p r
  end.

(** [s.lower()] on a text whose cased characters are ASCII letters. *)
Definition lower_ascii (s : str) : str :=
  map (fun c => if (65 <=? c) && (c <=? 90) then c + 32 else c) s.

(** [s.count(c)] for a one-character [c]. *)
Definition count (c : N) (s : str) : nat := length (filter (fun x => x = c) s).

(** [s.rfind(c)] for a one-character [c]: the highest index, or [-1]. *)
Fixpoint rfind_from (c : N) (i : Z) (s : str) : Z :=
  match s with
  | [] => (-1)%Z
  | x :: r =>
      let later := rfind_from c (i + 1)%Z r in
      if (0 <=? later)%Z then later else if x =? c then i else (-1)%Z
  end.

Definition rfind (c : N) (s : str) : Z := rfind_from c 0%Z s.

(** [s.split()]: the maximal runs of non-space characters. *)
Fixpoint split_go (cur : str) (s : str) : list str :=
  match s with
  | [] => match cur with [] => [] | _ => [rev cur] end
  | c :: r =>
      if isspace c
      then match cur with [] => split_go [] r | _ => rev cur :: split_go [] r end
      else split_go (c :: cur) r
  end.

Definition split (s : str) : list str := split_go [] s.

(** Decimal rendering of integers, as [str(n)] and [f"{n}"] give it. *)
Fixpoint digits_go (fuel : nat) (n : N) (acc : str) : str :=
  match fuel with
  | O => acc
  | S fuel' =>
      let acc' := (48 + n mod 10) :: acc in
      if n <? 10 then acc' else digits_go fuel' (n / 10) acc'
  end.

Definition str_of_N (n : N) : str := digits_go (S (N.to_nat (N.log2 n))) n [].

Definition str_of_Z (z : Z) : str :=
  if (z <? 0)%Z then ch "-" :: str_of_N (Z.to_N (- z)) else str_of_N (Z.to_N z).

(** ** Exceptions

    Python code that may raise returns a [result]. *)

Inductive exn :=
| JSONDecodeError
| UnboundLocalError
| AttributeError (msg : str)
| Exception (msg : str).

(** [str(e)].  The texts of the decoder's error and of the unbound
    variable error are not modelled; no caller formats them. *)
Definition str_of_exn (e : exn) : str :=
  match e with
  | AttributeError msg | Exception msg => msg
  | JSONDecodeError | UnboundLocalError => []
  end.

Inductive result (A : Type) :=
| Ok (a : A)
| Raise (e : exn).
Arguments Ok {A} a.
Arguments Raise {A} e.

#[global] Instance result_ret : MRet result := @Ok.
#[global] Instance result_bind : MBind result :=
  fun A B f m => match m with Ok a => f a | Raise e => Raise e end.

(** ** Python floats (IEEE 754 binary64)

    [float_of_ratio neg n d] is the float nearest to [n / d] (ties to even),
    which is what [float(text)] gives for a decimal literal and what the
    true division [a / b] of two integers gives.  The quotient is first cut
    to at least 55 bits with a sticky last bit and then rounded once by the
    standard library's [binary_normalize]. *)

Definition float_of_ratio (neg : bool) (n d : Z) : float :=
  if (n <=? 0)%Z then (if neg then neg_zero else zero)
  else
    let s := (55 + Z.log2 d - Z.log2 n)%Z in
    let num := (if 0 <=? s then n * 2 ^ s else n)%Z in
    let den := (if 0 <=? s then d else d * 2 ^ (- s))%Z in
    let q := (num / den)%Z in
    let sticky := (if num mod den =? 0 then 0 else 1)%Z in
    let m := (2 * q + sticky)%Z in
    SF2Prim (binary_normalize prec emax (if neg then - m else m)%Z (- s - 1) false).

(** [a / b] on Python integers with [b > 0]. *)
Definition int_true_div (a b : Z) : float :=
  if (a <? 0)%Z then float_of_ratio true (- a) b else float_of_ratio false a b.

(** [int(x)] for a finite float: truncation towards zero. *)
Definition int_of_float (x : float) : Z :=
  match Prim2SF x with
  | S754_finite sg m e =>
      let a := (if 0 <=? e then Z.pos m * 2 ^ e else Z.pos m / 2 ^ (- e))%Z in
      if sg then (- a)%Z else a
  | _ => 0%Z
  end.

(** [f"{x:.1f}"] for a finite float: the exact binary value rounded to one
    decimal place, ties to even. *)
Definition format_1f (x : float) : str :=
  match Prim2SF x with
  | S754_finite sg m e =>
      let num := (if 0 <=? e then 10 * Z.pos m * 2 ^ e else 10 * Z.pos m)%Z in
      let den := (if 0 <=? e then 1 else 2 ^ (- e))%Z in
      let q := (num / den)%Z in
      let r := (num mod den)%Z in
      let t := (if (den <? 2 * r) || ((2 * r =? den) && Z.odd q) then q + 1 else q)%Z in
      (if sg then [ch "-"] else []) ++ str_of_Z (t / 10) ++ [ch "."] ++ str_of_Z (t mod 10)
  | S754_zero sg => (if sg then [ch "-"] else []) ++ lit "0.0"
  | S754_infinity sg => (if sg then [ch "-"] else []) ++ lit "inf"
  | S754_nan => lit "nan"
  end.

(** ** JSON values and [json.loads]

    What [json.loads] returns: [None], [bool], [int], [float], [str],
    [list] and [dict].  A [dict] keeps its keys in insertion order. *)

Inductive json :=
| JNull
| JBool (b : bool)
| JInt (z : Z)
| JFloat (x : float)
| JStr (s : str)
| JArr (items : list json)
| JObj (members : list (str * json)).

(** [d[k] = v] on a [dict]. *)
Fixpoint dict_set (k : str) (v : json) (d : list (str * json)) : list (str * json) :=
  match d with
  | [] => [(k, v)]
  | (k', v') :: r => if str_eqb k k' then (k, v) :: r else (k', v') :: dict_set k v r
  end.

(** [d.get(k)] on a [dict]. *)
Fixpoint dict_get (k : str) (d : list (str * json)) : option json :=
  match d with
  | [] => None
  | (k', v) :: r => if str_eqb k k' then Some v else dict_get k r
  end.

Definition type_name (v : json) : str :=
  match v with
  | JNull => lit "NoneType"
  | JBool _ => lit "bool"
  | JInt _ => lit "int"
  | JFloat _ => lit "float"
  | JStr _ => lit "str"
  | JArr _ => lit "list"
  | JObj _ => lit "dict"
  end.

Definition no_attribute (v : json) (attr : string) : exn :=
  AttributeError (lit "'" ++ type_name v ++ lit "' object has no attribute '"
                  ++ lit attr ++ lit "'").

(** [obj.get(k, default)]: only a [dict] has the method. *)
Definition get (obj : json) (k : str) (default : json) : result json :=
  match obj with
  | JObj d => Ok (match dict_get k d with Some v => v | None => default end)
  | _ => Raise (no_attribute obj "get")
  end.

(** The decoder of the standard library, as its scanner reads a text:
    the JSON grammar with the constants [NaN], [Infinity] and [-Infinity],
    strings in strict mode. *)

Definition is_json_ws (c : N) : bool :=
  (c =? 32) || (c =? 9) || (c =? 10) || (c =? 13).

Definition skip_ws (s : str) : str := drop_while is_json_ws s.

Definition is_digit (c : N) : bool := (48 <=? c) && (c <=? 57).

Definition hex_value (c : N) : option N :=
  if is_digit c then Some (c - 48)
  else if (97 <=? c) && (c <=? 102) then Some (c - 87)
  else if (65 <=? c) && (c <=? 70) then Some (c - 55)
  else None.

(** The four hexadecimal digits after a backslash-u escape. *)
Definition hex4 (s : str) : option (N * str) :=
  match s with
  | a :: b :: c :: d :: r =>
      a' ← hex_value a; b' ← hex_value b; c' ← hex_value c; d' ← hex_value d;
      Some (((a' * 16 + b') * 16 + c') * 16 + d', r)
  | _ => None
  end.

Definition simple_escape (c : N) : option N :=
  if c =? QUOTE then Some QUOTE
  else if c =? BACKSLASH then Some BACKSLASH
  else if c =? ch "/" then Some (ch "/")
  else if c =? ch "b" then Some 8
  else if c =? ch "f" then Some 12
  else if c =? ch "n" then Some 10
  else if c =? ch "r" then Some 13
  else if c =? ch "t" then Some 9
  else None.

(** [scanstring]: the text after an opening quote, up to the closing one. *)
Fixpoint scanstring (fuel : nat) (s : str) : option (str * str) :=
  match fuel with
  | O => None
  | S fuel' =>
      match s with
      | [] => None
      | c :: r =>
          if c =? QUOTE then Some ([], r)
          else if c =? BACKSLASH then
            match r with
            | [] => None
            | e :: r' =>
                if e =? ch "u" then
                  '(hi, r1) ← hex4 r';
                  let pair :=
                    if (55296 <=? hi) && (hi <=? 56319) then
                      match r1 with
                      | b :: u :: r2 =>
                          if (b =? BACKSLASH) && (u =? ch "u") then
                            match hex4 r2 with
                            | Some (lo, r3) =>
                                if (56320 <=? lo) && (lo <=? 57343)
                                then Some (65536 + ((hi - 55296) * 1024 + (lo - 56320)), r3)
                                else None
                            | None => None
                            end
                          else None
                      | _ => None
                      end
                    else None in
                  let '(cp, r4) := default (hi, r1) pair in
                  '(body, rest) ← scanstring fuel' r4;
                  Some (cp :: body, rest)
                else
                  x ← simple_escape e;
                  '(body, rest) ← scanstring fuel' r';
                  Some (x :: body, rest)
            end
          else if c <? 32 then None
          else
            '(body, rest) ← scanstring fuel' r;
            Some (c :: body, rest)
      end
  end.

(** Numbers: sign, integer part, optional fraction, optional exponent. *)

Fixpoint take_digits (s : str) : str * str :=
  match s with
  | c :: r => if is_digit c then let '(d, r') := take_digits r in (c :: d, r') else ([], s)
  | [] => ([], [])
  end.

Definition digits_value (d : str) : Z :=
  fold_left (fun acc c => (acc * 10 + Z.of_N (c - 48))%Z) d 0%Z.

Definition scan_int_part (s : str) : option (str * str) :=
  match s with
  | c :: r =>
      if c =? 48 then Some ([c], r)
      else if is_digit c then let '(d, r') := take_digits r in Some (c :: d, r')
      else None
  | [] => None
  end.

Definition scan_frac (s : str) : str * str :=
  match s with
  | p :: r =>
      if p =? ch "." then
        match take_digits r with
        | ([], _) => ([], s)
        | (d, r') => (d, r')
        end
      else ([], s)
  | [] => ([], s)
  end.

(** The exponent, as [(present, negative, digits)]. *)
Definition scan_exp (s : str) : (bool * bool * str) * str :=
  match s with
  | e :: r =>
      if (e =? ch "e") || (e =? ch "E") then
        let '(neg, r1) :=
          match r with
          | sg :: r0 =>
              if sg =? ch "-" then (true, r0)
              else if sg =? ch "+" then (false, r0) else (false, r)
          | [] => (false, r)
          end in
        match take_digits r1 with
        | ([], _) => ((false, false, []), s)
        | (d, r') => ((true, neg, d), r')
        end
      else ((false, false, []), s)
  | [] => ((false, false, []), s)
  end.

Definition match_number (s : str) : option (json * str) :=
  let '(neg, s0) :=
    match s with
    | c :: r => if c =? ch "-" then (true, r) else (false, s)
    | [] => (false, s)
    end in
  '(ip, s1) ← scan_int_part s0;
  let '(fp, s2) := scan_frac s1 in
  let '((has_exp, eneg, ed), s3) := scan_exp s2 in
  match fp, has_exp with
  | [], false =>
      let v := digits_value ip in
      Some (JInt (if neg then (- v)%Z else v), s3)
  | _, _ =>
      let e := (if eneg then - digits_value ed else digits_value ed)%Z in
      let k := (e - Z.of_nat (length fp))%Z in
      let m := digits_value (ip ++ fp) in
      let x := if (0 <=? k)%Z then float_of_ratio neg (m * 10 ^ k)%Z 1%Z
               else float_of_ratio neg m (10 ^ (- k))%Z in
      Some (JFloat x, s3)
  end.

(** The outcome of scanning one term. *)
Inductive scanned (A : Type) :=
| Parsed (a : A) (rest : str)
| Malformed
| Exhausted.
Arguments Parsed {A} a rest.
Arguments Malformed {A}.
Arguments Exhausted {A}.

(** [scan_once] reads one term; [scan_members] and [scan_items] are the
    loops of the object and array readers, entered after the opening
    character and the white space behind it. *)
Fixpoint scan_once (fuel : nat) (s : str) : scanned json :=
  match fuel with
  | O => Exhausted
  | S fuel' =>
      match s with
      | [] => Malformed
      | c :: r =>
          if c =? QUOTE then
            match scanstring (length r) r with
            | Some (body, rest) => Parsed (JStr body) rest
            | None => Malformed
            end
          else if c =? ch "{" then
            match skip_ws r with
            | c' :: r' =>
                if c' =? ch "}" then Parsed (JObj []) r'
                else scan_members fuel' [] (c' :: r')
            | [] => Malformed
            end
          else if c =? ch "[" then
            match skip_ws r with
            | c' :: r' =>
                if c' =? ch "]" then Parsed (JArr []) r'
                else scan_items fuel' [] (c' :: r')
            | [] => Malformed
            end
          else if startswith (lit "null") s then Parsed JNull (drop 4 s)
          else if startswith (lit "true") s then Parsed (JBool true) (drop 4 s)
          else if startswith (lit "false") s then Parsed (JBool false) (drop 5 s)
          else if startswith (lit "NaN") s then Parsed (JFloat nan) (drop 3 s)
          else if startswith (lit "Infinity") s then Parsed (JFloat infinity) (drop 8 s)
          else if startswith (lit "-Infinity") s then Parsed (JFloat neg_infinity) (drop 9 s)
          else
            match match_number s with
            | Some (v, rest) => Parsed v rest
            | None => Malformed
            end
      end
  end
with scan_members (fuel : nat) (acc : list (str * json)) (s : str) : scanned json :=
  match fuel with
  | O => Exhausted
  | S fuel' =>
      match s with
      | c :: r =>
          if c =? QUOTE then
            match scanstring (length r) r with
            | Some (key, r1) =>
                match skip_ws r1 with
                | colon :: r2 =>
                    if colon =? ch ":" then
                      match scan_once fuel' (skip_ws r2) with
                      | Parsed v r3 =>
                          let acc' := dict_set key v acc in
                          match skip_ws r3 with
                          | d :: r4 =>
                              if d =? ch "}" then Parsed (JObj acc') r4
                              else if d =? ch "," then scan_members fuel' acc' (skip_ws r4)
                              else Malformed
                          | [] => Malformed
                          end
                      | Malformed => Malformed
                      | Exhausted => Exhausted
                      end
                    else Malformed
                | [] => Malformed
                end
            | None => Malformed
            end
          else Malformed
      | [] => Malformed
      end
  end
with scan_items (fuel : nat) (acc : list json) (s : str) : scanned json :=
  match fuel with
  | O => Exhausted
  | S fuel' =>
      match scan_once fuel' s with
      | Parsed v r1 =>
          let acc' := acc ++ [v] in
          match skip_ws r1 with
          | d :: r2 =>
              if d =? ch "]" then Parsed (JArr acc') r2
              else if d =? ch "," then scan_items fuel' acc' (skip_ws r2)
              else Malformed
          | [] => Malformed
          end
      | Malformed => Malformed
      | Exhausted => Exhausted
      end
  end.

(** [json.loads(s)]: one term between optional white space, nothing else.
    Two units of fuel for each character are more than the scan uses. *)
Definition json_loads (s : str) : result json :=
  match scan_once (S (2 * length s)) (skip_ws s) with
  | Parsed v rest =>
      match skip_ws rest with
      | [] => Ok v
      | _ :: _ => Raise JSONDecodeError
      end
  | _ => Raise JSONDecodeError
  end.

(** ** ai_service.py: the JSON salvage engine

    The methods of [AIScriptTailoringService] that parse the model's reply.
    What they write to the logger is returned next to their value, one
    event per message that tells the path taken. *)

Inductive log_event :=
| LogParsed              (* "JSON parsing successful" *)
| LogParseFailed         (* "JSON parsing failed" *)
| LogRecovering          (* "Attempting partial data recovery..." *)
| LogFixing              (* "Attempting to fix JSON issues..." *)
| LogUnterminated        (* "Detected unterminated string, attempting to close it" *)
| LogSentenceEnd (pos : Z)     (* "Truncated string at sentence end" *)
| LogLastValid (pos : nat)     (* "Closed string at last valid position" *)
| LogBraces (n : nat)          (* "Adding n missing closing braces" *)
| LogBrackets (n : nat)        (* "Adding n missing closing brackets" *)
| LogRecovered           (* "Successfully recovered partial JSON data" *)
| LogFixFailed           (* "Failed to fix JSON issues" *)
| LogFixError.           (* "Unexpected error during JSON fix" *)

Definition FENCE : str := lit "```".
Definition FENCE_JSON : str := lit "```json".
Definition KEY_TAILORED_SCRIPT : str := qlit "'tailoredScript'".
Definition KEY_CONFIDENCE : str := qlit "'confidence'".

(** [re.sub(r'^<opening>\s*', '', s)] for a literal [opening]. *)
Definition sub_leading (opening s : str) : str :=
  if startswith opening s then lstrip (drop (length opening) s) else s.

(** [re.sub(r'\s*```$', '', s)]: [$] matches at the end of the text and
    before a line feed that ends it. *)
Definition sub_trailing_fence (s : str) : str :=
  if endswith FENCE s then rstrip (take (length s - 3) s)
  else if endswith (FENCE ++ [10]) s then rstrip (take (length s - 4) s) ++ [10]
  else s.

(** The text [parse_ai_response] hands to the decoder. *)
Definition clean_response (ai_response : str) : str :=
  let clean := strip ai_response in
  if startswith FENCE_JSON clean then sub_trailing_fence (sub_leading FENCE_JSON clean)
  else if startswith FENCE clean then sub_trailing_fence (sub_leading FENCE clean)
  else clean.

(** The text appended by [_complete_json_structure]. *)
Definition COMPLETION : str := qlit "
  'confidence': 0.8,
  'improvementAreas': ['truncated_response'],
  'sectionBreakdown': [],
  'sutherlandAlchemy': {
    'explanation': 'Response was truncated and recovered',
    'valueReframing': [],
    'identityShifts': []
  },
  'hormoziValueStack': {
    'coreOffer': 'Analysis incomplete due to truncation',
    'valueElements': [],
    'totalStack': {},
    'grandSlamElements': []
  }
}".

Definition _complete_json_structure (response : str) : str :=
  match json_loads response with
  | Ok _ => response
  | Raise _ =>
      if contains KEY_TAILORED_SCRIPT response && negb (contains KEY_CONFIDENCE response)
      then rstrip_char (ch ",") (rstrip response) ++ [ch ","] ++ COMPLETION
      else response
  end.

(** The character scan of [_fix_unterminated_strings]. *)
Record scan_state := {
  in_string : bool;
  escape_next : bool;
  last_valid_pos : nat
}.

Definition is_structural (c : N) : bool :=
  (c =? ch "{") || (c =? ch "}") || (c =? ch "[") || (c =? ch "]")
  || (c =? ch ",") || (c =? ch ":").

Definition scan_step (st : scan_state) (i : nat) (char : N) : scan_state :=
  if escape_next st then
    {| in_string := in_string st; escape_next := false; last_valid_pos := last_valid_pos st |}
  else if char =? BACKSLASH then
    {| in_string := in_string st; escape_next := true; last_valid_pos := last_valid_pos st |}
  else if char =? QUOTE then
    {| in_string := negb (in_string st); escape_next := false;
       last_valid_pos := if in_string st then i else last_valid_pos st |}
  else if negb (in_string st) && is_structural char then
    {| in_string := in_string st; escape_next := false; last_valid_pos := i |}
  else st.

Fixpoint scan_from (st : scan_state) (i : nat) (response : str) : scan_state :=
  match response with
  | [] => st
  | char :: r => scan_from (scan_step st i char) (S i) r
  end.

Definition scan (response : str) : scan_state :=
  scan_from {| in_string := false; escape_next := false; last_valid_pos := 0 |} 0 response.

(** The text cut and closed by [_fix_unterminated_strings], before any
    completion, for a scan that ended inside a string. *)
Definition close_string (response : str) : list log_event * str :=
  let response_up_to_error := take (last_valid_pos (scan response) + 1) response in
  let last_sentence_end :=
    Z.max (Z.max (rfind (ch ".") response_up_to_error) (rfind (ch "!") response_up_to_error))
          (rfind (ch "?") response_up_to_error) in
  if (0 <? last_sentence_end)%Z
  then ([LogSentenceEnd last_sentence_end],
        take (Z.to_nat (last_sentence_end + 1)) response_up_to_error ++ [QUOTE])
  else ([LogLastValid (last_valid_pos (scan response))], response_up_to_error ++ [QUOTE]).

Definition _fix_unterminated_strings (response : str) : list log_event * str :=
  if in_string (scan response) then
    let '(log, closed) := close_string response in
    (LogUnterminated :: log,
     if negb (endswith [ch "}"] (rstrip closed))
     then _complete_json_structure closed
     else closed)
  else ([], response).

Definition _fix_common_json_issues (response : str) : list log_event * str :=
  let '(log1, response) := _fix_unterminated_strings response in
  let open_braces := count (ch "{") response in
  let close_braces := count (ch "}") response in
  let '(log2, response) :=
    if (close_braces <? open_braces)%nat
    then ([LogBraces (open_braces - close_braces)],
          response ++ repeat (ch "}") (open_braces - close_braces))
    else ([], response) in
  let open_brackets := count (ch "[") response in
  let close_brackets := count (ch "]") response in
  let '(log3, response) :=
    if (close_brackets <? open_brackets)%nat
    then ([LogBrackets (open_brackets - close_brackets)],
          response ++ repeat (ch "]") (open_brackets - close_brackets))
    else ([], response) in
  (LogFixing :: log1 ++ log2 ++ log3, response).

(** The minimal fallback structure. *)
Definition FALLBACK : json :=
  JObj [
    (lit "tailoredScript", JStr (lit "Error: Could not parse AI response. Please try again."));
    (lit "confidence", JFloat 0.1);
    (lit "improvementAreas", JArr [JStr (lit "parsing_error")]);
    (lit "sectionBreakdown", JArr []);
    (lit "sutherlandAlchemy", JObj [
      (lit "explanation", JStr (lit "Error in parsing response"));
      (lit "valueReframing", JArr []);
      (lit "identityShifts", JArr [])]);
    (lit "hormoziValueStack", JObj [
      (lit "coreOffer", JStr (lit "Error in analysis"));
      (lit "valueElements", JArr []);
      (lit "totalStack", JObj []);
      (lit "grandSlamElements", JArr [])])
  ].

(** [parse_ai_response], with the repair helper it calls as a parameter.
    The helper's text is bound to [fixed_response] only when the helper
    returns; the handler of the decoding error reads that variable. *)
Definition parse_ai_response_with
    (fix_issues : str -> list log_event * result str)
    (ai_response : str) : list log_event * result json :=
  let clean := clean_response ai_response in
  match json_loads clean with
  | Ok parsed_data => ([LogParsed], Ok parsed_data)
  | Raise _ =>
      let '(log, recovered) :=
        if contains KEY_TAILORED_SCRIPT clean then
          match fix_issues clean with
          | (log, Ok fixed_response) =>
              match json_loads fixed_response with
              | Ok parsed_result => (LogRecovering :: log ++ [LogRecovered], Ok (Some parsed_result))
              | Raise _ => (LogRecovering :: log ++ [LogFixFailed], Ok None)
              end
          | (log, Raise JSONDecodeError) => (LogRecovering :: log, Raise UnboundLocalError)
          | (log, Raise _) => (LogRecovering :: log ++ [LogFixError], Ok None)
          end
        else ([], Ok None) in
      (LogParseFailed :: log,
       match recovered with
       | Ok (Some parsed_result) => Ok parsed_result
       | Ok None => Ok FALLBACK
       | Raise e => Raise e
       end)
  end.

Definition parse_ai_response (ai_response : str) : list log_event * result json :=
  parse_ai_response_with
    (fun response => let '(log, fixed) := _fix_common_json_issues response in (log, Ok fixed))
    ai_response.

(** ** ai_service.py: metadata and result assembly *)

Module Metadata.
Record t := {
  wordCount : Z;
  estimatedReadTime : str;
  originalLength : Z;
  processingTime : float
}.
End Metadata.

Definition calculate_metadata (tailored_script original_transcript : str)
    (processing_time : float) : Metadata.t :=
  let word_count := Z.of_nat (length (split tailored_script)) in
  let original_length := Z.of_nat (length (split original_transcript)) in
  let read_time_minutes := int_true_div word_count 150 in
  let estimated_read_time :=
    if (read_time_minutes <? 1)%float
    then str_of_Z (int_of_float (read_time_minutes * 60)%float) ++ lit "s"
    else format_1f read_time_minutes ++ lit "m" in
  {| Metadata.wordCount := word_count;
     Metadata.estimatedReadTime := estimated_read_time;
     Metadata.originalLength := original_length;
     Metadata.processingTime := processing_time |}.

Record AITailoringRequest := {
  originalTranscript : str;
  productDescription : str
}.

(** The arguments [generate_tailored_script] gives to the constructor of
    the response model.  The [get] calls hand over whatever the decoded
    reply holds, so those fields are JSON values. *)
Record AITailoringData := {
  tailoredScript : json;
  confidence : json;
  processingTime : float;
  wordCount : Z;
  estimatedReadTime : str;
  sectionBreakdown : json;
  sutherlandAlchemy : json;
  hormoziValueStack : json
}.

Definition REQUEST_TIMEOUT : Z := 60.

(** How the awaited call to the chat completion API ended. *)
Inductive api_outcome :=
| ApiContent (content : str)
| ApiTimeout
| ApiFailure (e : exn).

Definition call_openai_api (outcome : api_outcome) : result str :=
  match outcome with
  | ApiContent content => Ok content
  | ApiTimeout =>
      Raise (Exception (lit "API call timed out after " ++ str_of_Z REQUEST_TIMEOUT
                        ++ lit " seconds"))
  | ApiFailure e => Raise e
  end.

(** [tailored_script.split()] needs a [str]. *)
Definition as_text (v : json) : result str :=
  match v with
  | JStr s => Ok s
  | _ => Raise (no_attribute v "split")
  end.

(** The body of the [try] block after the reply was parsed. *)
Definition assemble (parsed_data : json) (request : AITailoringRequest)
    (processing_time : float) : result AITailoringData :=
  script ← get parsed_data (lit "tailoredScript") (JStr []);
  text ← as_text script;
  let metadata := calculate_metadata text (originalTranscript request) processing_time in
  tailored ← get parsed_data (lit "tailoredScript") (JStr []);
  conf ← get parsed_data (lit "confidence") (JFloat 0.8);
  sections ← get parsed_data (lit "sectionBreakdown") (JArr []);
  alchemy ← get parsed_data (lit "sutherlandAlchemy") (JObj []);
  stack ← get parsed_data (lit "hormoziValueStack") (JObj []);
  Ok {| tailoredScript := tailored;
        confidence := conf;
        processingTime := processing_time;
        wordCount := Metadata.wordCount metadata;
        estimatedReadTime := Metadata.estimatedReadTime metadata;
        sectionBreakdown := sections;
        sutherlandAlchemy := alchemy;
        hormoziValueStack := stack |}.

(** The response of the [except] block. *)
Definition error_response (e : exn) (processing_time : float) : AITailoringData :=
  {| tailoredScript := JStr (lit "Error generating script: " ++ str_of_exn e);
     confidence := JFloat 0;
     processingTime := processing_time;
     wordCount := 0;
     estimatedReadTime := lit "0s";
     sectionBreakdown := JArr [];
     sutherlandAlchemy := JObj [
       (lit "explanation", JStr (lit "Error occurred during processing"));
       (lit "valueReframing", JArr []);
       (lit "identityShifts", JArr [])];
     hormoziValueStack := JObj [
       (lit "coreOffer", JStr (lit "Error in analysis"));
       (lit "valueElements", JArr []);
       (lit "totalStack", JObj []);
       (lit "grandSlamElements", JArr [])] |}.

(** [generate_tailored_script]: [outcome] is how the API call ended and
    [processing_time] what the clock gives when it is read. *)
Definition generate_tailored_script (request : AITailoringRequest)
    (outcome : api_outcome) (processing_time : float) : AITailoringData :=
  let attempt :=
    ai_response ← call_openai_api outcome;
    parsed_data ← snd (parse_ai_response ai_response);
    assemble parsed_data request processing_time in
  match attempt with
  | Ok data => data
  | Raise e => error_response e processing_time
  end.

(** The shape [models.py] declares for the response: every field present,
    with a value of the declared kind. *)
Definition is_text (v : json) : bool := match v with JStr _ => true | _ => false end.
Definition is_number (v : json) : bool :=
  match v with JFloat _ | JInt _ => true | _ => false end.
Definition is_dict (v : json) : bool := match v with JObj _ => true | _ => false end.
Definition is_list_of (p : json -> bool) (v : json) : bool :=
  match v with JArr items => forallb p items | _ => false end.

Definition has_field (k : string) (p : json -> bool) (v : json) : bool :=
  match v with
  | JObj d => match dict_get (lit k) d with Some x => p x | None => false end
  | _ => false
  end.

Definition is_SectionBreakdown (v : json) : bool :=
  has_field "sectionName" is_text v && has_field "triggerEmotionalState" is_text v
  && has_field "originalQuote" is_text v && has_field "rewrittenVersion" is_text v
  && has_field "sceneDescription" is_text v
  && has_field "psychologicalPrinciples" (is_list_of is_text) v
  && has_field "timestamp" is_text v.

Definition is_SutherlandAlchemy (v : json) : bool :=
  has_field "explanation" is_text v && has_field "valueReframing" (is_list_of is_dict) v
  && has_field "identityShifts" (is_list_of is_text) v.

Definition is_HormoziValueStack (v : json) : bool :=
  has_field "coreOffer" is_text v && has_field "valueElements" (is_list_of is_dict) v
  && has_field "totalStack" is_dict v && has_field "grandSlamElements" (is_list_of is_text) v.


Definition is_fully_populated (d : AITailoringData) : bool :=
  is_text (tailoredScript d) && is_number (confidence d)
  && is_list_of is_SectionBreakdown (sectionBreakdown d)
  && is_SutherlandAlchemy (sutherlandAlchemy d)
  && is_HormoziValueStack (hormoziValueStack d).

(** ** main.py: platform detection and the retry loop *)

Record platform_info := {
  platform : str;
  supported : bool;
  reliability : str;
  recommendation : str
}.

Inductive error_code :=
| PLATFORM_NOT_SUPPORTED
| TRANSCRIPTION_ERROR
| TRANSCRIPTION_FAILED
| UNEXPECTED_ERROR
| UNKNOWN_ERROR.

Record error_info := {
  code : error_code;
  message : str;
  details : str;
  platform_recommendation : option str
}.

(** The dictionary [_transcribe_with_retry] returns; its ["status"] entry
    is ["success"], ["processing"] or ["error"]. *)
Inductive transcription :=
| Success (url platform language transcript : str)
| Processing (url platform job_id : str)
| Error (url platform : str) (error : error_info).

Definition status (r : transcription) : str :=
  match r with
  | Success _ _ _ _ => lit "success"
  | Processing _ _ _ => lit "processing"
  | Error _ _ _ => lit "error"
  end.

(** What one call of [supadata.transcript] does: it returns an object with
    a [content], or one with a [job_id] only, or raises a [SupadataError]
    or another exception. *)
Inductive reply :=
| Content (lang content : str)
| Job (job_id : str)
| RaisesSupadataError (error_msg : str)
| RaisesException (msg : str).

(** What the fetcher does besides returning: calls of the provider and
    [asyncio.sleep]. *)
Inductive fetch_event :=
| Call (attempt : nat)
| Sleep (seconds : Z).

(** An entry of the module-level [CACHE] dictionary. *)
Module CacheEntry.
Record t := {
  result : transcription;
  timestamp : float
}.
End CacheEntry.

Section Fetcher.

(** [str.lower], whose case table is not part of the program. *)
Variable lower : str -> str.

Definition _detect_platform (url : str) : platform_info :=
  let url_lower := lower url in
  if contains (lit "youtube.com") url_lower || contains (lit "youtu.be") url_lower then
    {| platform := lit "YouTube"; supported := true; reliability := lit "high";
       recommendation := lit "Fully supported and reliable" |}
  else if contains (lit "tiktok.com") url_lower || contains (lit "m.tiktok.com") url_lower then
    {| platform := lit "TikTok"; supported := true; reliability := lit "low";
       recommendation := lit "May fail due to rate limiting. Consider retry logic or alternative methods." |}
  else if contains (lit "x.com") url_lower || contains (lit "twitter.com") url_lower then
    {| platform := lit "X (Twitter)"; supported := true; reliability := lit "low";
       recommendation := lit "May fail due to access restrictions. Consider alternative methods." |}
  else if contains (lit "instagram.com") url_lower then
    {| platform := lit "Instagram"; supported := true; reliability := lit "medium";
       recommendation := lit "Supported but may have limitations" |}
  else if contains (lit "vimeo.com") url_lower then
    {| platform := lit "Vimeo"; supported := false; reliability := lit "none";
       recommendation := lit "Not supported by Supadata. Use alternative transcription service." |}
  else if contains (lit "twitch.tv") url_lower then
    {| platform := lit "Twitch"; supported := false; reliability := lit "none";
       recommendation := lit "Not supported by Supadata. Use alternative transcription service." |}
  else
    {| platform := lit "Unknown"; supported := false; reliability := lit "unknown";
       recommendation := lit "Platform not recognized. Check if URL is valid and supported." |}.

(** The retry budget after the adjustment for unreliable platforms. *)
Definition retry_budget (info : platform_info) (max_retries : Z) : Z :=
  if str_eqb (reliability info) (lit "low") then Z.max max_retries 5 else max_retries.

Section Loop.
(** [supadata k] is what the provider does at attempt [k]. *)
Variable supadata : nat -> reply.
Variables (url : str) (info : platform_info) (max_retries : Z).

Definition failed (c : error_code) (msg error_msg : str) : transcription :=
  Error url (platform info)
    {| code := c; message := msg; details := error_msg;
       platform_recommendation := Some (recommendation info) |}.

(** One pass through the body of the [for] loop: what it does, and the
    value it returns if it returns. *)
Definition attempt_once (attempt : nat) : list fetch_event * option transcription :=
  let is_last := (Z.of_nat attempt =? max_retries - 1)%Z in
  match supadata attempt with
  | Content lang content =>
      ([Call attempt], Some (Success url (platform info) lang content))
  | Job job_id =>
      ([Call attempt], Some (Processing url (platform info) job_id))
  | RaisesSupadataError error_msg =>
      let all_failed :=
        failed TRANSCRIPTION_FAILED
          (lit "Failed to transcribe " ++ platform info ++ lit " video after "
           ++ str_of_Z max_retries ++ lit " attempts: " ++ error_msg) error_msg in
      if contains (lit "status 429") error_msg then
        let wait_time := (2 ^ Z.of_nat attempt * 5)%Z in
        ([Call attempt; Sleep wait_time], if is_last then Some all_failed else None)
      else if contains (lit "status 400") error_msg || contains (lit "status 500") error_msg then
        let wait_time := (2 ^ Z.of_nat attempt * 2)%Z in
        ([Call attempt; Sleep wait_time], if is_last then Some all_failed else None)
      else
        ([Call attempt],
         Some (failed TRANSCRIPTION_ERROR
                 (lit "Failed to transcribe " ++ platform info ++ lit " video: " ++ error_msg)
                 error_msg))
  | RaisesException msg =>
      if is_last then
        ([Call attempt],
         Some (failed UNEXPECTED_ERROR
                 (lit "Unexpected error transcribing " ++ platform info ++ lit " video: " ++ msg)
                 msg))
      else ([Call attempt; Sleep (2 ^ Z.of_nat attempt)%Z], None)
  end.

(** [for attempt in range(max_retries)]: [None] when the loop ends
    without returning. *)
Fixpoint retry_loop (attempts : list nat) : list fetch_event * option transcription :=
  match attempts with
  | [] => ([], None)
  | attempt :: rest =>
      match attempt_once attempt with
      | (events, Some r) => (events, Some r)
      | (events, None) =>
          let '(events', r) := retry_loop rest in (events ++ events', r)
      end
  end.

Definition unknown_error : transcription :=
  failed UNKNOWN_ERROR
    (lit "Unknown error occurred during " ++ platform info ++ lit " transcription")
    (lit "Maximum retries exceeded").
End Loop.

Definition _transcribe_with_retry (supadata : nat -> reply)
    (url lang : str) (text : bool) (mode : str) (max_retries : Z)
    : list fetch_event * transcription :=
  let info := _detect_platform url in
  if negb (supported info) then
    ([], Error url (platform info)
           {| code := PLATFORM_NOT_SUPPORTED;
              message := lit "Platform " ++ platform info ++ lit " is not supported by Supadata";
              details := recommendation info;
              platform_recommendation := None |})
  else
    let max_retries := retry_budget info max_retries in
    match retry_loop supadata url info max_retries (seq 0 (Z.to_nat max_retries)) with
    | (events, Some r) => (events, r)
    | (events, None) => (events, unknown_error url info)
    end.

(** ** main.py: the [/transcribe] endpoint and its cache *)

(** [_hash_url]: the SHA-256 digest of the URL, in hexadecimal. *)
Variable _hash_url : str -> str.

Definition CACHE_TTL : float := 86400.

Record UrlList := {
  urls : list str;
  lang : str;
  text : bool;
  mode : str
}.

(** Where a result of the endpoint came from. *)
Inductive source :=
| FromCache
| Fetched (events : list fetch_event).

Definition is_call (e : fetch_event) : bool :=
  match e with Call _ => true | Sleep _ => false end.

Definition calls (events : list fetch_event) : nat :=
  length (List.filter is_call events).

Definition is_cacheable (r : transcription) : bool :=
  str_eqb (status r) (lit "success") || str_eqb (status r) (lit "processing").

(** The body of the loop over the URLs of one request: the cache before,
    the replies of the provider still to come; the result, its source,
    the cache after and the replies left. *)
Definition transcribe_url (data : UrlList) (now : float)
    (cache : gmap str CacheEntry.t) (supadata : nat -> reply) (url : str)
    : transcription * source * gmap str CacheEntry.t * (nat -> reply) :=
  let key := _hash_url url in
  let fetch (cache : gmap str CacheEntry.t) :=
    let '(events, r) :=
      _transcribe_with_retry supadata url (lang data) (text data) (mode data) 3 in
    let cache' :=
      if is_cacheable r then <[key := {| CacheEntry.result := r; CacheEntry.timestamp := now |}]> cache
      else cache in
    (r, Fetched events, cache', fun k => supadata (calls events + k)%nat) in
  match cache !! key with
  | Some entry =>
      if (now - CacheEntry.timestamp entry <? CACHE_TTL)%float
      then (CacheEntry.result entry, FromCache, cache, supadata)
      else fetch (delete key cache)
  | None => fetch cache
  end.

Fixpoint transcribe_urls (data : UrlList) (now : float)
    (cache : gmap str CacheEntry.t) (supadata : nat -> reply) (todo : list str)
    : list (transcription * source) * gmap str CacheEntry.t * (nat -> reply) :=
  match todo with
  | [] => ([], cache, supadata)
  | url :: rest =>
      let '(r, src, cache', supadata') := transcribe_url data now cache supadata url in
      let '(results, cache'', supadata'') := transcribe_urls data now cache' supadata' rest in
      ((r, src) :: results, cache'', supadata'')
  end.

Record summary := {
  total : nat;
  successful : nat;
  failed_count : nat
}.

(** [transcribe]: the response, the source of each result, the cache and
    the provider's replies afterwards. *)
Definition transcribe (data : UrlList) (now : float)
    (cache : gmap str CacheEntry.t) (supadata : nat -> reply)
    : (list transcription * summary) * list source * gmap str CacheEntry.t * (nat -> reply) :=
  let '(out, cache', supadata') := transcribe_urls data now cache supadata (urls data) in
  let results := map fst out in
  let ok := length (List.filter is_cacheable results) in
  ((results, {| total := length results; successful := ok;
                failed_count := length results - ok |}),
   map snd out, cache', supadata').

End Fetcher.

(** ** ai_service.py: the prompt and the parameters of the API call *)

(** [config.py]: the settings the parameters are read from. *)
Module settings.
Definition TEMPERATURE : float := 0.2.
Definition MAX_TOKENS : Z := 4000.
End settings.

Definition primary_model : str := lit "gpt-4.1-mini".

Definition create_user_prompt (request : AITailoringRequest) : str :=
  lit "
Transcript:
" ++ originalTranscript request ++ lit "

Product: " ++ productDescription request ++ lit "

Please analyze this transcript and rewrite it for the product above, following all the psychological principles and structure requirements outlined in the system prompt.
".

(** [_get_standard_params]: the keyword arguments of the chat completion
    call, a [dict]. *)
Definition _get_standard_params (model system_prompt user_prompt : str)
    : list (str * json) :=
  let base_params :=
    [(lit "model", JStr model);
     (lit "messages",
      JArr [JObj [(lit "role", JStr (lit "system")); (lit "content", JStr system_prompt)];
            JObj [(lit "role", JStr (lit "user")); (lit "content", JStr user_prompt)]]);
     (lit "temperature", JFloat settings.TEMPERATURE);
     (lit "max_tokens", JInt settings.MAX_TOKENS)] in
  if contains (lit "gpt-4o") model || contains (lit "gpt-4") model
  then dict_set (lit "response_format") (JObj [(lit "type", JStr (lit "json_object"))])
         base_params
  else base_params.

(** ** main.py: the table of platforms of the health check *)

(** The [supported_platforms] entry of what [health_check] returns. *)
Definition supported_platforms : list (str * list str) :=
  [(lit "high_reliability", [lit "YouTube"]);
   (lit "medium_reliability", [lit "Instagram"]);
   (lit "low_reliability", [lit "TikTok"; lit "X (Twitter)"]);
   (lit "not_supported", [lit "Vimeo"; lit "Twitch"])].

(** ** main.py: the domain in the metadata of the scraping endpoint *)

(** [s.split(sep)] for a one-character [sep]. *)
Fixpoint split_on_go (sep : N) (cur : str) (s : str) : list str :=
  match s with
  | [] => [rev cur]
  | c :: r =>
      if c =? sep then rev cur :: split_on_go sep [] r
      else split_on_go sep (c :: cur) r
  end.

Definition split_on (sep : N) (s : str) : list str := split_on_go sep [] s.

(** [request.url.split('/')[2] if '://' in request.url else "unknown"], the
    [domain] entry of the metadata; [None] stands for the [IndexError] of
    the subscript. *)
Definition metadata_domain (url : str) : option str :=
  if contains (lit "://") url then split_on (ch "/") url !! 2%nat
  else Some (lit "unknown").

(** ** scraper_service.py: cleaning the extracted text *)

(** The characters that [\d] matches in a [str] pattern: the decimal
    digits of Unicode (category Nd), in runs of consecutive code points. *)
Definition DECIMAL_DIGITS : list (N * N) :=
  [(48, 57); (1632, 1641); (1776, 1785); (1984, 1993); (2406, 2415); (2534, 2543);
   (2662, 2671); (2790, 2799); (2918, 2927); (3046, 3055); (3174, 3183); (3302, 3311);
   (3430, 3439); (3558, 3567); (3664, 3673); (3792, 3801); (3872, 3881); (4160, 4169);
   (4240, 4249); (6112, 6121); (6160, 6169); (6470, 6479); (6608, 6617); (6784, 6793);
   (6800, 6809); (6992, 7001); (7088, 7097); (7232, 7241); (7248, 7257);
   (42528, 42537); (43216, 43225); (43264, 43273); (43472, 43481); (43504, 43513);
   (43600, 43609); (44016, 44025); (65296, 65305); (66720, 66729); (68912, 68921);
   (69734, 69743); (69872, 69881); (69942, 69951); (70096, 70105); (70384, 70393);
   (70736, 70745); (70864, 70873); (71248, 71257); (71360, 71369); (71472, 71481);
   (71904, 71913); (72016, 72025); (72784, 72793); (73040, 73049); (73120, 73129);
   (92768, 92777); (92864, 92873); (93008, 93017); (120782, 120831); (123200, 123209);
   (123632, 123641); (125264, 125273); (130032, 130041)].

Definition isdecimal (c : N) : bool :=
  existsb (fun run => (fst run <=? c) && (c <=? snd run)) DECIMAL_DIGITS.

(** The class of the bullet patterns: the bullet U+2022, the hyphen and
    the asterisk. *)
Definition is_bullet (c : N) : bool := (c =? 8226) || (c =? ch "-") || (c =? ch "*").

(** [re.sub(r'\s+', ' ', s)]: every run of white space becomes one space. *)
Fixpoint sub_whitespace_go (in_run : bool) (s : str) : str :=
  match s with
  | [] => []
  | c :: r =>
      if isspace c
      then (if in_run then sub_whitespace_go true r else 32 :: sub_whitespace_go true r)
      else c :: sub_whitespace_go false r
  end.

Definition sub_whitespace (s : str) : str := sub_whitespace_go false s.

(** [re.sub(r'^\s*[bullets]\s*', '', s)]. *)
Definition sub_leading_bullet (s : str) : str :=
  match lstrip s with
  | c :: r => if is_bullet c then lstrip r else s
  | [] => s
  end.

(** [re.sub(r'\s*[bullets]\s*$', '', s)]: the match is the longest end of
    the text made of white space, one bullet and white space. *)
Definition is_bullet_tail (s : str) : bool :=
  match lstrip s with
  | c :: r => is_bullet c && match lstrip r with [] => true | _ :: _ => false end
  | [] => false
  end.

Fixpoint sub_trailing_bullet (s : str) : str :=
  match s with
  | [] => []
  | c :: r => if is_bullet_tail s then [] else c :: sub_trailing_bullet r
  end.

(** [re.sub(r'^\s*\d+\.\s*', '', s)]. *)
Definition sub_leading_number (s : str) : str :=
  match lstrip s with
  | d :: _ =>
      if isdecimal d then
        match drop_while isdecimal (lstrip s) with
        | c :: r => if c =? ch "." then lstrip r else s
        | [] => s
        end
      else s
  | [] => s
  end.

Definition _clean_text (text : str) : str :=
  match text with
  | [] => []
  | _ :: _ =>
      let text := sub_whitespace (strip text) in
      let text := sub_leading_bullet text in
      let text := sub_trailing_bullet text in
      let text := sub_leading_number text in
      strip text
  end.

(** ** scraper_service.py: finding the description of a product

    The parsed page is seen through what the code asks of it: the first
    element a CSS selector matches, the texts of the JSON-LD script tags,
    and the meta tag named [description]. *)

(** An element that [select_one] gives: a [meta] tag with its [content]
    attribute, or another tag with what [get_text(strip=True)] gives. *)
Inductive element :=
| Meta (content : option str)
| Tag (text : str).

Record soup := {
  (** [soup.select_one(selector)]; [None] also where the call raises,
      which the loop over the selectors treats alike. *)
  select_one : str -> option element;
  (** [script.string] for each tag of [find_all('script',
      type='application/ld+json')]. *)
  ld_json_scripts : list (option str);
  (** [soup.find('meta', attrs={'name': 'description'})], with the
      [content] attribute of the tag found. *)
  meta_description : option (option str)
}.

Definition description_selectors : list str :=
  [qlit "[data-testid='product-description']";
   lit ".product-description"; lit ".product-details"; lit ".product-info";
   lit ".description";
   qlit "[class*='description']"; qlit "[class*='product-details']";
   qlit "[class*='product-info']";
   qlit "meta[name='description']";
   lit ".product-summary"; lit ".product-overview"; lit ".product-content";
   lit ".product-text"; lit ".item-description"; lit ".product-specs";
   qlit "p[class*='description']"; qlit "div[class*='description']";
   qlit "section[class*='description']";
   qlit "script[type='application/ld+json']"].

Definition title_selectors : list str :=
  [qlit "h1[data-testid='product-title']"; lit "h1.product-title";
   qlit "h1[class*='title']"; qlit "h1[class*='name']"; lit "h1";
   lit ".product-name"; lit ".product-title";
   qlit "[data-testid='product-title']"; lit "title"].

Fixpoint _extract_text_by_selectors (page : soup) (selectors : list str) : option str :=
  match selectors with
  | [] => None
  | selector :: rest =>
      match select_one page selector with
      | Some (Meta content) => Some (strip (default [] content))
      | Some (Tag text) => Some text
      | None => _extract_text_by_selectors page rest
      end
  end.

(** The first entry of a decoded list that is a [dict] with the key
    [description]. *)
Fixpoint first_description (items : list json) : option json :=
  match items with
  | [] => None
  | JObj d :: rest =>
      match dict_get (lit "description") d with
      | Some v => Some v
      | None => first_description rest
      end
  | _ :: rest => first_description rest
  end.

(** [_extract_structured_data_description], on the texts of the script
    tags.  The value is what the function returns, [JNull] for [None].  A
    tag without a string makes [json.loads] raise a [TypeError], which the
    outer handler answers with [None]. *)
Fixpoint _extract_structured_data_description (scripts : list (option str)) : json :=
  match scripts with
  | [] => JNull
  | None :: _ => JNull
  | Some text :: rest =>
      match json_loads text with
      | Ok (JArr items) =>
          match first_description items with
          | Some v => v
          | None => _extract_structured_data_description rest
          end
      | Ok (JObj d) =>
          match dict_get (lit "description") d with
          | Some v => v
          | None => _extract_structured_data_description rest
          end
      | Ok _ => _extract_structured_data_description rest
      | Raise _ => _extract_structured_data_description rest
      end
  end.

(** The truth value of a decoded value, as [if not description] tests it. *)
Definition truthy (v : json) : bool :=
  match v with
  | JNull => false
  | JBool b => b
  | JInt z => negb (z =? 0)%Z
  | JFloat x => negb (x =? 0)%float
  | JStr s => match s with [] => false | _ :: _ => true end
  | JArr items => match items with [] => false | _ :: _ => true end
  | JObj members => match members with [] => false | _ :: _ => true end
  end.

(** [_clean_text] on a value that is true: only a [str] has [strip]. *)
Definition clean_value (v : json) : result str :=
  match v with
  | JStr s => Ok (_clean_text s)
  | _ => Raise (no_attribute v "strip")
  end.

Record ProductScraperData := {
  description : str;
  title : option str
}.

(** [scrape_product]: [valid] is what [_is_valid_url] answers for the URL
    and [fetched] the page that [_make_request] and the parser give,
    [None] when the request failed.  The two exceptions raised are told
    apart by their text only. *)
Definition scrape_product (valid : bool) (fetched : option soup) : ProductScraperData :=
  let attempt : result ProductScraperData :=
    if negb valid then Raise (Exception (lit "Invalid URL format"))
    else
      match fetched with
      | None => Raise (Exception (lit "Failed to fetch the webpage"))
      | Some page =>
          let description :=
            match _extract_text_by_selectors page description_selectors with
            | Some text => JStr text
            | None => JNull
            end in
          let description :=
            if truthy description then description
            else _extract_structured_data_description (ld_json_scripts page) in
          let description :=
            if truthy description then description
            else
              match meta_description page with
              | Some (Some (c :: content)) => JStr (c :: content)
              | _ => description
              end in
          description ←
            (if truthy description then clean_value description
             else Ok (lit "Product description not available"));
          let title := _extract_text_by_selectors page title_selectors in
          let title :=
            match title with
            | Some (c :: text) => Some (_clean_text (c :: text))
            | _ => None
            end in
          Ok {| description := description; title := title |}
      end in
  match attempt with
  | Ok data => data
  | Raise e =>
      {| description := lit "Error occurred while scraping the product description: "
                        ++ str_of_exn e;
         title := Some (lit "Error: Failed to scrape product") |}
  end.

(** * The vocabulary of the properties *)

(** [p] is a contiguous part of [s]. *)
Definition infix_of (p s : str) : Prop := exists a b, s = a ++ p ++ b.

(** A stripped text does not end with white space. *)
Definition ends_clean (s : str) : Prop :=
  forall x, last s = Some x -> isspace x = false.

(** A run of white space. *)
Definition spaces (s : str) : Prop := Forall (fun c => isspace c = true) s.

(** The replies that carry a text as it is, between a fence tagged [json]
    and a closing fence, or between two bare fences, with any white space
    around the text and around the fences. *)
Inductive carries (text : str) : str -> Prop :=
| carries_plain a b :
    spaces a -> spaces b -> carries text (a ++ text ++ b)
| carries_fenced_json o a b e :
    spaces o -> spaces a -> spaces b -> spaces e ->
    carries text (o ++ (FENCE_JSON ++ a ++ text ++ b ++ FENCE) ++ e)
| carries_fenced o a b e :
    spaces o -> spaces a -> spaces b -> spaces e ->
    carries text (o ++ (FENCE ++ a ++ text ++ b ++ FENCE) ++ e).

(** What the fallback structure holds. *)
Definition fallback_fields (v : json) : Prop :=
  get v (lit "tailoredScript") JNull
    = Ok (JStr (lit "Error: Could not parse AI response. Please try again.")) /\
  get v (lit "confidence") JNull = Ok (JFloat 0.1) /\
  get v (lit "improvementAreas") JNull = Ok (JArr [JStr (lit "parsing_error")]) /\
  get v (lit "sectionBreakdown") JNull = Ok (JArr []) /\
  get v (lit "sutherlandAlchemy") JNull
    = Ok (JObj [(lit "explanation", JStr (lit "Error in parsing response"));
                (lit "valueReframing", JArr []);
                (lit "identityShifts", JArr [])]) /\
  get v (lit "hormoziValueStack") JNull
    = Ok (JObj [(lit "coreOffer", JStr (lit "Error in analysis"));
                (lit "valueElements", JArr []);
                (lit "totalStack", JObj []);
                (lit "grandSlamElements", JArr [])]).

(** A scan that did not run out of fuel and, where it read a term, left
    less text than it was given. *)
Definition scan_bounded (A : Type) (out : scanned A) (s : str) : Prop :=
  out <> Exhausted /\ forall v r, out = Parsed v r -> (length r < length s)%nat.

(** A reply cut off in the middle of the tailored script. *)
Definition TRUNCATED_REPLY : str := qlit "{'tailoredScript': 'Hello world. This is trunc".

(** The read time that [calculate_metadata] renders for a word count. *)
Definition read_time (word_count : Z) : str :=
  let read_time_minutes := int_true_div word_count 150 in
  if (read_time_minutes <? 1)%float
  then str_of_Z (int_of_float (read_time_minutes * 60)%float) ++ lit "s"
  else format_1f read_time_minutes ++ lit "m".

(** The same in whole numbers: the seconds rounded down, and the tenths of
    a minute rounded to the nearest. *)
Definition read_time_exact (word_count : Z) : str :=
  if (word_count <? 150)%Z then str_of_Z (word_count * 60 / 150) ++ lit "s"
  else
    let tenths := ((2 * word_count + 15) / 30)%Z in
    str_of_Z (tenths / 10) ++ [ch "."] ++ str_of_Z (tenths mod 10) ++ lit "m".

(** The longest reply the API is asked for, [MAX_TOKENS] tokens, holds no
    more words than that. *)
Definition MAX_TOKENS : nat := 4000.

Definition read_times_agree (w : nat) : bool :=
  str_eqb (read_time (Z.of_nat w)) (read_time_exact (Z.of_nat w)).

(** The provider reports a rate limit at an attempt. *)
Definition rate_limited (supadata : nat -> reply) (attempt : nat) : Prop :=
  exists error_msg,
    supadata attempt = RaisesSupadataError error_msg /\
    contains (lit "status 429") error_msg = true.

(** What [k] rate-limited attempts from [start] on do. *)
Definition backoff_events (start k : nat) : list fetch_event :=
  flat_map (fun attempt => [Call attempt; Sleep (5 * 2 ^ Z.of_nat attempt)]) (seq start k).

Definition is_unknown_error (r : transcription) : bool :=
  match r with
  | Error _ _ e => match code e with UNKNOWN_ERROR => true | _ => false end
  | _ => false
  end.

(** No entry of the cache holds an error. *)
Definition cache_clean (cache : gmap str CacheEntry.t) : Prop :=
  forall key entry, cache !! key = Some entry -> is_cacheable (CacheEntry.result entry) = true.

(** The parts of what [transcribe] gives back. *)
Definition results_of {A B C : Type}
    (run : (list transcription * summary) * A * B * C) : list transcription :=
  fst (fst (fst (fst run))).
Definition sources_of {A B C : Type} (run : A * list source * B * C) : list source :=
  snd (fst (fst run)).
Definition cache_of {A B C : Type} (run : A * B * gmap str CacheEntry.t * C)
    : gmap str CacheEntry.t :=
  snd (fst run).

(** A reply after which the loop tries again, unless the attempt was the
    last one. *)
Definition retryable (r : reply) : bool :=
  match r with
  | RaisesSupadataError error_msg =>
      contains (lit "status 429") error_msg
      || contains (lit "status 400") error_msg || contains (lit "status 500") error_msg
  | RaisesException _ => true
  | Content _ _ | Job _ => false
  end.

Definition sleep_seconds (e : fetch_event) : Z :=
  match e with Sleep seconds => seconds | Call _ => 0%Z end.

Definition total_sleep (events : list fetch_event) : Z :=
  fold_right (fun e acc => (sleep_seconds e + acc)%Z) 0%Z events.

(** What [k] attempts from the first on do when each raises an exception
    other than a [SupadataError], and when each raises a [SupadataError]
    for a server error. *)
Definition exception_events (k : nat) : list fetch_event :=
  flat_map (fun attempt => [Call attempt; Sleep (2 ^ Z.of_nat attempt)]) (seq 0 k).

Definition server_error_events (k : nat) : list fetch_event :=
  flat_map (fun attempt => [Call attempt; Sleep (2 ^ Z.of_nat attempt * 2)]) (seq 0 k).

Definition server_error (r : reply) : Prop :=
  exists error_msg,
    r = RaisesSupadataError error_msg /\
    contains (lit "status 429") error_msg = false /\
    contains (lit "status 400") error_msg || contains (lit "status 500") error_msg = true.

(** [" ".join(words)]. *)
Fixpoint join (words : list str) : str :=
  match words with
  | [] => []
  | w :: rest => match rest with [] => w | _ :: _ => w ++ 32 :: join rest end
  end.

(** A text does not start with white space. *)
Definition starts_clean (s : str) : Prop :=
  forall x, head s = Some x -> isspace x = false.

(** Every white space character is a space, and no two stand side by
    side. *)
Fixpoint spaced (s : str) : bool :=
  match s with
  | [] => true
  | c :: r =>
      (if isspace c
       then (c =? 32) && match r with d :: _ => negb (isspace d) | [] => true end
       else true) && spaced r
  end.

(** A script tag whose text is not JSON. *)
Definition malformed_script (script : option str) : Prop :=
  exists text e, script = Some text /\ json_loads text = Raise e.

(** The selectors for the description find nothing, or an empty text. *)
Definition no_selected_description (page : soup) : Prop :=
  _extract_text_by_selectors page description_selectors = None \/
  _extract_text_by_selectors page description_selectors = Some [].

(** The URL and the platform that a result names. *)
Definition url_of (r : transcription) : str :=
  match r with
  | Success url _ _ _ | Processing url _ _ | Error url _ _ => url
  end.

Definition platform_of (r : transcription) : str :=
  match r with
  | Success _ platform _ _ | Processing _ platform _ | Error _ platform _ => platform
  end.

(** * Properties *)

(** ** Strings *)

Lemma startswith_prefix p s : startswith p s = true <-> exists r, s = p ++ r.
Proof.
  revert s. induction p as [|a p IH]; intros s; simpl.
  - split; [intros _; exists s; reflexivity | reflexivity].
  - destruct s as [|b s].
    + split; [discriminate | intros [r Hr]; discriminate].
    + rewrite andb_true_iff, N.eqb_eq, IH. split.
      * intros [-> [r ->]]. exists r. reflexivity.
      * intros [r Hr]. injection Hr as -> ->. split; [reflexivity | exists r; reflexivity].
Qed.

Lemma contains_infix p s : contains p s = true <-> infix_of p s.
Proof.
  unfold infix_of. induction s as [|c s IH].
  - simpl. rewrite orb_false_r, startswith_prefix. split.
    + intros [r Hr]. exists [], r. exact Hr.
    + intros (a & b & H). destruct a; simpl in H.
      * exists b. exact H.
      * discriminate.
  - simpl. rewrite orb_true_iff, startswith_prefix, IH. split.
    + intros [[r Hr] | (a & b & ->)].
      * exists [], r. exact Hr.
      * exists (c :: a), b. reflexivity.
    + intros (a & b & H). destruct a as [|x a]; simpl in H.
      * left. exists b. exact H.
      * right. injection H as _ ->. exists a, b. reflexivity.
Qed.

Lemma infix_of_trans p q s : infix_of p q -> infix_of q s -> infix_of p s.
Proof.
  intros (a & b & ->) (c & d & ->). exists (c ++ a), (b ++ d).
  rewrite <- !app_assoc. reflexivity.
Qed.

Lemma infix_of_suffix p s : (exists a, s = a ++ p) -> infix_of p s.
Proof. intros [a ->]. exists a, []. rewrite app_nil_r. reflexivity. Qed.

Lemma infix_of_prefix p s : (exists b, s = p ++ b) -> infix_of p s.
Proof. intros [b ->]. exists [], b. reflexivity. Qed.

Lemma drop_while_suffix f s : exists a, s = a ++ drop_while f s /\ Forall (fun c => f c = true) a.
Proof.
  induction s as [|c s [a [IH Ha]]]; simpl.
  - exists []. split; [reflexivity | constructor].
  - destruct (f c) eqn:E.
    + exists (c :: a). split; [simpl; congruence | constructor; assumption].
    + exists []. split; [reflexivity | constructor].
Qed.

Lemma drop_while_head f s :
  match drop_while f s with c :: _ => f c = false | [] => True end.
Proof.
  induction s as [|c s IH]; simpl; [exact I|].
  destruct (f c) eqn:E; [exact IH | exact E].
Qed.

Lemma drop_while_all f a s :
  Forall (fun c => f c = true) a -> drop_while f (a ++ s) = drop_while f s.
Proof. induction 1 as [|c a Hc _ IH]; simpl; [reflexivity | rewrite Hc; exact IH]. Qed.

Lemma drop_while_stop f c s : f c = false -> drop_while f (c :: s) = c :: s.
Proof. intros H. simpl. rewrite H. reflexivity. Qed.

Lemma rstrip_prefix s : exists b, s = rstrip s ++ b /\ Forall (fun c => isspace c = true) b.
Proof.
  unfold rstrip. destruct (drop_while_suffix isspace (rev s)) as [a [Ha Hall]].
  exists (rev a). split.
  - rewrite <- (rev_involutive s) at 1. rewrite Ha at 1. apply rev_app_distr.
  - apply Forall_rev. exact Hall.
Qed.

Lemma lstrip_suffix s : exists a, s = a ++ lstrip s /\ Forall (fun c => isspace c = true) a.
Proof. apply drop_while_suffix. Qed.

Lemma rstrip_ends_clean s : ends_clean (rstrip s).
Proof.
  unfold ends_clean, rstrip. intros x Hx.
  pose proof (drop_while_head isspace (rev s)) as H.
  destruct (drop_while isspace (rev s)) as [|c r]; simpl in Hx.
  - discriminate.
  - rewrite last_snoc in Hx. congruence.
Qed.

Lemma ends_clean_suffix a s : ends_clean (a ++ s) -> ends_clean s.
Proof.
  unfold ends_clean. intros H x Hx. apply H.
  destruct s as [|c s]; [discriminate|].
  rewrite last_app, Hx. reflexivity.
Qed.

Lemma rstrip_clean s : ends_clean s -> rstrip s = s.
Proof.
  unfold ends_clean, rstrip. intros H.
  destruct (rev s) as [|c r] eqn:E.
  - apply (f_equal (@rev N)) in E. rewrite rev_involutive in E. subst s. reflexivity.
  - assert (Hs : s = rev r ++ [c]).
    { rewrite <- (rev_involutive s), E. reflexivity. }
    rewrite drop_while_stop.
    + simpl. symmetry. exact Hs.
    + apply H. rewrite Hs, last_snoc. reflexivity.
Qed.

Lemma rstrip_app_spaces s b :
  Forall (fun c => isspace c = true) b -> rstrip (s ++ b) = rstrip s.
Proof.
  intros Hb. unfold rstrip. rewrite rev_app_distr, drop_while_all; [reflexivity|].
  apply Forall_rev. exact Hb.
Qed.

Lemma endswith_suffix p s : endswith p s = true <-> exists a, s = a ++ p.
Proof.
  unfold endswith. rewrite startswith_prefix. split.
  - intros [r Hr]. exists (rev r).
    rewrite <- (rev_involutive s), Hr, rev_app_distr, rev_involutive. reflexivity.
  - intros [a ->]. exists (rev a). apply rev_app_distr.
Qed.

(** ** The text handed to the decoder *)

Lemma strip_ends_clean s : ends_clean (strip s).
Proof. apply rstrip_ends_clean. Qed.

Lemma strip_infix s : infix_of (strip s) s.
Proof.
  unfold strip.
  destruct (rstrip_prefix (lstrip s)) as [b [Hb _]].
  destruct (lstrip_suffix s) as [a [Ha _]].
  exists a, b. rewrite <- Hb. exact Ha.
Qed.

Lemma sub_leading_suffix opening s : exists a, s = a ++ sub_leading opening s.
Proof.
  unfold sub_leading. destruct (startswith opening s).
  - destruct (lstrip_suffix (drop (length opening) s)) as [a [Ha _]].
    exists (take (length opening) s ++ a).
    rewrite <- app_assoc, <- Ha, take_drop. reflexivity.
  - exists []. reflexivity.
Qed.

Lemma sub_trailing_fence_prefix s :
  ends_clean s -> exists b, s = sub_trailing_fence s ++ b.
Proof.
  intros Hclean. unfold sub_trailing_fence.
  destruct (endswith FENCE s).
  - destruct (rstrip_prefix (take (length s - 3) s)) as [b [Hb _]].
    exists (b ++ drop (length s - 3) s).
    rewrite app_assoc, <- Hb, take_drop. reflexivity.
  - destruct (endswith (FENCE ++ [10]) s) eqn:E.
    + apply endswith_suffix in E. destruct E as [a ->].
      specialize (Hclean 10). rewrite app_assoc, last_snoc in Hclean.
      specialize (Hclean eq_refl). discriminate.
    + exists []. rewrite app_nil_r. reflexivity.
Qed.

Lemma unfence_infix opening s :
  infix_of (sub_trailing_fence (sub_leading opening (strip s))) s.
Proof.
  destruct (sub_leading_suffix opening (strip s)) as [a Ha].
  destruct (sub_trailing_fence_prefix (sub_leading opening (strip s))) as [b Hb].
  - apply ends_clean_suffix with a. rewrite <- Ha. apply strip_ends_clean.
  - apply infix_of_trans with (strip s); [|apply strip_infix].
    exists a, b. rewrite <- Hb. exact Ha.
Qed.

(** The cleaned text is a contiguous part of the reply. *)
Lemma clean_response_infix ai_response :
  infix_of (clean_response ai_response) ai_response.
Proof.
  unfold clean_response.
  destruct (startswith FENCE_JSON (strip ai_response)); [apply unfence_infix|].
  destruct (startswith FENCE (strip ai_response)); [apply unfence_infix|].
  apply strip_infix.
Qed.

Lemma clean_response_keeps_absence key ai_response :
  contains key ai_response = false -> contains key (clean_response ai_response) = false.
Proof.
  intros H. destruct (contains key (clean_response ai_response)) eqn:E; [|reflexivity].
  apply contains_infix in E.
  pose proof (infix_of_trans _ _ _ E (clean_response_infix ai_response)) as Hin.
  apply contains_infix in Hin. congruence.
Qed.

(** A text between a fence with the [json] tag and a closing fence, each
    separated from it by any white space, is cleaned to the text itself. *)
Lemma strip_clean_text c body :
  isspace c = false -> ends_clean (c :: body) -> strip (c :: body) = c :: body.
Proof.
  intros Hc Hclean. unfold strip, lstrip. rewrite drop_while_stop by exact Hc.
  apply rstrip_clean. exact Hclean.
Qed.

Lemma ends_clean_app_fence s : ends_clean (s ++ FENCE).
Proof.
  intros x Hx. rewrite last_app in Hx. cbn in Hx. injection Hx as <-. reflexivity.
Qed.

Lemma sub_trailing_fence_app s b :
  Forall (fun c => isspace c = true) b -> ends_clean s ->
  sub_trailing_fence (s ++ b ++ FENCE) = s.
Proof.
  intros Hb Hclean. unfold sub_trailing_fence.
  assert (E : endswith FENCE (s ++ b ++ FENCE) = true).
  { apply endswith_suffix. exists (s ++ b). rewrite app_assoc. reflexivity. }
  rewrite E.
  replace (take (length (s ++ b ++ FENCE) - 3) (s ++ b ++ FENCE)) with (s ++ b).
  - rewrite rstrip_app_spaces by exact Hb. apply rstrip_clean. exact Hclean.
  - rewrite (app_assoc s b FENCE).
    replace (length ((s ++ b) ++ FENCE) - 3)%nat with (length (s ++ b)).
    + rewrite take_app_length. reflexivity.
    + rewrite (length_app (s ++ b)). unfold FENCE. simpl. lia.
Qed.

Lemma strip_wrapped p0 p t :
  isspace p0 = false -> strip ((p0 :: p) ++ t ++ FENCE) = (p0 :: p) ++ t ++ FENCE.
Proof.
  intros Hp. unfold strip, lstrip. rewrite <- app_comm_cons.
  rewrite drop_while_stop by exact Hp.
  apply rstrip_clean. rewrite app_comm_cons, app_assoc. apply ends_clean_app_fence.
Qed.

Lemma clean_response_fenced_json a c body b :
  Forall (fun x => isspace x = true) a -> Forall (fun x => isspace x = true) b ->
  isspace c = false -> ends_clean (c :: body) ->
  clean_response (FENCE_JSON ++ a ++ (c :: body) ++ b ++ FENCE) = c :: body.
Proof.
  intros Ha Hb Hc Hclean. unfold clean_response.
  pose proof (strip_wrapped 96 (lit "``json") (a ++ (c :: body) ++ b) eq_refl) as Hs.
  change (96 :: lit "``json") with FENCE_JSON in Hs.
  rewrite <- !app_assoc in Hs. rewrite Hs.
  assert (Hp : startswith FENCE_JSON (FENCE_JSON ++ a ++ (c :: body) ++ b ++ FENCE) = true).
  { apply startswith_prefix. eexists. reflexivity. }
  rewrite Hp. unfold sub_leading. rewrite Hp, drop_app_length.
  unfold lstrip. rewrite drop_while_all by exact Ha.
  rewrite <- app_comm_cons, drop_while_stop by exact Hc.
  apply (sub_trailing_fence_app (c :: body) b Hb Hclean).
Qed.

Lemma FENCE_eq : FENCE = [96; 96; 96].
Proof. reflexivity. Qed.

Lemma FENCE_JSON_eq : FENCE_JSON = [96; 96; 96; 106; 115; 111; 110].
Proof. reflexivity. Qed.

Lemma clean_response_fenced a c body b :
  Forall (fun x => isspace x = true) a -> Forall (fun x => isspace x = true) b ->
  isspace c = false -> ends_clean (c :: body) -> c <> 106 ->
  clean_response (FENCE ++ a ++ (c :: body) ++ b ++ FENCE) = c :: body.
Proof.
  intros Ha Hb Hc Hclean Hj. unfold clean_response.
  pose proof (strip_wrapped 96 (lit "``") (a ++ (c :: body) ++ b) eq_refl) as Hs.
  change (96 :: lit "``") with FENCE in Hs.
  rewrite <- !app_assoc in Hs. rewrite Hs.
  assert (Hq : startswith FENCE_JSON (FENCE ++ a ++ (c :: body) ++ b ++ FENCE) = false).
  { rewrite FENCE_JSON_eq, FENCE_eq.
    destruct Ha as [|x a Hx _]; cbn [startswith app]; rewrite !N.eqb_refl; cbn [andb].
    - destruct (106 =? c) eqn:E; [|reflexivity].
      apply N.eqb_eq in E. congruence.
    - destruct (106 =? x) eqn:E; [|reflexivity].
      apply N.eqb_eq in E. subst x. discriminate. }
  rewrite Hq.
  assert (Hp : startswith FENCE (FENCE ++ a ++ (c :: body) ++ b ++ FENCE) = true).
  { apply startswith_prefix. eexists. reflexivity. }
  rewrite Hp. unfold sub_leading. rewrite Hp, drop_app_length.
  unfold lstrip. rewrite drop_while_all by exact Ha.
  rewrite <- app_comm_cons, drop_while_stop by exact Hc.
  apply (sub_trailing_fence_app (c :: body) b Hb Hclean).
Qed.

Lemma strip_surrounded a c body b :
  Forall (fun x => isspace x = true) a -> Forall (fun x => isspace x = true) b ->
  isspace c = false -> ends_clean (c :: body) ->
  strip (a ++ (c :: body) ++ b) = c :: body.
Proof.
  intros Ha Hb Hc Hclean. unfold strip, lstrip.
  rewrite drop_while_all by exact Ha.
  rewrite <- app_comm_cons, drop_while_stop by exact Hc.
  rewrite app_comm_cons, rstrip_app_spaces by exact Hb.
  apply rstrip_clean. exact Hclean.
Qed.

Lemma clean_response_strip s t : strip s = strip t -> clean_response s = clean_response t.
Proof. unfold clean_response. intros ->. reflexivity. Qed.

Lemma length_drop_while_le f s : (length (drop_while f s) <= length s)%nat.
Proof.
  destruct (drop_while_suffix f s) as [a [Ha _]].
  rewrite Ha at 2. rewrite length_app. lia.
Qed.

Lemma length_rstrip_le s : (length (rstrip s) <= length s)%nat.
Proof.
  destruct (rstrip_prefix s) as [b [Hb _]].
  rewrite Hb at 2. rewrite length_app. lia.
Qed.

(** A text that [strip] leaves alone starts and ends without white space. *)
Lemma stripped_text c body :
  strip (c :: body) = c :: body -> isspace c = false /\ ends_clean (c :: body).
Proof.
  intros H. split.
  - destruct (isspace c) eqn:E; [|reflexivity].
    apply (f_equal (@length N)) in H. unfold strip, lstrip in H. simpl in H.
    rewrite E in H.
    pose proof (length_rstrip_le (drop_while isspace body)).
    pose proof (length_drop_while_le isspace body). lia.
  - rewrite <- H. apply strip_ends_clean.
Qed.

(** ** The decoder

    The fuel of the scan is a device of the model: the scan of a text never
    uses up what [json_loads] gives it, and more fuel changes nothing. *)

Lemma length_skip_ws s : (length (skip_ws s) <= length s)%nat.
Proof. apply length_drop_while_le. Qed.

Lemma hex4_shorter s n r : hex4 s = Some (n, r) -> (length r + 4 = length s)%nat.
Proof.
  destruct s as [|a [|b [|c [|d s]]]]; try discriminate. cbn [hex4].
  destruct (hex_value a), (hex_value b), (hex_value c), (hex_value d); try discriminate.
  cbn. intros H. injection H as _ <-. simpl. lia.
Qed.

Lemma scanstring_shorter fuel s body rest :
  scanstring fuel s = Some (body, rest) -> (length rest < length s)%nat.
Proof.
  revert s body rest. induction fuel as [|fuel IH]; intros s body rest; [discriminate|].
  cbn [scanstring]. destruct s as [|c r]; [discriminate|].
  destruct (c =? QUOTE).
  { intros H. injection H as _ <-. simpl. lia. }
  destruct (c =? BACKSLASH).
  - destruct r as [|e r']; [discriminate|].
    destruct (e =? ch "u").
    + destruct (hex4 r') as [[hi r1]|] eqn:Hhex; [|discriminate].
      cbn [mbind option_bind].
      apply hex4_shorter in Hhex.
      match goal with
      | |- context [let '(_, _) := ?d in _] => remember d as d4 eqn:Hd
      end.
      assert (Hpair : (length (snd d4) <= length r1)%nat).
      { subst d4. destruct ((55296 <=? hi) && (hi <=? 56319)); [|simpl; lia].
        destruct r1 as [|b [|u r2]]; try (simpl; lia).
        destruct ((b =? BACKSLASH) && (u =? ch "u")); [|simpl; lia].
        destruct (hex4 r2) as [[lo r3]|] eqn:Hlo; [|simpl; lia].
        apply hex4_shorter in Hlo.
        destruct ((56320 <=? lo) && (lo <=? 57343)); simpl; lia. }
      clear Hd. destruct d4 as [cp r4]. simpl in Hpair.
      destruct (scanstring fuel r4) as [[b' rest']|] eqn:Hrec; cbn; [|discriminate].
      intros H. injection H as _ <-. apply IH in Hrec. simpl. lia.
    + destruct (simple_escape e); [|discriminate]. cbn [mbind option_bind].
      destruct (scanstring fuel r') as [[b' rest']|] eqn:Hrec; cbn; [|discriminate].
      intros H. injection H as _ <-. apply IH in Hrec. simpl. lia.
  - destruct (c <? 32); [discriminate|].
    destruct (scanstring fuel r) as [[b' rest']|] eqn:Hrec; cbn; [|discriminate].
    intros H. injection H as _ <-. apply IH in Hrec. simpl. lia.
Qed.

Lemma take_digits_shorter s d r : take_digits s = (d, r) -> (length r <= length s)%nat.
Proof.
  revert d r. induction s as [|c s IH]; intros d r; simpl.
  - intros H. injection H as _ <-. simpl. lia.
  - destruct (is_digit c).
    + destruct (take_digits s) as [d' r'] eqn:E. intros H. injection H as _ <-.
      specialize (IH d' r' eq_refl). lia.
    + intros H. injection H as _ <-. simpl. lia.
Qed.

Lemma scan_int_part_shorter s ip r :
  scan_int_part s = Some (ip, r) -> (length r < length s)%nat.
Proof.
  destruct s as [|c s]; [discriminate|]. cbn [scan_int_part].
  destruct (c =? 48).
  - intros H. injection H as _ <-. simpl. lia.
  - destruct (is_digit c); [|discriminate].
    destruct (take_digits s) as [d r'] eqn:E. intros H. injection H as _ <-.
    apply take_digits_shorter in E. simpl. lia.
Qed.

Lemma scan_frac_shorter s fp r : scan_frac s = (fp, r) -> (length r <= length s)%nat.
Proof.
  destruct s as [|p s]; cbn [scan_frac].
  - intros H. injection H as _ <-. lia.
  - destruct (p =? ch ".").
    + destruct (take_digits s) as [[|d0 d] r'] eqn:E; intros H; injection H as _ <-.
      * lia.
      * apply take_digits_shorter in E. simpl. lia.
    + intros H. injection H as _ <-. lia.
Qed.

Lemma scan_exp_shorter s x r : scan_exp s = (x, r) -> (length r <= length s)%nat.
Proof.
  destruct s as [|e s]; cbn [scan_exp].
  - intros H. injection H as _ <-. lia.
  - destruct ((e =? ch "e") || (e =? ch "E")).
    + match goal with
      | |- context [let '(neg, r1) := ?p in _] => destruct p as [neg r1] eqn:Hsign
      end.
      assert (Hr1 : (length r1 <= length s)%nat).
      { destruct s as [|sg r0]; [injection Hsign as _ <-; lia|].
        destruct (sg =? ch "-"); [injection Hsign as _ <-; simpl; lia|].
        destruct (sg =? ch "+"); injection Hsign as _ <-; simpl; lia. }
      destruct (take_digits r1) as [[|d0 d] r'] eqn:E; intros H; injection H as _ <-.
      * lia.
      * apply take_digits_shorter in E. simpl. lia.
    + intros H. injection H as _ <-. lia.
Qed.

Lemma match_number_shorter s v r :
  match_number s = Some (v, r) -> (length r < length s)%nat.
Proof.
  unfold match_number.
  match goal with
  | |- context [let '(neg, s0) := ?p in _] => destruct p as [neg s0] eqn:Hsign
  end.
  assert (Hs0 : (length s0 <= length s)%nat).
  { destruct s as [|c s']; [injection Hsign as _ <-; lia|].
    destruct (c =? ch "-"); injection Hsign as _ <-; simpl; lia. }
  destruct (scan_int_part s0) as [[ip s1]|] eqn:Hint; [|discriminate].
  cbn [mbind option_bind].
  destruct (scan_frac s1) as [fp s2] eqn:Hfrac.
  destruct (scan_exp s2) as [[[has_exp eneg] ed] s3] eqn:Hexp.
  apply scan_int_part_shorter in Hint. apply scan_frac_shorter in Hfrac.
  apply scan_exp_shorter in Hexp.
  destruct fp, has_exp; intros H; injection H as _ <-; lia.
Qed.

Lemma scan_bounded_malformed A s : scan_bounded A Malformed s.
Proof. split; [discriminate | intros v r H; discriminate]. Qed.

Lemma scan_bounded_parsed A v r s :
  (length r < length s)%nat -> scan_bounded A (Parsed v r) s.
Proof. intros H. split; [discriminate|]. intros v' r' E. injection E as _ <-. exact H. Qed.

Lemma scan_bounded_weaken A out s s' :
  (length s <= length s')%nat -> scan_bounded A out s -> scan_bounded A out s'.
Proof. intros Hle [H1 H2]. split; [exact H1|]. intros v r E. specialize (H2 v r E). lia. Qed.

Lemma scan_enough_fuel fuel :
  (forall s, (2 * length s < fuel)%nat -> scan_bounded json (scan_once fuel s) s) /\
  (forall acc s, (2 * length s + 2 <= fuel)%nat -> scan_bounded json (scan_members fuel acc s) s) /\
  (forall acc s, (2 * length s + 2 <= fuel)%nat -> scan_bounded json (scan_items fuel acc s) s).
Proof.
  induction fuel as [|fuel (IHonce & IHmembers & IHitems)].
  { repeat split; intros; lia. }
  split; [|split].
  - intros s Hs. cbn [scan_once]. destruct s as [|c r]; [apply scan_bounded_malformed|].
    cbn [length] in Hs.
    destruct (c =? QUOTE).
    { destruct (scanstring (length r) r) as [[body rest]|] eqn:E;
        [|apply scan_bounded_malformed].
      apply scanstring_shorter in E. apply scan_bounded_parsed. simpl. lia. }
    destruct (c =? ch "{").
    { pose proof (length_skip_ws r) as Hws.
      destruct (skip_ws r) as [|c' r']; [apply scan_bounded_malformed|].
      cbn [length] in Hws.
      destruct (c' =? ch "}"); [apply scan_bounded_parsed; simpl; lia|].
      apply scan_bounded_weaken with (c' :: r'); [simpl; lia|].
      apply IHmembers. simpl. lia. }
    destruct (c =? ch "[").
    { pose proof (length_skip_ws r) as Hws.
      destruct (skip_ws r) as [|c' r']; [apply scan_bounded_malformed|].
      cbn [length] in Hws.
      destruct (c' =? ch "]"); [apply scan_bounded_parsed; simpl; lia|].
      apply scan_bounded_weaken with (c' :: r'); [simpl; lia|].
      apply IHitems. simpl. lia. }
    repeat match goal with
           | |- context [if startswith ?p (c :: r) then _ else _] =>
               destruct (startswith p (c :: r));
               [apply scan_bounded_parsed; rewrite length_drop; simpl; lia|]
           end.
    destruct (match_number (c :: r)) as [[v rest]|] eqn:E; [|apply scan_bounded_malformed].
    apply match_number_shorter in E. apply scan_bounded_parsed. exact E.
  - intros acc s Hs. cbn [scan_members]. destruct s as [|c r]; [apply scan_bounded_malformed|].
    cbn [length] in Hs.
    destruct (c =? QUOTE); [|apply scan_bounded_malformed].
    destruct (scanstring (length r) r) as [[key r1]|] eqn:E; [|apply scan_bounded_malformed].
    apply scanstring_shorter in E.
    pose proof (length_skip_ws r1) as Hws1.
    destruct (skip_ws r1) as [|colon r2]; [apply scan_bounded_malformed|].
    cbn [length] in Hws1.
    destruct (colon =? ch ":"); [|apply scan_bounded_malformed].
    pose proof (length_skip_ws r2) as Hws2.
    destruct (IHonce (skip_ws r2)) as [Hne Hrest]; [lia|].
    destruct (scan_once fuel (skip_ws r2)) as [v r3| |];
      [|apply scan_bounded_malformed|congruence].
    specialize (Hrest v r3 eq_refl).
    pose proof (length_skip_ws r3) as Hws3.
    destruct (skip_ws r3) as [|d r4]; [apply scan_bounded_malformed|].
    cbn [length] in Hws3.
    destruct (d =? ch "}"); [apply scan_bounded_parsed; simpl; lia|].
    destruct (d =? ch ","); [|apply scan_bounded_malformed].
    pose proof (length_skip_ws r4) as Hws4.
    apply scan_bounded_weaken with (skip_ws r4); [simpl; lia|].
    apply IHmembers. lia.
  - intros acc s Hs. cbn [scan_items].
    destruct (IHonce s) as [Hne Hrest]; [lia|].
    destruct (scan_once fuel s) as [v r1| |]; [|apply scan_bounded_malformed|congruence].
    specialize (Hrest v r1 eq_refl).
    pose proof (length_skip_ws r1) as Hws1.
    destruct (skip_ws r1) as [|d r2]; [apply scan_bounded_malformed|].
    cbn [length] in Hws1.
    destruct (d =? ch "]"); [apply scan_bounded_parsed; simpl; lia|].
    destruct (d =? ch ","); [|apply scan_bounded_malformed].
    pose proof (length_skip_ws r2) as Hws2.
    apply scan_bounded_weaken with (skip_ws r2); [simpl; lia|].
    apply IHitems. lia.
Qed.

(** The fuel [json_loads] gives is never used up. *)
Lemma json_loads_fuel s : scan_once (S (2 * length s)) (skip_ws s) <> Exhausted.
Proof.
  apply (proj1 (scan_enough_fuel (S (2 * length s)))).
  pose proof (length_skip_ws s). lia.
Qed.

(** More fuel does not change what a scan found. *)
Lemma scan_more_fuel fuel :
  (forall s, scan_once fuel s <> Exhausted -> scan_once (S fuel) s = scan_once fuel s) /\
  (forall acc s, scan_members fuel acc s <> Exhausted ->
                 scan_members (S fuel) acc s = scan_members fuel acc s) /\
  (forall acc s, scan_items fuel acc s <> Exhausted ->
                 scan_items (S fuel) acc s = scan_items fuel acc s).
Proof.
  induction fuel as [|fuel (IHonce & IHmembers & IHitems)].
  { repeat split; intros; cbn in *; congruence. }
  split; [|split].
  - intros s. cbn [scan_once]. destruct s as [|c r]; [reflexivity|].
    destruct (c =? QUOTE); [reflexivity|].
    destruct (c =? ch "{").
    { destruct (skip_ws r) as [|c' r']; [reflexivity|].
      destruct (c' =? ch "}"); [reflexivity|]. apply IHmembers. }
    destruct (c =? ch "[").
    { destruct (skip_ws r) as [|c' r']; [reflexivity|].
      destruct (c' =? ch "]"); [reflexivity|]. apply IHitems. }
    reflexivity.
  - intros acc s. cbn [scan_members]. destruct s as [|c r]; [reflexivity|].
    destruct (c =? QUOTE); [|reflexivity].
    destruct (scanstring (length r) r) as [[key r1]|]; [|reflexivity].
    destruct (skip_ws r1) as [|colon r2]; [reflexivity|].
    destruct (colon =? ch ":"); [|reflexivity].
    intros H.
    assert (Hne : scan_once fuel (skip_ws r2) <> Exhausted).
    { intros E. rewrite E in H. congruence. }
    rewrite (IHonce _ Hne).
    destruct (scan_once fuel (skip_ws r2)) as [v r3| |]; [|reflexivity|reflexivity].
    destruct (skip_ws r3) as [|d r4]; [reflexivity|].
    destruct (d =? ch "}"); [reflexivity|].
    destruct (d =? ch ","); [|reflexivity].
    apply IHmembers. exact H.
  - intros acc s. cbn [scan_items]. intros H.
    assert (Hne : scan_once fuel s <> Exhausted).
    { intros E. rewrite E in H. congruence. }
    rewrite (IHonce _ Hne).
    destruct (scan_once fuel s) as [v r1| |]; [|reflexivity|reflexivity].
    destruct (skip_ws r1) as [|d r2]; [reflexivity|].
    destruct (d =? ch "]"); [reflexivity|].
    destruct (d =? ch ","); [|reflexivity].
    apply IHitems. exact H.
Qed.

Lemma scan_fuel_independent s extra :
  scan_once (S (2 * length s) + extra) (skip_ws s) = scan_once (S (2 * length s)) (skip_ws s).
Proof.
  induction extra as [|extra IH].
  - rewrite Nat.add_0_r. reflexivity.
  - rewrite Nat.add_succ_r, <- IH.
    apply (proj1 (scan_more_fuel _)). rewrite IH. apply json_loads_fuel.
Qed.

(** The scan [json_loads] runs never uses up its fuel, and with any
    amount of fuel beyond that it finds the same. *)
Theorem json_loads_fuel_is_enough s extra :
  scan_once (S (2 * length s)) (skip_ws s) <> Exhausted /\
  scan_once (S (2 * length s) + extra) (skip_ws s) = scan_once (S (2 * length s)) (skip_ws s).
Proof. split; [apply json_loads_fuel | apply scan_fuel_independent]. Qed.

(** [scanstring] does not depend on its fuel once that covers the text. *)
Lemma scanstring_fuel f1 f2 s :
  (length s <= f1)%nat -> (length s <= f2)%nat -> scanstring f1 s = scanstring f2 s.
Proof.
  revert f2 s. induction f1 as [|f1 IH]; intros f2 s H1 H2.
  - destruct s; [|simpl in H1; lia]. destruct f2; reflexivity.
  - destruct f2 as [|f2]; [destruct s; [reflexivity | simpl in H2; lia]|].
    cbn [scanstring]. destruct s as [|c r]; [reflexivity|]. cbn [length] in H1, H2.
    destruct (c =? QUOTE); [reflexivity|].
    destruct (c =? BACKSLASH).
    + destruct r as [|e r']; [reflexivity|]. cbn [length] in H1, H2.
      destruct (e =? ch "u").
      * destruct (hex4 r') as [[hi r1]|] eqn:Hhex; [|reflexivity].
        cbn [mbind option_bind]. apply hex4_shorter in Hhex.
        match goal with
        | |- context [let '(_, _) := ?d in _] => remember d as d4 eqn:Hd
        end.
        assert (Hpair : (length (snd d4) <= length r1)%nat).
        { subst d4. destruct ((55296 <=? hi) && (hi <=? 56319)); [|simpl; lia].
          destruct r1 as [|b [|u r2]]; try (simpl; lia).
          destruct ((b =? BACKSLASH) && (u =? ch "u")); [|simpl; lia].
          destruct (hex4 r2) as [[lo r3]|] eqn:Hlo; [|simpl; lia].
          apply hex4_shorter in Hlo.
          destruct ((56320 <=? lo) && (lo <=? 57343)); simpl; lia. }
        clear Hd. destruct d4 as [cp r4]. simpl in Hpair.
        rewrite (IH f2 r4) by lia. reflexivity.
      * destruct (simple_escape e); [|reflexivity]. cbn [mbind option_bind].
        rewrite (IH f2 r') by lia. reflexivity.
    + destruct (c <? 32); [reflexivity|].
      rewrite (IH f2 r) by lia. reflexivity.
Qed.

(** No JSON text starts with a backquote or with the letter j. *)
Lemma json_loads_head c body parsed :
  json_loads (c :: body) = Ok parsed -> c <> 96 /\ c <> 106.
Proof.
  intros H. split; intros ->; vm_compute in H; discriminate.
Qed.

(** ** The salvage engine *)

Lemma parse_ai_response_direct ai_response parsed_data :
  json_loads (clean_response ai_response) = Ok parsed_data ->
  parse_ai_response ai_response = ([LogParsed], Ok parsed_data).
Proof.
  intros H. unfold parse_ai_response, parse_ai_response_with. rewrite H. reflexivity.
Qed.

Lemma clean_response_carried text ai_response parsed_data :
  strip text = text -> json_loads text = Ok parsed_data ->
  carries text ai_response -> clean_response ai_response = text.
Proof.
  intros Hstrip Hjson Hc.
  destruct text as [|c body]; [vm_compute in Hjson; discriminate|].
  destruct (stripped_text c body Hstrip) as [Hsp Hclean].
  destruct (json_loads_head c body parsed_data Hjson) as [Hq Hj].
  destruct Hc as [a b Ha Hb | o a b e Ho Ha Hb He | o a b e Ho Ha Hb He].
  - unfold clean_response. rewrite (strip_surrounded a c body b Ha Hb Hsp Hclean).
    rewrite FENCE_JSON_eq, FENCE_eq. cbn [startswith].
    destruct (96 =? c) eqn:E; [apply N.eqb_eq in E; congruence|]. reflexivity.
  - rewrite <- (clean_response_fenced_json a c body b Ha Hb Hsp Hclean) at 2.
    apply clean_response_strip.
    pose proof (strip_wrapped 96 (lit "``json") (a ++ (c :: body) ++ b) eq_refl) as Hs.
    change (96 :: lit "``json") with FENCE_JSON in Hs.
    rewrite <- !app_assoc in Hs. rewrite Hs.
    change FENCE_JSON with (96 :: lit "``json").
    rewrite <- (app_comm_cons (lit "``json")).
    apply strip_surrounded; [exact Ho | exact He | reflexivity |].
    rewrite app_comm_cons, !app_assoc. apply ends_clean_app_fence.
  - rewrite <- (clean_response_fenced a c body b Ha Hb Hsp Hclean Hj) at 2.
    apply clean_response_strip.
    pose proof (strip_wrapped 96 (lit "``") (a ++ (c :: body) ++ b) eq_refl) as Hs.
    change (96 :: lit "``") with FENCE in Hs.
    rewrite <- !app_assoc in Hs. rewrite Hs.
    change FENCE with (96 :: lit "``").
    rewrite <- (app_comm_cons (lit "``")).
    apply strip_surrounded; [exact Ho | exact He | reflexivity |].
    rewrite app_comm_cons, !app_assoc. apply ends_clean_app_fence.
Qed.

(** C1. A reply whose cleaned text the decoder accepts is answered with
    the decoded structure itself, and the log shows the direct path only:
    no repair step runs.  The cleaned text of a reply that carries a valid
    JSON text, plain or between code fences, is that text. *)
Theorem C1_valid_json_returned_unchanged ai_response text parsed_data :
  strip text = text ->
  json_loads text = Ok parsed_data ->
  carries text ai_response ->
  clean_response ai_response = text /\
  parse_ai_response ai_response = ([LogParsed], Ok parsed_data).
Proof.
  intros Hstrip Hjson Hc.
  pose proof (clean_response_carried text ai_response parsed_data Hstrip Hjson Hc) as E.
  split; [exact E|]. apply parse_ai_response_direct. rewrite E. exact Hjson.
Qed.

Lemma json_loads_raises s e : json_loads s = Raise e -> e = JSONDecodeError.
Proof.
  unfold json_loads. intros H.
  destruct (scan_once (S (2 * length s)) (skip_ws s)) as [v rest| |];
    [destruct (skip_ws rest)|..]; congruence.
Qed.

Lemma FALLBACK_fields : fallback_fields FALLBACK.
Proof. repeat split. Qed.

(** C2, as the code has it.  A reply without the key of the primary field
    whose cleaned text the decoder rejects is answered with the fallback
    structure, without any repair: the error text, confidence 0.1, an empty
    section list and empty lists in both nested blocks; its improvement
    areas hold the one marker of a parsing error. *)
Theorem C2_fallback_without_key ai_response :
  contains KEY_TAILORED_SCRIPT ai_response = false ->
  json_loads (clean_response ai_response) = Raise JSONDecodeError ->
  parse_ai_response ai_response = ([LogParseFailed], Ok FALLBACK) /\
  fallback_fields FALLBACK.
Proof.
  intros Hkey Hjson. split; [|apply FALLBACK_fields].
  unfold parse_ai_response, parse_ai_response_with.
  rewrite Hjson, (clean_response_keeps_absence _ _ Hkey). reflexivity.
Qed.

(** C2 fails as stated: the reply [{}] does not contain the key, and the
    engine answers with the decoded empty object, not with the fallback. *)
Lemma C2_counterexample :
  contains (lit "tailoredScript") (lit "{}") = false /\
  parse_ai_response (lit "{}") = ([LogParsed], Ok (JObj [])) /\
  JObj [] <> FALLBACK.
Proof. repeat split. discriminate. Qed.




(** ** The repair of an unterminated string *)

Lemma scan_step_inside st i c :
  in_string st = true -> escape_next st = false -> c <> QUOTE -> c <> BACKSLASH ->
  scan_step st i c = st.
Proof.
  intros Hin Hesc Hq Hb. unfold scan_step. rewrite Hesc, Hin.
  apply N.eqb_neq in Hq, Hb. rewrite Hq, Hb. reflexivity.
Qed.

Lemma scan_from_inside content st i :
  in_string st = true -> escape_next st = false ->
  Forall (fun c => c <> QUOTE /\ c <> BACKSLASH) content ->
  scan_from st i content = st.
Proof.
  intros Hin Hesc Hall. revert i.
  induction Hall as [|c content [Hq Hb] _ IH]; intros i; simpl.
  - reflexivity.
  - rewrite scan_step_inside by assumption. apply IH.
Qed.

Lemma scan_from_app a b st i :
  scan_from st i (a ++ b) = scan_from (scan_from st i a) (i + length a) b.
Proof.
  revert st i. induction a as [|c a IH]; intros st i; simpl.
  - rewrite Nat.add_0_r. reflexivity.
  - rewrite IH. f_equal. lia.
Qed.

Lemma scan_step_pos st i c :
  (last_valid_pos (scan_step st i c) <= Nat.max (last_valid_pos st) i)%nat.
Proof.
  unfold scan_step.
  destruct (escape_next st), (c =? BACKSLASH), (c =? QUOTE), (in_string st),
    (is_structural c); simpl; lia.
Qed.

Lemma scan_from_pos s st i :
  (last_valid_pos (scan_from st i s) <= Nat.max (last_valid_pos st) (i + length s - 1))%nat.
Proof.
  revert st i. induction s as [|c s IH]; intros st i; simpl.
  - lia.
  - specialize (IH (scan_step st i c) (S i)).
    pose proof (scan_step_pos st i c). lia.
Qed.

(** Whatever follows the opening quote of an unterminated string has no
    part in the repaired text: the text is cut at or before the last
    position that was valid in front of that quote. *)
Lemma fix_unterminated_strings_drops_content before content :
  in_string (scan before) = false -> escape_next (scan before) = false ->
  Forall (fun c => c <> QUOTE /\ c <> BACKSLASH) content ->
  in_string (scan (before ++ QUOTE :: content)) = true /\
  _fix_unterminated_strings (before ++ QUOTE :: content)
    = _fix_unterminated_strings (before ++ [QUOTE]).
Proof.
  intros Hin Hesc Hall.
  set (opened := {| in_string := true; escape_next := false;
                    last_valid_pos := last_valid_pos (scan before) |}).
  assert (Hstep : forall tail,
             Forall (fun c => c <> QUOTE /\ c <> BACKSLASH) tail ->
             scan (before ++ QUOTE :: tail) = opened).
  { intros tail Htail. unfold scan. rewrite scan_from_app. fold (scan before). simpl.
    replace (scan_step (scan before) (length before) QUOTE) with opened.
    - apply scan_from_inside; [reflexivity | reflexivity | exact Htail].
    - unfold scan_step, opened. rewrite Hesc, Hin. reflexivity. }
  assert (Hpos : (last_valid_pos (scan before) + 1 <= length (before ++ [QUOTE]))%nat).
  { pose proof (scan_from_pos before
                  {| in_string := false; escape_next := false; last_valid_pos := 0 |} 0) as H.
    fold (scan before) in H. simpl in H. rewrite length_app. simpl. lia. }
  assert (Hcut : take (last_valid_pos (scan before) + 1) (before ++ QUOTE :: content)
                 = take (last_valid_pos (scan before) + 1) (before ++ [QUOTE])).
  { change (before ++ QUOTE :: content) with (before ++ [QUOTE] ++ content).
    rewrite app_assoc. apply take_app_le. exact Hpos. }
  split.
  - rewrite (Hstep content Hall). reflexivity.
  - unfold _fix_unterminated_strings, close_string.
    rewrite (Hstep content Hall), (Hstep [] (List.Forall_nil _)). simpl in_string.
    simpl last_valid_pos. rewrite Hcut. reflexivity.
Qed.

(** C3, evaluated.  The reply holds the key and ends inside the string of
    the tailored script.  The repair cuts the text after the colon in
    front of that string and appends a quote there, which opens a string
    instead of closing one; the completed text is rejected by the decoder
    and the engine answers with the fallback.  Nothing of the script up to
    its last full stop is returned. *)
Theorem C3_truncated_script_is_lost :
  contains KEY_TAILORED_SCRIPT TRUNCATED_REPLY = true /\
  in_string (scan TRUNCATED_REPLY) = true /\
  close_string TRUNCATED_REPLY = ([LogLastValid 17], qlit "{'tailoredScript':'") /\
  snd (_fix_common_json_issues TRUNCATED_REPLY)
    = qlit "{'tailoredScript':'," ++ COMPLETION /\
  json_loads (snd (_fix_common_json_issues TRUNCATED_REPLY)) = Raise JSONDecodeError /\
  parse_ai_response TRUNCATED_REPLY
    = ([LogParseFailed; LogRecovering; LogFixing; LogUnterminated; LogLastValid 17;
        LogFixFailed], Ok FALLBACK).
Proof. repeat split; vm_compute; reflexivity. Qed.

(** ** Result assembly *)




(** C9.  When the API call runs into its time limit,
    [generate_tailored_script] returns the error response: the tailored
    script is the error text naming the limit of 60 seconds, the confidence
    is 0.0, and every field of the response model is filled. *)
Theorem C9_timeout_yields_error_response request processing_time :
  let data := generate_tailored_script request ApiTimeout processing_time in
  data = error_response (Exception (lit "API call timed out after 60 seconds")) processing_time /\
  tailoredScript data
    = JStr (lit "Error generating script: API call timed out after 60 seconds") /\
  confidence data = JFloat 0 /\
  wordCount data = 0%Z /\
  sectionBreakdown data = JArr [] /\
  is_fully_populated data = true.
Proof. repeat split. Qed.

(** ** Metadata *)



Lemma read_times_agree_up_to_limit :
  forallb read_times_agree (seq 0 (S MAX_TOKENS)) = true.
Proof. vm_compute. reflexivity. Qed.

Lemma read_time_is_exact w :
  (w <= MAX_TOKENS)%nat -> read_time (Z.of_nat w) = read_time_exact (Z.of_nat w).
Proof.
  intros Hw.
  pose proof (proj1 (forallb_forall _ _) read_times_agree_up_to_limit w) as H.
  assert (Hin : In w (seq 0 (S MAX_TOKENS))) by (apply in_seq; lia).
  specialize (H Hin). unfold read_times_agree, str_eqb in H.
  exact (bool_decide_eq_true_1 _ H).
Qed.

(** C8.  The word count is the number of words of the tailored script.
    The read time is rendered from the word count over 150: under one
    minute, that is below 150 words, as the whole seconds with [s], a
    number below 60; from 150 words on as the minutes to one decimal place
    with [m].  150 words give [1.0m] and 149 words give [59s].  The
    closed forms are checked for every word count a reply of at most
    [MAX_TOKENS] words can have. *)
Theorem C8_metadata tailored_script original_transcript processing_time :
  let metadata := calculate_metadata tailored_script original_transcript processing_time in
  let words := length (split tailored_script) in
  (words <= MAX_TOKENS)%nat ->
  Metadata.wordCount metadata = Z.of_nat words /\
  Metadata.estimatedReadTime metadata = read_time (Z.of_nat words) /\
  ((words < 150)%nat ->
     Metadata.estimatedReadTime metadata = str_of_Z (Z.of_nat words * 60 / 150) ++ lit "s" /\
     (Z.of_nat words * 60 / 150 < 60)%Z) /\
  ((150 <= words)%nat ->
     let tenths := ((2 * Z.of_nat words + 15) / 30)%Z in
     Metadata.estimatedReadTime metadata
       = str_of_Z (tenths / 10) ++ [ch "."] ++ str_of_Z (tenths mod 10) ++ lit "m" /\
     (0 <= tenths mod 10 < 10)%Z) /\
  (words = 150%nat -> Metadata.estimatedReadTime metadata = lit "1.0m") /\
  (words = 149%nat -> Metadata.estimatedReadTime metadata = lit "59s").
Proof.
  intros metadata words Hlimit.
  assert (Hrt : Metadata.estimatedReadTime metadata = read_time_exact (Z.of_nat words)).
  { rewrite <- (read_time_is_exact words Hlimit). reflexivity. }
  split; [reflexivity|]. split; [reflexivity|].
  split; [|split; [|split]].
  - intros Hw. rewrite Hrt. unfold read_time_exact.
    destruct (Z.ltb_spec (Z.of_nat words) 150); [|lia].
    split; [reflexivity|]. apply Z.div_lt_upper_bound; lia.
  - intros Hw tenths. rewrite Hrt. unfold read_time_exact.
    destruct (Z.ltb_spec (Z.of_nat words) 150); [lia|].
    split; [reflexivity|]. apply Z.mod_pos_bound. lia.
  - intros Hw. rewrite Hrt, Hw. reflexivity.
  - intros Hw. rewrite Hrt, Hw. reflexivity.
Qed.

(** ** The retry loop *)

Section RetryLoop.
Variable lower : str -> str.
Variable supadata : nat -> reply.
Variables (url : str) (info : platform_info) (max_retries : Z).

Lemma attempt_once_rate_limited attempt :
  rate_limited supadata attempt ->
  exists r,
    attempt_once supadata url info max_retries attempt
      = ([Call attempt; Sleep (5 * 2 ^ Z.of_nat attempt)],
         if (Z.of_nat attempt =? max_retries - 1)%Z then Some r else None) /\
    exists e, r = Error url (platform info) e /\ code e = TRANSCRIPTION_FAILED.
Proof using Type.
  intros (error_msg & Hreply & Hcode). unfold attempt_once. rewrite Hreply, Hcode.
  eexists. split.
  - rewrite (Z.mul_comm 5). reflexivity.
  - eexists. split; reflexivity.
Qed.

Lemma attempt_once_starts_with_call attempt :
  exists events, fst (attempt_once supadata url info max_retries attempt) = Call attempt :: events.
Proof using Type.
  unfold attempt_once.
  destruct (supadata attempt) as [l c | j | error_msg | msg]; simpl; eauto.
  - destruct (contains (lit "status 429") error_msg); simpl; eauto.
    destruct (contains (lit "status 400") error_msg || contains (lit "status 500") error_msg);
      simpl; eauto.
  - destruct (Z.of_nat attempt =? max_retries - 1)%Z; simpl; eauto.
Qed.

(** An attempt either returns, or sleeps last and is not the final one;
    it never returns the unknown error. *)
Lemma attempt_once_cases attempt :
  match attempt_once supadata url info max_retries attempt with
  | (events, Some r) => is_unknown_error r = false
  | (events, None) =>
      Z.of_nat attempt <> (max_retries - 1)%Z /\
      exists before seconds, events = before ++ [Sleep seconds]
  end.
Proof using Type.
  unfold attempt_once.
  destruct (supadata attempt) as [l c | j | error_msg | msg]; try reflexivity.
  - destruct (contains (lit "status 429") error_msg).
    + destruct (Z.eqb_spec (Z.of_nat attempt) (max_retries - 1)); [reflexivity|].
      split; [assumption|]. exists [Call attempt]. eauto.
    + destruct (contains (lit "status 400") error_msg || contains (lit "status 500") error_msg);
        [|reflexivity].
      destruct (Z.eqb_spec (Z.of_nat attempt) (max_retries - 1)); [reflexivity|].
      split; [assumption|]. exists [Call attempt]. eauto.
  - destruct (Z.eqb_spec (Z.of_nat attempt) (max_retries - 1)); [reflexivity|].
    split; [assumption|]. exists [Call attempt]. eauto.
Qed.

(** A loop whose last attempt is the final one returns. *)
Lemma retry_loop_returns k start :
  Z.of_nat (start + k) = max_retries -> (1 <= k)%nat ->
  exists r,
    snd (retry_loop supadata url info max_retries (seq start k)) = Some r /\
    is_unknown_error r = false.
Proof using Type.
  revert start. induction k as [|k IH]; intros start Hlast Hk; [lia|].
  simpl. pose proof (attempt_once_cases start) as Hcases.
  destruct (attempt_once supadata url info max_retries start) as [events [r|]].
  - exists r. split; [reflexivity | exact Hcases].
  - destruct Hcases as [Hnot _].
    destruct k as [|k]; [lia|].
    destruct (IH (S start)) as [r [Hr Hu]]; [lia | lia |].
    exists r. split; [|exact Hu].
    destruct (retry_loop supadata url info max_retries (seq (S start) (S k))).
    exact Hr.
Qed.

(** Rate-limited attempts before the final one are followed by the rest
    of the loop. *)
Lemma retry_loop_rate_limited k start rest :
  (forall attempt, (start <= attempt < start + k)%nat -> rate_limited supadata attempt) ->
  (Z.of_nat (start + k) < max_retries)%Z ->
  retry_loop supadata url info max_retries (seq start k ++ rest)
    = (backoff_events start k ++ fst (retry_loop supadata url info max_retries rest),
       snd (retry_loop supadata url info max_retries rest)).
Proof using Type.
  revert start. induction k as [|k IH]; intros start Hlim Hlt.
  - simpl. destruct (retry_loop supadata url info max_retries rest). reflexivity.
  - simpl seq. simpl app. cbn [retry_loop].
    destruct (attempt_once_rate_limited start) as (r & Hr & _); [apply Hlim; lia|].
    rewrite Hr. destruct (Z.eqb_spec (Z.of_nat start) (max_retries - 1)); [lia|].
    rewrite IH.
    + reflexivity.
    + intros attempt Ha. apply Hlim. lia.
    + lia.
Qed.
End RetryLoop.

Lemma low_reliability_is_supported lower url :
  reliability (_detect_platform lower url) = lit "low" ->
  supported (_detect_platform lower url) = true.
Proof.
  unfold _detect_platform.
  repeat match goal with
         | |- context [if ?b then _ else _] => destruct b
         end; cbn [reliability supported]; intros H; try reflexivity;
    vm_compute in H; discriminate.
Qed.

Lemma retry_loop_starts_with_call supadata url info max_retries attempt rest :
  exists events,
    fst (retry_loop supadata url info max_retries (attempt :: rest)) = Call attempt :: events.
Proof.
  cbn [retry_loop].
  destruct (attempt_once_starts_with_call supadata url info max_retries attempt) as [ev Hev].
  destruct (attempt_once supadata url info max_retries attempt) as [events [r|]];
    simpl in Hev; subst events.
  - exists ev. reflexivity.
  - destruct (retry_loop supadata url info max_retries rest) as [events' r'].
    exists (ev ++ events'). reflexivity.
Qed.

Lemma transcribe_with_retry_supported lower supadata url lang text mode max_retries :
  supported (_detect_platform lower url) = true ->
  let info := _detect_platform lower url in
  let budget := retry_budget info max_retries in
  let loop := retry_loop supadata url info budget (seq 0 (Z.to_nat budget)) in
  _transcribe_with_retry lower supadata url lang text mode max_retries
    = (fst loop, from_option id (unknown_error url info) (snd loop)).
Proof.
  intros Hs. unfold _transcribe_with_retry. rewrite Hs. cbn [negb].
  destruct (retry_loop supadata url (_detect_platform lower url)
              (retry_budget (_detect_platform lower url) max_retries)
              (seq 0 (Z.to_nat (retry_budget (_detect_platform lower url) max_retries))))
    as [events [r|]]; reflexivity.
Qed.

Lemma backoff_events_snoc start k :
  backoff_events start (S k)
    = backoff_events start k ++ [Call (start + k); Sleep (5 * 2 ^ Z.of_nat (start + k))].
Proof.
  unfold backoff_events. rewrite seq_S, flat_map_app. simpl. reflexivity.
Qed.

(** C5.  For a URL of a platform of low reliability the loop runs with a
    budget of at least five attempts.  While the provider reports a rate
    limit, attempt [k+1] is followed by a sleep of [5 * 2^k] seconds (5, 10,
    20, 40, 80, ...); after the sleep the next attempt is made, unless the
    attempt was the last of the budget, in which case the result is the
    error with code [TRANSCRIPTION_FAILED]. *)
Theorem C5_low_reliability_backoff
    lower supadata url lang text mode max_retries (n : nat) :
  reliability (_detect_platform lower url) = lit "low" ->
  (1 <= n)%nat ->
  (Z.of_nat n <= Z.max max_retries 5)%Z ->
  (forall attempt, (attempt < n)%nat -> rate_limited supadata attempt) ->
  let info := _detect_platform lower url in
  let budget := retry_budget info max_retries in
  let run := _transcribe_with_retry lower supadata url lang text mode max_retries in
  budget = Z.max max_retries 5 /\
  (5 <= budget)%Z /\
  exists rest,
    fst run = backoff_events 0 n ++ rest /\
    ((Z.of_nat n < budget)%Z -> exists rest', rest = Call n :: rest') /\
    (Z.of_nat n = budget ->
       rest = [] /\
       exists e, snd run = Error url (platform info) e /\ code e = TRANSCRIPTION_FAILED).
Proof.
  intros Hlow Hn Hle Hlim info budget run.
  assert (Hb : budget = Z.max max_retries 5).
  { unfold budget, retry_budget. fold info. unfold info. rewrite Hlow. reflexivity. }
  split; [exact Hb|]. split; [lia|].
  unfold run.
  rewrite (transcribe_with_retry_supported lower supadata url lang text mode max_retries
             (low_reliability_is_supported lower url Hlow)).
  fold info. fold budget. cbn [fst snd].
  destruct (Z.eq_dec (Z.of_nat n) budget) as [Heq | Hne].
  - destruct n as [|k]; [lia|].
    replace (Z.to_nat budget) with (S k) by lia.
    rewrite seq_S. simpl Nat.add.
    rewrite (retry_loop_rate_limited supadata url info budget k 0 [k]);
      [|intros a Ha; apply Hlim; lia | lia].
    cbn [retry_loop fst snd].
    destruct (attempt_once_rate_limited supadata url info budget k) as (r & Hr & e & He & Hc);
      [apply Hlim; lia|].
    rewrite Hr.
    destruct (Z.eqb_spec (Z.of_nat k) (budget - 1)); [|lia].
    cbn [fst snd from_option id].
    exists []. split; [|split].
    + rewrite app_nil_r, (backoff_events_snoc 0 k). reflexivity.
    + intros Hlt. lia.
    + intros _. split; [reflexivity|]. exists e. split; assumption.
  - replace (Z.to_nat budget) with (n + S (Z.to_nat budget - S n))%nat by lia.
    rewrite seq_app. simpl Nat.add.
    rewrite (retry_loop_rate_limited supadata url info budget n 0);
      [|intros a Ha; apply Hlim; lia | lia].
    cbn [fst snd]. eexists. split; [reflexivity|]. split.
    + intros _. cbn [seq].
      destruct (retry_loop_starts_with_call supadata url info budget n
                  (seq (S n) (Z.to_nat budget - S n))) as [ev Hev].
      exists ev. exact Hev.
    + intros Heq. lia.
Qed.

(** C6.  With a budget of at least one attempt the loop returns: the last
    attempt of the budget always does.  An attempt that does not return
    has slept last and is not the final one.  The result is therefore
    never the unknown error that follows the loop. *)
Theorem C6_fallback_unreachable lower supadata url lang text mode max_retries :
  let info := _detect_platform lower url in
  let budget := retry_budget info max_retries in
  (1 <= budget)%Z ->
  (exists r,
      snd (retry_loop supadata url info budget (seq 0 (Z.to_nat budget))) = Some r /\
      is_unknown_error r = false) /\
  is_unknown_error
    (snd (_transcribe_with_retry lower supadata url lang text mode max_retries)) = false /\
  (forall attempt events,
      attempt_once supadata url info budget attempt = (events, None) ->
      Z.of_nat attempt <> (budget - 1)%Z /\
      exists before seconds, events = before ++ [Sleep seconds]).
Proof.
  intros info budget Hb.
  destruct (retry_loop_returns supadata url info budget (Z.to_nat budget) 0) as [r [Hr Hu]];
    [lia | lia |].
  split; [exists r; split; assumption|]. split.
  - destruct (supported info) eqn:Hs.
    + rewrite (transcribe_with_retry_supported lower supadata url lang text mode max_retries Hs).
      fold info. fold budget. cbn [snd]. rewrite Hr. exact Hu.
    + unfold _transcribe_with_retry. fold info. rewrite Hs. reflexivity.
  - intros attempt events Hev.
    pose proof (attempt_once_cases supadata url info budget attempt) as Hc.
    rewrite Hev in Hc. exact Hc.
Qed.

(** The classification of the URLs the specification tests: YouTube is
    supported and of high reliability, TikTok supported and of low
    reliability, Vimeo unsupported, an unrecognized host unknown. *)
Theorem detect_platform_examples :
  let classify := fun url : string =>
    let info := _detect_platform lower_ascii (lit url) in
    (platform info, supported info, reliability info) in
  classify "youtube.com/watch?v=1"%string = (lit "YouTube", true, lit "high") /\
  classify "tiktok.com/@x/video/1"%string = (lit "TikTok", true, lit "low") /\
  classify "vimeo.com/1"%string = (lit "Vimeo", false, lit "none") /\
  classify "example.org/clip"%string = (lit "Unknown", false, lit "unknown").
Proof. repeat split. Qed.

(** A URL of an unsupported platform is answered at once with the error
    [PLATFORM_NOT_SUPPORTED]: the provider is not called and nothing
    sleeps. *)
Theorem unsupported_platform_is_not_fetched
    lower supadata url lang text mode max_retries :
  supported (_detect_platform lower url) = false ->
  exists e,
    _transcribe_with_retry lower supadata url lang text mode max_retries
      = ([], Error url (platform (_detect_platform lower url)) e) /\
    code e = PLATFORM_NOT_SUPPORTED /\
    details e = recommendation (_detect_platform lower url).
Proof.
  intros Hs. unfold _transcribe_with_retry. rewrite Hs. cbn [negb].
  eexists. split; [reflexivity|]. split; reflexivity.
Qed.

(** ** The cache of the endpoint *)

Section Cache.
Variable lower : str -> str.
Variable _hash_url : str -> str.

Lemma is_cacheable_status r : is_cacheable r = false <-> status r = lit "error".
Proof using Type. destruct r; split; intros H; try reflexivity; vm_compute in H; discriminate. Qed.

Lemma cache_clean_empty : cache_clean ∅.
Proof using Type. intros key entry H. rewrite lookup_empty in H. discriminate. Qed.

(** One URL of a request: either the cache answers and nothing changes,
    or the URL is fetched and the cache afterwards holds the result under
    the key of the URL exactly when the result can be cached; no other
    key is touched. *)
Lemma transcribe_url_cases data now cache supadata url :
  let key := _hash_url url in
  let step := transcribe_url lower _hash_url data now cache supadata url in
  let r := fst (fst (fst step)) in
  let src := snd (fst (fst step)) in
  let cache' := snd (fst step) in
  (src = FromCache /\ cache' = cache /\
   exists entry, cache !! key = Some entry /\ r = CacheEntry.result entry) \/
  (exists events,
      src = Fetched events /\
      (events, r) = _transcribe_with_retry lower supadata url (lang data) (text data) (mode data) 3 /\
      cache' !! key
        = (if is_cacheable r
           then Some {| CacheEntry.result := r; CacheEntry.timestamp := now |}
           else None) /\
      forall k, k <> key -> cache' !! k = cache !! k).
Proof using Type.
  intros key. unfold transcribe_url. fold key.
  destruct (cache !! key) as [entry|] eqn:Hlook.
  - destruct (now - CacheEntry.timestamp entry <? CACHE_TTL)%float.
    + left. cbn. split; [reflexivity|]. split; [reflexivity|]. exists entry. auto.
    + right.
      destruct (_transcribe_with_retry lower supadata url (lang data) (text data) (mode data) 3)
        as [events r].
      exists events. cbn. split; [reflexivity|]. split; [reflexivity|].
      destruct (is_cacheable r); split.
      * apply lookup_insert_eq.
      * intros k Hk. rewrite lookup_insert_ne by congruence. apply lookup_delete_ne. congruence.
      * apply lookup_delete_eq.
      * intros k Hk. apply lookup_delete_ne. congruence.
  - right.
    destruct (_transcribe_with_retry lower supadata url (lang data) (text data) (mode data) 3)
      as [events r].
    exists events. cbn. split; [reflexivity|]. split; [reflexivity|].
    destruct (is_cacheable r); split.
    + apply lookup_insert_eq.
    + intros k Hk. apply lookup_insert_ne. congruence.
    + exact Hlook.
    + reflexivity.
Qed.

Lemma transcribe_url_clean data now cache supadata url :
  cache_clean cache ->
  cache_clean (snd (fst (transcribe_url lower _hash_url data now cache supadata url))).
Proof using Type.
  intros Hclean.
  destruct (transcribe_url_cases data now cache supadata url)
    as [(_ & -> & _) | (events & _ & _ & Hkey & Hother)]; [exact Hclean|].
  intros k entry Hk. destruct (decide (k = _hash_url url)) as [->|Hne].
  - rewrite Hkey in Hk.
    destruct (is_cacheable (fst (fst (fst (transcribe_url lower _hash_url data now cache
                                             supadata url))))) eqn:E; [|discriminate].
    injection Hk as <-. exact E.
  - rewrite (Hother k Hne) in Hk. exact (Hclean k entry Hk).
Qed.

(** An error that a clean cache answers with was fetched, and leaves no
    entry under the key of its URL. *)
Lemma transcribe_url_error data now cache supadata url :
  cache_clean cache ->
  let step := transcribe_url lower _hash_url data now cache supadata url in
  status (fst (fst (fst step))) = lit "error" ->
  (exists events, snd (fst (fst step)) = Fetched events) /\
  snd (fst step) !! _hash_url url = None.
Proof using Type.
  intros Hclean step Herr. apply is_cacheable_status in Herr.
  destruct (transcribe_url_cases data now cache supadata url)
    as [(_ & _ & entry & Hlook & Hr) | (events & Hsrc & _ & Hkey & _)].
  - fold step in Hr. rewrite Hr in Herr.
    rewrite (Hclean _ entry Hlook) in Herr. discriminate.
  - fold step in Hsrc, Hkey. rewrite Herr in Hkey. split; [exists events; exact Hsrc | exact Hkey].
Qed.

(** A URL whose key the cache does not hold is fetched. *)
Lemma transcribe_url_absent data now cache supadata url :
  cache !! _hash_url url = None ->
  exists events,
    snd (fst (fst (transcribe_url lower _hash_url data now cache supadata url)))
      = Fetched events.
Proof using Type.
  intros Hnone.
  destruct (transcribe_url_cases data now cache supadata url)
    as [(_ & _ & entry & Hlook & _) | (events & Hsrc & _)].
  - congruence.
  - exists events. exact Hsrc.
Qed.
End Cache.

Section Requests.
Variable lower : str -> str.
Variable _hash_url : str -> str.

Lemma lookup_map {A B : Type} (f : A -> B) (l : list A) (i : nat) :
  map f l !! i = option_map f (l !! i).
Proof using Type.
  revert i. induction l as [|x l IH]; intros [|i]; simpl; auto.
Qed.

Lemma transcribe_urls_split data now cache supadata before url after :
  let first := transcribe_urls lower _hash_url data now cache supadata before in
  let step := transcribe_url lower _hash_url data now (snd (fst first)) (snd first) url in
  let rest := transcribe_urls lower _hash_url data now (snd (fst step)) (snd step) after in
  transcribe_urls lower _hash_url data now cache supadata (before ++ url :: after)
    = (fst (fst first) ++ fst (fst step) :: fst (fst rest), snd (fst rest), snd rest).
Proof using Type.
  revert cache supadata. induction before as [|u before IH]; intros cache supadata.
  - cbn [app transcribe_urls fst snd].
    destruct (transcribe_url lower _hash_url data now cache supadata url) as [[[r src] c] s].
    cbn [fst snd].
    destruct (transcribe_urls lower _hash_url data now c s after) as [[o c'] s'].
    reflexivity.
  - cbn [app transcribe_urls].
    destruct (transcribe_url lower _hash_url data now cache supadata u) as [[[r src] c] s].
    rewrite IH.
    destruct (transcribe_urls lower _hash_url data now c s before) as [[o1 c1] s1].
    reflexivity.
Qed.

Lemma transcribe_urls_length data now cache supadata todo :
  length (fst (fst (transcribe_urls lower _hash_url data now cache supadata todo)))
    = length todo.
Proof using Type.
  revert cache supadata. induction todo as [|u todo IH]; intros cache supadata.
  - reflexivity.
  - cbn [transcribe_urls].
    destruct (transcribe_url lower _hash_url data now cache supadata u) as [[[r src] c] s].
    specialize (IH c s).
    destruct (transcribe_urls lower _hash_url data now c s todo) as [[o c'] s'].
    cbn [fst snd length] in *. rewrite IH. reflexivity.
Qed.

Lemma transcribe_urls_clean data now cache supadata todo :
  cache_clean cache ->
  cache_clean (snd (fst (transcribe_urls lower _hash_url data now cache supadata todo))) /\
  Forall (fun p => status (fst p) = lit "error" -> exists events, snd p = Fetched events)
         (fst (fst (transcribe_urls lower _hash_url data now cache supadata todo))).
Proof using Type.
  revert cache supadata. induction todo as [|u todo IH]; intros cache supadata Hclean.
  - split; [exact Hclean | constructor].
  - cbn [transcribe_urls].
    pose proof (transcribe_url_clean lower _hash_url data now cache supadata u Hclean) as Hc.
    pose proof (transcribe_url_error lower _hash_url data now cache supadata u Hclean) as He.
    destruct (transcribe_url lower _hash_url data now cache supadata u) as [[[r src] c] s].
    cbn [fst snd] in Hc, He.
    destruct (IH c s Hc) as [IH1 IH2].
    destruct (transcribe_urls lower _hash_url data now c s todo) as [[o c'] s'].
    cbn [fst snd] in *. split; [exact IH1|].
    constructor; [|exact IH2]. cbn [fst snd]. intros Herr. apply (He Herr).
Qed.

Lemma transcribe_urls_other_key data now cache supadata todo key :
  Forall (fun u => _hash_url u <> key) todo ->
  snd (fst (transcribe_urls lower _hash_url data now cache supadata todo)) !! key
    = cache !! key.
Proof using Type.
  intros Hall. revert cache supadata.
  induction Hall as [|u todo Hu _ IH]; intros cache supadata.
  - reflexivity.
  - cbn [transcribe_urls].
    pose proof (transcribe_url_cases lower _hash_url data now cache supadata u) as Hcases.
    destruct (transcribe_url lower _hash_url data now cache supadata u) as [[[r src] c] s].
    cbn [fst snd] in Hcases. specialize (IH c s).
    destruct (transcribe_urls lower _hash_url data now c s todo) as [[o c'] s'].
    cbn [fst snd] in *. rewrite IH.
    destruct Hcases as [(_ & -> & _) | (events & _ & _ & _ & Hother)]; [reflexivity|].
    apply Hother. congruence.
Qed.

(** C10.  Starting from a cache without errors, a request leaves a cache
    without errors: only results with status success or processing are
    stored.  Every error among its results was fetched in this request,
    none came from the cache.  And when the last URL with a given key in
    a request got an error, the cache holds nothing under that key
    afterwards, so that a later request fetches the URL again when it
    reaches it, at whatever time and whatever the provider then does. *)
Theorem C10_errors_are_never_cached data now cache supadata :
  cache_clean cache ->
  let run := transcribe lower _hash_url data now cache supadata in
  cache_clean (cache_of run) /\
  (forall i r src,
      results_of run !! i = Some r -> sources_of run !! i = Some src ->
      status r = lit "error" -> exists events, src = Fetched events) /\
  (forall before url after r,
      urls data = before ++ url :: after ->
      Forall (fun u => _hash_url u <> _hash_url url) after ->
      results_of run !! length before = Some r ->
      status r = lit "error" ->
      cache_of run !! _hash_url url = None /\
      forall data' now' supadata' before' after',
        urls data' = before' ++ url :: after' ->
        Forall (fun u => _hash_url u <> _hash_url url) before' ->
        exists events,
          sources_of (transcribe lower _hash_url data' now' (cache_of run) supadata')
            !! length before' = Some (Fetched events)).
Proof using Type.
  intros Hclean run.
  assert (Hrun : forall d n c s,
             let out := transcribe_urls lower _hash_url d n c s (urls d) in
             results_of (transcribe lower _hash_url d n c s) = map fst (fst (fst out)) /\
             sources_of (transcribe lower _hash_url d n c s) = map snd (fst (fst out)) /\
             cache_of (transcribe lower _hash_url d n c s) = snd (fst out)).
  { intros d n c s. unfold transcribe, results_of, sources_of, cache_of.
    destruct (transcribe_urls lower _hash_url d n c s (urls d)) as [[o c'] s'].
    cbn. auto. }
  destruct (Hrun data now cache supadata) as (Hres & Hsrc & Hcache). fold run in Hres, Hsrc, Hcache.
  destruct (transcribe_urls_clean data now cache supadata (urls data) Hclean) as [Hc Herrs].
  rewrite Hres, Hsrc, Hcache. split; [exact Hc|]. split.
  - intros i r src Hr Hs Herr.
    rewrite lookup_map in Hr. rewrite lookup_map in Hs.
    destruct (fst (fst (transcribe_urls lower _hash_url data now cache supadata (urls data)))
                !! i) as [[r' src']|] eqn:E; [|discriminate].
    cbn in Hr, Hs. injection Hr as ->. injection Hs as ->.
    rewrite Forall_lookup in Herrs. exact (Herrs i (r, src) E Herr).
  - intros before url after r Hurls Hafter Hr Herr.
    rewrite Hurls in Hr |- *. rewrite transcribe_urls_split in Hr |- *.
    cbn [fst snd] in Hr |- *.
    set (first := transcribe_urls lower _hash_url data now cache supadata before) in *.
    set (step := transcribe_url lower _hash_url data now (snd (fst first)) (snd first) url) in *.
    assert (Hfirst : cache_clean (snd (fst first))).
    { apply (transcribe_urls_clean data now cache supadata before Hclean). }
    rewrite lookup_map, lookup_app_r in Hr
      by (unfold first; rewrite transcribe_urls_length; lia).
    unfold first in Hr at 1. rewrite transcribe_urls_length, Nat.sub_diag in Hr.
    cbn in Hr. injection Hr as Hr.
    destruct (transcribe_url_error lower _hash_url data now (snd (fst first)) (snd first) url
                Hfirst) as [_ Hnone].
    { fold step. rewrite Hr. exact Herr. }
    fold step in Hnone.
    assert (Hgone : snd (fst (transcribe_urls lower _hash_url data now (snd (fst step))
                                (snd step) after)) !! _hash_url url = None).
    { rewrite transcribe_urls_other_key by exact Hafter. exact Hnone. }
    split; [exact Hgone|].
    intros data' now' supadata' before' after' Hurls' Hbefore'.
    destruct (Hrun data' now'
                (snd (fst (transcribe_urls lower _hash_url data now (snd (fst step))
                             (snd step) after))) supadata') as (_ & Hsrc' & _).
    rewrite Hsrc', Hurls', transcribe_urls_split. cbn [fst snd].
    set (first' := transcribe_urls lower _hash_url data' now' _ supadata' before').
    destruct (transcribe_url_absent lower _hash_url data' now' (snd (fst first')) (snd first') url)
      as [events Hev].
    { unfold first'. rewrite transcribe_urls_other_key by exact Hbefore'. exact Hgone. }
    exists events.
    rewrite lookup_map, lookup_app_r
      by (unfold first'; rewrite transcribe_urls_length; lia).
    unfold first' at 1. rewrite transcribe_urls_length, Nat.sub_diag.
    cbn. rewrite Hev. reflexivity.
Qed.
End Requests.

(** ** The retry loop: budget, sleeping time and outcomes *)

Section RetryLoopMore.
Variable supadata : nat -> reply.
Variables (url : str) (info : platform_info) (max_retries : Z).

Lemma attempt_once_events attempt :
  exists seconds,
    (0 <= seconds <= 5 * 2 ^ Z.of_nat attempt)%Z /\
    (fst (attempt_once supadata url info max_retries attempt) = [Call attempt] \/
     fst (attempt_once supadata url info max_retries attempt) = [Call attempt; Sleep seconds]).
Proof using Type.
  assert (Hp : (0 < 2 ^ Z.of_nat attempt)%Z) by (apply Z.pow_pos_nonneg; lia).
  unfold attempt_once.
  destruct (supadata attempt) as [l c | j | error_msg | msg]; cbn [fst].
  - exists 0%Z. split; [lia|]. left; reflexivity.
  - exists 0%Z. split; [lia|]. left; reflexivity.
  - destruct (contains (lit "status 429") error_msg); cbn [fst].
    + eexists. split; [|right; reflexivity]. lia.
    + destruct (contains (lit "status 400") error_msg || contains (lit "status 500") error_msg);
        cbn [fst].
      * eexists. split; [|right; reflexivity]. lia.
      * exists 0%Z. split; [lia|]. left; reflexivity.
  - destruct (Z.of_nat attempt =? max_retries - 1)%Z; cbn [fst].
    + exists 0%Z. split; [lia|]. left; reflexivity.
    + eexists. split; [|right; reflexivity]. lia.
Qed.

Lemma retry_loop_calls k start :
  let events := fst (retry_loop supadata url info max_retries (seq start k)) in
  exists j, (j <= k)%nat /\
    List.filter is_call events = map Call (seq start j) /\
    (total_sleep events <= 5 * (2 ^ Z.of_nat (start + k) - 2 ^ Z.of_nat start))%Z /\
    (0 <= total_sleep events)%Z.
Proof using Type.
  revert start. induction k as [|k IH]; intros start; cbn zeta.
  - exists 0%nat. cbn. rewrite Nat.add_0_r. repeat split; lia.
  - cbn [seq retry_loop].
    destruct (attempt_once_events start) as (seconds & Hs & Hev).
    destruct (IH (S start)) as (j & Hj & Hcalls & Hsleep & Hpos). cbn zeta in *.
    assert (Hp : (0 < 2 ^ Z.of_nat start)%Z) by (apply Z.pow_pos_nonneg; lia).
    assert (Hstep : (2 ^ Z.of_nat (S start) = 2 * 2 ^ Z.of_nat start)%Z).
    { rewrite Nat2Z.inj_succ, Z.pow_succ_r by lia. reflexivity. }
    assert (Hmono : (2 ^ Z.of_nat (S start) <= 2 ^ Z.of_nat (start + S k))%Z).
    { apply Z.pow_le_mono_r; lia. }
    replace (S start + k)%nat with (start + S k)%nat in Hsleep by lia.
    destruct (attempt_once supadata url info max_retries start) as [events [r|]];
      cbn [fst] in *.
    + exists 1%nat. split; [lia|].
      destruct Hev as [-> | ->]; cbn; repeat split; lia.
    + destruct (retry_loop supadata url info max_retries (seq (S start) k)) as [events' r'].
      cbn [fst] in *. exists (S j). split; [lia|].
      destruct Hev as [-> | ->]; cbn [app List.filter is_call seq map total_sleep fold_right sleep_seconds];
        fold (total_sleep events'); rewrite Hcalls; repeat split; lia.
Qed.
End RetryLoopMore.

Lemma transcribe_with_retry_events lower supadata url lang text mode max_retries :
  let info := _detect_platform lower url in
  let budget := retry_budget info max_retries in
  let events := fst (_transcribe_with_retry lower supadata url lang text mode max_retries) in
  events = [] \/
  events = fst (retry_loop supadata url info budget (seq 0 (Z.to_nat budget))).
Proof.
  cbn zeta. unfold _transcribe_with_retry.
  destruct (supported (_detect_platform lower url)); cbn [negb]; [|left; reflexivity].
  right.
  destruct (retry_loop supadata url (_detect_platform lower url)
              (retry_budget (_detect_platform lower url) max_retries)
              (seq 0 (Z.to_nat (retry_budget (_detect_platform lower url) max_retries))))
    as [events [r|]]; reflexivity.
Qed.

(** The provider is called at most as often as the retry budget allows,
    and the calls are the attempts 0, 1, 2, ... in this order. *)
Theorem retry_calls_within_budget lower supadata url lang text mode max_retries :
  let info := _detect_platform lower url in
  let budget := retry_budget info max_retries in
  let events := fst (_transcribe_with_retry lower supadata url lang text mode max_retries) in
  (calls events <= Z.to_nat budget)%nat /\
  List.filter is_call events = map Call (seq 0 (calls events)).
Proof.
  intros info budget events.
  destruct (transcribe_with_retry_events lower supadata url lang text mode max_retries)
    as [H | H]; fold info budget events in H.
  - rewrite H. split; [cbn; lia | reflexivity].
  - destruct (retry_loop_calls supadata url info budget (Z.to_nat budget) 0)
      as (j & Hj & Hcalls & _). cbn zeta in Hcalls. rewrite <- H in Hcalls.
    unfold calls. rewrite Hcalls, length_map, length_seq. split; [exact Hj | reflexivity].
Qed.

(** Whatever the provider does, the fetcher sleeps for no more than
    [5 * (2 ^ budget - 1)] seconds in all. *)
Theorem retry_sleep_is_bounded lower supadata url lang text mode max_retries :
  let info := _detect_platform lower url in
  let budget := retry_budget info max_retries in
  let events := fst (_transcribe_with_retry lower supadata url lang text mode max_retries) in
  (0 <= total_sleep events <= 5 * (2 ^ Z.max budget 0 - 1))%Z.
Proof.
  intros info budget events.
  assert (Hp : (0 < 2 ^ Z.max budget 0)%Z) by (apply Z.pow_pos_nonneg; lia).
  destruct (transcribe_with_retry_events lower supadata url lang text mode max_retries)
    as [H | H]; fold info budget events in H.
  - rewrite H. cbn. lia.
  - destruct (retry_loop_calls supadata url info budget (Z.to_nat budget) 0)
      as (j & _ & _ & Hsleep & Hpos). cbn zeta in Hsleep, Hpos. rewrite <- H in Hsleep, Hpos.
    cbn [Nat.add] in Hsleep. rewrite ZifyInst.of_nat_to_nat_eq in Hsleep.
    cbn [Z.of_nat] in Hsleep. rewrite Z.pow_0_r in Hsleep.
    rewrite (Z.max_comm budget). split; [exact Hpos | exact Hsleep].
Qed.

Section RetryLoopTransient.
Variable supadata : nat -> reply.
Variables (url : str) (info : platform_info) (max_retries : Z).

(** A retryable failure before the last attempt of the budget is followed
    by the next attempt. *)
Lemma attempt_once_retryable attempt :
  retryable (supadata attempt) = true ->
  Z.of_nat attempt <> (max_retries - 1)%Z ->
  exists seconds,
    attempt_once supadata url info max_retries attempt
      = ([Call attempt; Sleep seconds], None).
Proof using Type.
  intros Hr Hlast. unfold attempt_once.
  destruct (Z.eqb_spec (Z.of_nat attempt) (max_retries - 1)); [contradiction|].
  destruct (supadata attempt) as [l c | j | error_msg | msg]; cbn [retryable] in Hr;
    try discriminate.
  - destruct (contains (lit "status 429") error_msg); [eauto|].
    cbn [orb] in Hr. rewrite Hr. eauto.
  - eauto.
Qed.

Lemma retry_loop_retryable k start rest :
  (forall attempt, (start <= attempt < start + k)%nat -> retryable (supadata attempt) = true) ->
  (Z.of_nat (start + k) < max_retries)%Z ->
  exists events,
    calls events = k /\
    retry_loop supadata url info max_retries (seq start k ++ rest)
      = (events ++ fst (retry_loop supadata url info max_retries rest),
         snd (retry_loop supadata url info max_retries rest)).
Proof using Type.
  revert start. induction k as [|k IH]; intros start Hall Hlt.
  - exists []. split; [reflexivity|]. cbn [seq app].
    destruct (retry_loop supadata url info max_retries rest). reflexivity.
  - destruct (attempt_once_retryable start) as [seconds Hs]; [apply Hall; lia | lia |].
    destruct (IH (S start)) as (events & Hc & Hloop);
      [intros a Ha; apply Hall; lia | lia |].
    exists ([Call start; Sleep seconds] ++ events). split.
    + unfold calls in *. cbn. rewrite Hc. reflexivity.
    + cbn [seq app retry_loop]. rewrite Hs, Hloop. reflexivity.
Qed.
End RetryLoopTransient.

Lemma calls_app a b : calls (a ++ b) = (calls a + calls b)%nat.
Proof. unfold calls. rewrite List.filter_app, length_app. reflexivity. Qed.

(** When the provider answers with a transcript after [n] retryable
    failures, and [n] is below the budget, the result is that transcript,
    after [n + 1] calls. *)
Theorem retry_recovers lower supadata url lang text mode max_retries
    (n : nat) language content :
  supported (_detect_platform lower url) = true ->
  (Z.of_nat n < retry_budget (_detect_platform lower url) max_retries)%Z ->
  (forall attempt, (attempt < n)%nat -> retryable (supadata attempt) = true) ->
  supadata n = Content language content ->
  let run := _transcribe_with_retry lower supadata url lang text mode max_retries in
  snd run = Success url (platform (_detect_platform lower url)) language content /\
  calls (fst run) = S n.
Proof.
  intros Hs Hn Hall Hreply run. unfold run.
  rewrite (transcribe_with_retry_supported lower supadata url lang text mode max_retries Hs).
  set (info := _detect_platform lower url) in *.
  set (budget := retry_budget info max_retries) in *.
  replace (Z.to_nat budget) with (n + S (Z.to_nat budget - S n))%nat by lia.
  rewrite seq_app. cbn [Nat.add seq].
  destruct (retry_loop_retryable supadata url info budget n 0
              (n :: seq (S n) (Z.to_nat budget - S n))) as (events & Hc & Hloop);
    [intros a Ha; apply Hall; lia | lia |].
  assert (Hhead : retry_loop supadata url info budget (n :: seq (S n) (Z.to_nat budget - S n))
                  = ([Call n], Some (Success url (platform info) language content))).
  { cbn [retry_loop]. unfold attempt_once. rewrite Hreply. reflexivity. }
  rewrite Hloop, Hhead. cbn [fst snd from_option id]. split; [reflexivity|].
  rewrite calls_app, Hc. cbn. lia.
Qed.

(** A [SupadataError] that names none of the statuses 429, 400 and 500
    ends the loop at once: the result is the error [TRANSCRIPTION_ERROR]
    with the provider's message, and nothing sleeps after the call. *)
Theorem non_retryable_error_is_final lower supadata url lang text mode max_retries
    (n : nat) error_msg :
  supported (_detect_platform lower url) = true ->
  (Z.of_nat n < retry_budget (_detect_platform lower url) max_retries)%Z ->
  (forall attempt, (attempt < n)%nat -> retryable (supadata attempt) = true) ->
  supadata n = RaisesSupadataError error_msg ->
  retryable (supadata n) = false ->
  let info := _detect_platform lower url in
  let run := _transcribe_with_retry lower supadata url lang text mode max_retries in
  (exists e,
     snd run = Error url (platform info) e /\
     code e = TRANSCRIPTION_ERROR /\
     message e = lit "Failed to transcribe " ++ platform info ++ lit " video: " ++ error_msg /\
     details e = error_msg) /\
  calls (fst run) = S n /\
  exists before, fst run = before ++ [Call n].
Proof.
  intros Hs Hn Hall Hreply Hfinal info run. unfold run.
  rewrite (transcribe_with_retry_supported lower supadata url lang text mode max_retries Hs).
  fold info in Hn |- *. set (budget := retry_budget info max_retries) in *.
  replace (Z.to_nat budget) with (n + S (Z.to_nat budget - S n))%nat by lia.
  rewrite seq_app. cbn [Nat.add seq].
  destruct (retry_loop_retryable supadata url info budget n 0
              (n :: seq (S n) (Z.to_nat budget - S n))) as (events & Hc & Hloop);
    [intros a Ha; apply Hall; lia | lia |].
  rewrite Hreply in Hfinal. cbn [retryable] in Hfinal.
  apply orb_false_elim in Hfinal as [Hf1 Hf2]. apply orb_false_elim in Hf1 as [Hf0 Hf1].
  assert (Hhead : retry_loop supadata url info budget (n :: seq (S n) (Z.to_nat budget - S n))
                  = ([Call n],
                     Some (failed url info TRANSCRIPTION_ERROR
                             (lit "Failed to transcribe " ++ platform info ++ lit " video: "
                              ++ error_msg) error_msg))).
  { cbn [retry_loop]. unfold attempt_once. rewrite Hreply, Hf0, Hf1, Hf2. reflexivity. }
  rewrite Hloop, Hhead. cbn [fst snd from_option id]. split; [|split].
  - eexists. split; [reflexivity|]. repeat split.
  - rewrite calls_app, Hc. cbn. lia.
  - exists events. reflexivity.
Qed.

(** The error that follows the loop, [UNKNOWN_ERROR], is the result
    exactly when the platform is supported and the budget is zero or
    less; the provider is not called then. *)
Theorem unknown_error_without_budget lower supadata url lang text mode max_retries :
  let info := _detect_platform lower url in
  let budget := retry_budget info max_retries in
  let run := _transcribe_with_retry lower supadata url lang text mode max_retries in
  (is_unknown_error (snd run) = true <-> supported info = true /\ (budget <= 0)%Z) /\
  (supported info = true -> (budget <= 0)%Z -> run = ([], unknown_error url info)).
Proof.
  intros info budget run.
  assert (Hzero : supported info = true -> (budget <= 0)%Z -> run = ([], unknown_error url info)).
  { intros Hs Hb. unfold run.
    rewrite (transcribe_with_retry_supported lower supadata url lang text mode max_retries Hs).
    fold info budget. replace (Z.to_nat budget) with 0%nat by lia. reflexivity. }
  split; [|exact Hzero]. split.
  - intros Hu. destruct (supported info) eqn:Hs.
    + split; [reflexivity|]. destruct (Z_le_gt_dec budget 0) as [|Hb]; [assumption|exfalso].
      destruct (retry_loop_returns supadata url info budget (Z.to_nat budget) 0)
        as [r [Hr Hn]]; [lia | lia |].
      unfold run in Hu.
      rewrite (transcribe_with_retry_supported lower supadata url lang text mode max_retries Hs)
        in Hu.
      fold info budget in Hu. cbn [snd] in Hu. rewrite Hr in Hu. cbn in Hu. congruence.
    + unfold run, _transcribe_with_retry in Hu. fold info in Hu. rewrite Hs in Hu.
      cbn in Hu. discriminate.
  - intros [Hs Hb]. rewrite (Hzero Hs Hb). reflexivity.
Qed.

Lemma retry_loop_continues supadata url info max_retries
    (ev : nat -> list fetch_event) k start rest :
  (forall attempt, (start <= attempt < start + k)%nat ->
     attempt_once supadata url info max_retries attempt = (ev attempt, None)) ->
  retry_loop supadata url info max_retries (seq start k ++ rest)
    = (flat_map ev (seq start k) ++ fst (retry_loop supadata url info max_retries rest),
       snd (retry_loop supadata url info max_retries rest)).
Proof.
  revert start. induction k as [|k IH]; intros start Hall.
  - cbn. destruct (retry_loop supadata url info max_retries rest). reflexivity.
  - cbn [seq app retry_loop flat_map]. rewrite Hall by lia. rewrite IH.
    + rewrite <- app_assoc. reflexivity.
    + intros a Ha. apply Hall. lia.
Qed.

(** When every attempt raises an exception other than a [SupadataError],
    the fetcher sleeps 1, 2, 4, ... seconds between the attempts, not
    after the last one, and answers with [UNEXPECTED_ERROR] and the text
    of the last exception. *)
Theorem unexpected_errors_use_the_budget lower supadata url lang text mode max_retries
    (msg : nat -> str) :
  let info := _detect_platform lower url in
  let budget := retry_budget info max_retries in
  supported info = true ->
  (1 <= budget)%Z ->
  (forall attempt, (Z.of_nat attempt < budget)%Z ->
     supadata attempt = RaisesException (msg attempt)) ->
  let last := (Z.to_nat budget - 1)%nat in
  exists e,
    _transcribe_with_retry lower supadata url lang text mode max_retries
      = (exception_events last ++ [Call last], Error url (platform info) e) /\
    code e = UNEXPECTED_ERROR /\
    details e = msg last /\
    message e = lit "Unexpected error transcribing " ++ platform info ++ lit " video: " ++ msg last.
Proof.
  intros info budget Hs Hb Hall last.
  rewrite (transcribe_with_retry_supported lower supadata url lang text mode max_retries Hs).
  fold info budget.
  replace (Z.to_nat budget) with (last + 1)%nat by (unfold last; lia).
  rewrite seq_app. cbn [Nat.add seq].
  rewrite (retry_loop_continues supadata url info budget
             (fun attempt => [Call attempt; Sleep (2 ^ Z.of_nat attempt)])).
  - assert (Hhead : retry_loop supadata url info budget [last]
                    = ([Call last],
                       Some (failed url info UNEXPECTED_ERROR
                               (lit "Unexpected error transcribing " ++ platform info
                                ++ lit " video: " ++ msg last) (msg last)))).
    { cbn [retry_loop]. unfold attempt_once. rewrite (Hall last) by (unfold last; lia).
      destruct (Z.eqb_spec (Z.of_nat last) (budget - 1)); [|unfold last in *; lia].
      reflexivity. }
    rewrite Hhead. cbn [fst snd from_option id]. eexists. split; [reflexivity|]. repeat split.
  - intros a Ha. unfold attempt_once. rewrite (Hall a) by (unfold last in *; lia).
    destruct (Z.eqb_spec (Z.of_nat a) (budget - 1)); [unfold last in *; lia|]. reflexivity.
Qed.

(** When every attempt fails with a server error (status 400 or 500),
    attempt [k+1] is followed by a sleep of [2 * 2^k] seconds, also the
    last one, and the answer is [TRANSCRIPTION_FAILED] with the last
    message. *)
Theorem server_errors_use_the_budget lower supadata url lang text mode max_retries :
  let info := _detect_platform lower url in
  let budget := retry_budget info max_retries in
  supported info = true ->
  (1 <= budget)%Z ->
  (forall attempt, (Z.of_nat attempt < budget)%Z -> server_error (supadata attempt)) ->
  exists e error_msg,
    _transcribe_with_retry lower supadata url lang text mode max_retries
      = (server_error_events (Z.to_nat budget), Error url (platform info) e) /\
    supadata (Z.to_nat budget - 1)%nat = RaisesSupadataError error_msg /\
    code e = TRANSCRIPTION_FAILED /\
    details e = error_msg /\
    message e = lit "Failed to transcribe " ++ platform info ++ lit " video after "
                ++ str_of_Z budget ++ lit " attempts: " ++ error_msg.
Proof.
  intros info budget Hs Hb Hall.
  rewrite (transcribe_with_retry_supported lower supadata url lang text mode max_retries Hs).
  fold info budget.
  set (last := (Z.to_nat budget - 1)%nat).
  destruct (Hall last) as (error_msg & Hreply & H429 & Hserver); [unfold last; lia|].
  exists (Build_error_info TRANSCRIPTION_FAILED
            (lit "Failed to transcribe " ++ platform info ++ lit " video after "
             ++ str_of_Z budget ++ lit " attempts: " ++ error_msg)
            error_msg (Some (recommendation info))), error_msg.
  split; [|repeat split; exact Hreply].
  replace (Z.to_nat budget) with (last + 1)%nat by (unfold last; lia).
  rewrite seq_app. cbn [Nat.add seq].
  rewrite (retry_loop_continues supadata url info budget
             (fun attempt => [Call attempt; Sleep (2 ^ Z.of_nat attempt * 2)])).
  - assert (Hhead : retry_loop supadata url info budget [last]
                    = ([Call last; Sleep (2 ^ Z.of_nat last * 2)],
                       Some (failed url info TRANSCRIPTION_FAILED
                               (lit "Failed to transcribe " ++ platform info ++ lit " video after "
                                ++ str_of_Z budget ++ lit " attempts: " ++ error_msg) error_msg))).
    { cbn [retry_loop]. unfold attempt_once. rewrite Hreply, H429, Hserver.
      destruct (Z.eqb_spec (Z.of_nat last) (budget - 1)); [|unfold last in *; lia].
      reflexivity. }
    rewrite Hhead. cbn [fst snd from_option id]. unfold server_error_events.
    rewrite seq_app, flat_map_app. reflexivity.
  - intros a Ha. destruct (Hall a) as (m & Hr & H4 & H5); [unfold last in *; lia|].
    unfold attempt_once. rewrite Hr, H4, H5.
    destruct (Z.eqb_spec (Z.of_nat a) (budget - 1)); [unfold last in *; lia|]. reflexivity.
Qed.

(** ** The endpoint: counts, cache hits and expiry *)

Section Endpoint.
Variable lower : str -> str.
Variable _hash_url : str -> str.

Lemma transcribe_parts data now cache supadata :
  let out := transcribe_urls lower _hash_url data now cache supadata (urls data) in
  let run := transcribe lower _hash_url data now cache supadata in
  results_of run = map fst (fst (fst out)) /\
  sources_of run = map snd (fst (fst out)) /\
  cache_of run = snd (fst out) /\
  snd (fst (fst (fst run)))
    = {| total := length (results_of run);
         successful := length (List.filter is_cacheable (results_of run));
         failed_count := length (results_of run)
                         - length (List.filter is_cacheable (results_of run)) |}.
Proof using Type.
  cbn zeta. unfold transcribe, results_of, sources_of, cache_of.
  destruct (transcribe_urls lower _hash_url data now cache supadata (urls data)) as [[o c'] s'].
  cbn. auto.
Qed.

(** The summary counts one result for each URL of the request, in two
    classes: [successful] are the results with status success or
    processing, [failed] the others, and the two add up to [total]. *)
Theorem summary_counts data now cache supadata :
  let run := transcribe lower _hash_url data now cache supadata in
  let counts := snd (fst (fst (fst run))) in
  length (results_of run) = length (urls data) /\
  length (sources_of run) = length (urls data) /\
  total counts = length (urls data) /\
  successful counts = length (List.filter is_cacheable (results_of run)) /\
  (successful counts + failed_count counts = total counts)%nat /\
  failed_count counts
    = length (List.filter (fun r => str_eqb (status r) (lit "error")) (results_of run)).
Proof using Type.
  intros run counts.
  destruct (transcribe_parts data now cache supadata) as (Hres & Hsrc & _ & Hsum).
  fold run in Hres, Hsrc, Hsum. fold counts in Hsum.
  assert (Hlen : length (results_of run) = length (urls data)).
  { rewrite Hres, length_map. apply transcribe_urls_length. }
  assert (Hsplit : forall l : list transcription,
             (length (List.filter is_cacheable l)
              + length (List.filter (fun r => str_eqb (status r) (lit "error")) l)
              = length l)%nat).
  { induction l as [|r l IH]; [reflexivity|].
    assert (Hr : is_cacheable r = negb (str_eqb (status r) (lit "error")))
      by (destruct r; vm_compute; reflexivity).
    cbn [List.filter]. rewrite Hr.
    destruct (str_eqb (status r) (lit "error")); cbn [negb length]; lia. }
  specialize (Hsplit (results_of run)).
  rewrite Hsum. cbn [total successful failed_count].
  split; [exact Hlen|]. split; [rewrite Hsrc, length_map; apply transcribe_urls_length|].
  repeat split; lia.
Qed.

(** After a URL was answered with a result that can be cached, the cache
    holds that result under the key of the URL, with the time of an
    earlier request that is still fresh or with the time of this one. *)
Lemma transcribe_url_entry data now cache supadata url :
  let step := transcribe_url lower _hash_url data now cache supadata url in
  is_cacheable (fst (fst (fst step))) = true ->
  exists entry,
    snd (fst step) !! _hash_url url = Some entry /\
    CacheEntry.result entry = fst (fst (fst step)) /\
    (((now - CacheEntry.timestamp entry <? CACHE_TTL)%float = true /\
       snd (fst (fst step)) = FromCache) \/
     (CacheEntry.timestamp entry = now /\
       exists events, snd (fst (fst step)) = Fetched events)).
Proof using Type.
  cbn zeta. unfold transcribe_url.
  destruct (cache !! _hash_url url) as [entry|] eqn:Hlook.
  - destruct (now - CacheEntry.timestamp entry <? CACHE_TTL)%float eqn:Hfresh.
    + cbn. intros _. exists entry. auto.
    + destruct (_transcribe_with_retry lower supadata url (lang data) (text data) (mode data) 3)
        as [events r].
      cbn. intros ->. eexists. split; [apply lookup_insert_eq|]. cbn. eauto.
  - destruct (_transcribe_with_retry lower supadata url (lang data) (text data) (mode data) 3)
      as [events r].
    cbn. intros ->. eexists. split; [apply lookup_insert_eq|]. cbn. eauto.
Qed.

Lemma transcribe_url_hit data now cache supadata url entry :
  cache !! _hash_url url = Some entry ->
  (now - CacheEntry.timestamp entry <? CACHE_TTL)%float = true ->
  transcribe_url lower _hash_url data now cache supadata url
    = (CacheEntry.result entry, FromCache, cache, supadata).
Proof using Type.
  intros Hlook Hfresh. unfold transcribe_url. rewrite Hlook, Hfresh. reflexivity.
Qed.

Lemma transcribe_url_expired data now cache supadata url entry :
  cache !! _hash_url url = Some entry ->
  (now - CacheEntry.timestamp entry <? CACHE_TTL)%float = false ->
  exists events,
    snd (fst (fst (transcribe_url lower _hash_url data now cache supadata url)))
      = Fetched events.
Proof using Type.
  intros Hlook Hfresh. unfold transcribe_url. rewrite Hlook, Hfresh.
  destruct (_transcribe_with_retry lower supadata url (lang data) (text data) (mode data) 3)
    as [events r].
  exists events. reflexivity.
Qed.

(** The result and the source of the URL at a position of the request. *)
Lemma transcribe_at data now cache supadata before url after :
  urls data = before ++ url :: after ->
  let run := transcribe lower _hash_url data now cache supadata in
  let first := transcribe_urls lower _hash_url data now cache supadata before in
  let step := transcribe_url lower _hash_url data now (snd (fst first)) (snd first) url in
  results_of run !! length before = Some (fst (fst (fst step))) /\
  sources_of run !! length before = Some (snd (fst (fst step))) /\
  cache_of run
    = snd (fst (transcribe_urls lower _hash_url data now (snd (fst step)) (snd step) after)).
Proof using Type.
  intros Hurls run first step.
  destruct (transcribe_parts data now cache supadata) as (Hres & Hsrc & Hcache & _).
  fold run in Hres, Hsrc, Hcache. rewrite Hres, Hsrc, Hcache, Hurls.
  rewrite transcribe_urls_split. cbn [fst snd]. fold first. fold step.
  rewrite !lookup_map.
  rewrite !lookup_app_r by (unfold first; rewrite transcribe_urls_length; lia).
  assert (Hlen : length (fst (fst first)) = length before)
    by (unfold first; apply transcribe_urls_length).
  rewrite Hlen, Nat.sub_diag. cbn. auto.
Qed.
End Endpoint.

Section CacheReuse.
Variable lower : str -> str.
Variable _hash_url : str -> str.

(** A URL that a request fetched with a result of status success or
    processing is answered from the cache by a request made less than
    [CACHE_TTL] seconds later, with the same result and without a call of
    the provider; a request made later than that fetches it again. *)
Theorem cached_result_is_reused_until_expiry
    data now cache supadata before url after r events :
  urls data = before ++ url :: after ->
  Forall (fun u => _hash_url u <> _hash_url url) after ->
  let run := transcribe lower _hash_url data now cache supadata in
  results_of run !! length before = Some r ->
  sources_of run !! length before = Some (Fetched events) ->
  is_cacheable r = true ->
  forall data' now' supadata',
    let step := transcribe_url lower _hash_url data' now' (cache_of run) supadata' url in
    ((now' - now <? CACHE_TTL)%float = true ->
       step = (r, FromCache, cache_of run, supadata')) /\
    ((now' - now <? CACHE_TTL)%float = false ->
       exists events', snd (fst (fst step)) = Fetched events').
Proof using Type.
  intros Hurls Hafter run Hr Hsrc Hok data' now' supadata' step.
  destruct (transcribe_at lower _hash_url data now cache supadata before url after Hurls)
    as (Hr' & Hsrc' & Hcache).
  fold run in Hr', Hsrc', Hcache.
  set (first := transcribe_urls lower _hash_url data now cache supadata before) in *.
  rewrite Hr in Hr'. injection Hr' as Hr'. rewrite Hsrc in Hsrc'. injection Hsrc' as Hsrc'.
  destruct (transcribe_url_entry lower _hash_url data now (snd (fst first)) (snd first) url)
    as (entry & Hlook & Hres & Htime).
  { rewrite <- Hr'. exact Hok. }
  destruct Htime as [[_ Hfrom] | [Hts _]]; [congruence|].
  assert (Hentry : cache_of run !! _hash_url url = Some entry).
  { rewrite Hcache, transcribe_urls_other_key by exact Hafter. exact Hlook. }
  split; intros Hfresh.
  - unfold step.
    rewrite (transcribe_url_hit lower _hash_url data' now' (cache_of run) supadata' url entry
               Hentry) by (rewrite Hts; exact Hfresh).
    rewrite Hres, <- Hr'. reflexivity.
  - apply (transcribe_url_expired lower _hash_url data' now' (cache_of run) supadata' url entry
             Hentry).
    rewrite Hts. exact Hfresh.
Qed.

(** Within one request a URL is fetched once at most while its result can
    be cached: a later URL with the same key gets the result of the
    earlier one from the cache. *)
Theorem repeated_url_is_fetched_once
    data now cache supadata before url mid url' after r :
  urls data = before ++ url :: mid ++ url' :: after ->
  _hash_url url' = _hash_url url ->
  Forall (fun u => _hash_url u <> _hash_url url) mid ->
  (now - now <? CACHE_TTL)%float = true ->
  let run := transcribe lower _hash_url data now cache supadata in
  results_of run !! length before = Some r ->
  is_cacheable r = true ->
  results_of run !! (length before + S (length mid))%nat = Some r /\
  sources_of run !! (length before + S (length mid))%nat = Some FromCache.
Proof using Type.
  intros Hurls Hkey Hmid Hnow run Hr Hok.
  destruct (transcribe_at lower _hash_url data now cache supadata before url
              (mid ++ url' :: after) Hurls) as (Hr' & _ & _).
  fold run in Hr'. rewrite Hr in Hr'. injection Hr' as Hr'.
  set (first := transcribe_urls lower _hash_url data now cache supadata before) in *.
  destruct (transcribe_url_entry lower _hash_url data now (snd (fst first)) (snd first) url)
    as (entry & Hlook & Hres & Htime).
  { rewrite <- Hr'. exact Hok. }
  assert (Hfresh : (now - CacheEntry.timestamp entry <? CACHE_TTL)%float = true).
  { destruct Htime as [[H _] | [-> _]]; assumption. }
  assert (Hurls' : urls data = (before ++ url :: mid) ++ url' :: after)
    by (rewrite Hurls, <- app_assoc; reflexivity).
  destruct (transcribe_at lower _hash_url data now cache supadata (before ++ url :: mid) url'
              after Hurls') as (Hr2 & Hs2 & _).
  fold run in Hr2, Hs2.
  rewrite length_app in Hr2, Hs2. cbn [length] in Hr2, Hs2.
  rewrite Hr2, Hs2.
  rewrite (transcribe_urls_split lower _hash_url data now cache supadata before url mid).
  cbn [fst snd]. fold first.
  set (step := transcribe_url lower _hash_url data now (snd (fst first)) (snd first) url) in *.
  set (rest := transcribe_urls lower _hash_url data now (snd (fst step)) (snd step) mid).
  assert (Hentry : snd (fst rest) !! _hash_url url' = Some entry).
  { unfold rest. rewrite Hkey, transcribe_urls_other_key by exact Hmid. exact Hlook. }
  rewrite (transcribe_url_hit lower _hash_url data now (snd (fst rest)) (snd rest) url' entry
             Hentry Hfresh).
  cbn [fst snd]. rewrite Hres, <- Hr'. split; reflexivity.
Qed.
End CacheReuse.

(** ** The repair of braces and brackets *)

Lemma count_app c a b : count c (a ++ b) = (count c a + count c b)%nat.
Proof. unfold count, str. rewrite filter_app, length_app. reflexivity. Qed.

Lemma count_repeat_same c n : count c (repeat c n) = n.
Proof.
  unfold count, str. induction n as [|n IH]; [reflexivity|].
  cbn [repeat]. rewrite filter_cons_True by reflexivity. cbn [length]. rewrite IH. reflexivity.
Qed.

Lemma count_repeat_other c d n : d <> c -> count c (repeat d n) = 0%nat.
Proof.
  intros Hne. unfold count, str. induction n as [|n IH]; [reflexivity|].
  cbn [repeat]. rewrite filter_cons_False by exact Hne. exact IH.
Qed.

(** The text after the two counting steps of [_fix_common_json_issues]. *)
Lemma fix_common_json_issues_closers response :
  let r1 := snd (_fix_unterminated_strings response) in
  let braces := (count (ch "{") r1 - count (ch "}") r1)%nat in
  let brackets := (count (ch "[") r1 - count (ch "]") r1)%nat in
  snd (_fix_common_json_issues response)
    = r1 ++ repeat (ch "}") braces ++ repeat (ch "]") brackets.
Proof.
  cbn zeta. unfold _fix_common_json_issues.
  destruct (_fix_unterminated_strings response) as [log1 r1]. cbn [snd].
  set (ob := count (ch "{") r1). set (cb := count (ch "}") r1).
  destruct (Nat.ltb_spec cb ob) as [Hb | Hb].
  - rewrite !count_app, !count_repeat_other by (vm_compute; discriminate).
    rewrite !Nat.add_0_r.
    set (ok := count (ch "[") r1). set (ck := count (ch "]") r1).
    destruct (Nat.ltb_spec ck ok) as [Hk | Hk]; cbn [snd].
    + rewrite <- app_assoc. reflexivity.
    + replace (ok - ck)%nat with 0%nat by lia. cbn [repeat]. rewrite app_nil_r. reflexivity.
  - replace (ob - cb)%nat with 0%nat by lia. cbn [repeat app].
    set (ok := count (ch "[") r1). set (ck := count (ch "]") r1).
    destruct (Nat.ltb_spec ck ok) as [Hk | Hk]; cbn [snd].
    + reflexivity.
    + replace (ok - ck)%nat with 0%nat by lia. rewrite app_nil_r. reflexivity.
Qed.

(** Whatever the reply, the repaired text has at least as many closing
    braces as opening ones, and at least as many closing brackets as
    opening ones, all characters of the text counted. *)
Theorem fix_common_json_issues_balances response :
  let fixed := snd (_fix_common_json_issues response) in
  (count (ch "{") fixed <= count (ch "}") fixed)%nat /\
  (count (ch "[") fixed <= count (ch "]") fixed)%nat.
Proof.
  intros fixed. unfold fixed. rewrite fix_common_json_issues_closers.
  rewrite !count_app, !count_repeat_same.
  rewrite !count_repeat_other by (vm_compute; discriminate). lia.
Qed.

(** What the engine returns for a reply that does not decode and holds
    the key of the script: what the repaired text decodes to, and the
    fallback if that does not decode either. *)
Lemma parse_ai_response_repaired ai_response e :
  let text := clean_response ai_response in
  json_loads text = Raise e ->
  contains KEY_TAILORED_SCRIPT text = true ->
  snd (parse_ai_response ai_response)
    = match json_loads (snd (_fix_common_json_issues text)) with
      | Ok parsed_result => Ok parsed_result
      | Raise _ => Ok FALLBACK
      end.
Proof.
  intros text Hraise Hkey.
  unfold parse_ai_response, parse_ai_response_with. fold text. rewrite Hraise, Hkey.
  destruct (_fix_common_json_issues text) as [log fixed]. cbn [snd].
  destruct (json_loads fixed); reflexivity.
Qed.

Lemma fix_common_json_issues_closed_strings text :
  in_string (scan text) = false ->
  snd (_fix_common_json_issues text)
    = text ++ repeat (ch "}") (count (ch "{") text - count (ch "}") text)
           ++ repeat (ch "]") (count (ch "[") text - count (ch "]") text).
Proof.
  intros Hscan. rewrite fix_common_json_issues_closers. unfold _fix_unterminated_strings.
  rewrite Hscan. reflexivity.
Qed.

(** For a reply whose text does not decode, holds the key of the script
    and has every string closed, the repair does one thing: it appends
    the missing closing braces, then the missing closing brackets.  What
    the engine returns is what this text decodes to, and the fallback if
    it does not decode. *)
Theorem repair_appends_missing_closers ai_response e :
  let text := clean_response ai_response in
  json_loads text = Raise e ->
  contains KEY_TAILORED_SCRIPT text = true ->
  in_string (scan text) = false ->
  let braces := (count (ch "{") text - count (ch "}") text)%nat in
  let brackets := (count (ch "[") text - count (ch "]") text)%nat in
  let closed := text ++ repeat (ch "}") braces ++ repeat (ch "]") brackets in
  snd (_fix_common_json_issues text) = closed /\
  snd (parse_ai_response ai_response)
    = match json_loads closed with
      | Ok parsed_result => Ok parsed_result
      | Raise _ => Ok FALLBACK
      end.
Proof.
  intros text Hraise Hkey Hscan braces brackets closed.
  pose proof (fix_common_json_issues_closed_strings text Hscan) as Hfixed.
  split; [exact Hfixed|].
  rewrite (parse_ai_response_repaired ai_response e Hraise Hkey). fold text.
  rewrite Hfixed. reflexivity.
Qed.

(** ** The scan for an unterminated string *)

Lemma count_cons c x s :
  count c (x :: s) = if x =? c then S (count c s) else count c s.
Proof.
  unfold count, str. destruct (N.eqb_spec x c) as [Heq | Hne].
  - rewrite filter_cons_True by exact Heq. reflexivity.
  - rewrite filter_cons_False by exact Hne. reflexivity.
Qed.

Lemma scan_from_parity s st i :
  Forall (fun c => c <> BACKSLASH) s ->
  escape_next st = false ->
  in_string (scan_from st i s) = xorb (in_string st) (Nat.odd (count QUOTE s)).
Proof.
  intros Hall. revert st i. induction Hall as [|c s Hc _ IH]; intros st i Hesc.
  - cbn. rewrite xorb_false_r. reflexivity.
  - cbn [scan_from]. rewrite count_cons.
    apply N.eqb_neq in Hc.
    unfold scan_step. rewrite Hesc, Hc.
    destruct (N.eqb_spec c QUOTE) as [Hq | Hq].
    + rewrite IH by reflexivity. cbn [in_string]. rewrite Nat.odd_succ, <- Nat.negb_odd.
      destruct (in_string st), (Nat.odd (count QUOTE s)); reflexivity.
    + destruct (negb (in_string st) && is_structural c).
      * rewrite IH by reflexivity. reflexivity.
      * rewrite IH by exact Hesc. reflexivity.
Qed.

(** In a reply without backslashes the scan ends inside a string exactly
    when the number of double quotes is odd. *)
Theorem scan_ends_in_string_when_quotes_are_odd response :
  Forall (fun c => c <> BACKSLASH) response ->
  in_string (scan response) = Nat.odd (count QUOTE response).
Proof.
  intros Hall. unfold scan. rewrite scan_from_parity by (exact Hall || reflexivity).
  reflexivity.
Qed.

(** ** Completing a cut structure *)

Lemma COMPLETION_holds_confidence :
  exists a b, COMPLETION = a ++ KEY_CONFIDENCE ++ b.
Proof.
  exists (firstn 3 COMPLETION), (skipn (3 + length KEY_CONFIDENCE) COMPLETION).
  vm_compute. reflexivity.
Qed.

(** Completing twice is completing once: the text that
    [_complete_json_structure] gives is left as it is by a second call. *)
Theorem complete_json_structure_idempotent response :
  _complete_json_structure (_complete_json_structure response)
    = _complete_json_structure response.
Proof.
  assert (Hcases :
    _complete_json_structure response = response \/
    (exists x, _complete_json_structure response = x ++ COMPLETION)).
  { unfold _complete_json_structure.
    destruct (json_loads response); [left; reflexivity|].
    destruct (contains KEY_TAILORED_SCRIPT response && negb (contains KEY_CONFIDENCE response));
      [right | left; reflexivity].
    exists (rstrip_char (ch ",") (rstrip response) ++ [ch ","]).
    rewrite <- app_assoc. reflexivity. }
  destruct Hcases as [H | [x Hx]]; [rewrite H; exact H|].
  rewrite Hx.
  assert (Hconf : contains KEY_CONFIDENCE (x ++ COMPLETION) = true).
  { apply contains_infix. destruct COMPLETION_holds_confidence as (a & b & Hab).
    exists (x ++ a), b. rewrite Hab, <- !app_assoc. reflexivity. }
  unfold _complete_json_structure. rewrite Hconf, andb_false_r.
  destruct (json_loads (x ++ COMPLETION)); reflexivity.
Qed.

(** ** Metadata and assembly at the edges *)

Lemma split_go_spaces s : spaces s -> split_go [] s = [].
Proof.
  induction 1 as [|c s Hc _ IH]; [reflexivity|].
  cbn [split_go]. rewrite Hc. exact IH.
Qed.

(** A script that is empty or holds white space only has no words, and its
    read time is rendered as [0s]. *)
Theorem blank_script_metadata tailored_script original_transcript processing_time :
  spaces tailored_script ->
  let metadata := calculate_metadata tailored_script original_transcript processing_time in
  Metadata.wordCount metadata = 0%Z /\
  Metadata.estimatedReadTime metadata = lit "0s".
Proof.
  intros Hs metadata. unfold metadata, calculate_metadata, split.
  rewrite (split_go_spaces tailored_script Hs). cbn [Metadata.wordCount Metadata.estimatedReadTime].
  split; reflexivity.
Qed.

(** When the engine answers a reply with the fallback structure, the
    response is assembled from it like from any reply: its script is the
    fallback's message, with confidence 0.1, nine words and a read time of
    three seconds, and every field the response model declares is there. *)
Theorem fallback_reaches_the_client request ai_response processing_time :
  snd (parse_ai_response ai_response) = Ok FALLBACK ->
  let data := generate_tailored_script request (ApiContent ai_response) processing_time in
  tailoredScript data = JStr (lit "Error: Could not parse AI response. Please try again.") /\
  confidence data = JFloat 0.1 /\
  wordCount data = 9%Z /\
  estimatedReadTime data = lit "3s" /\
  sectionBreakdown data = JArr [] /\
  is_fully_populated data = true.
Proof.
  intros Hparse data. unfold data, generate_tailored_script.
  cbn [call_openai_api mbind result_bind]. rewrite Hparse.
  repeat split; vm_compute; reflexivity.
Qed.

(** A decoded object whose tailored script is not a string makes the
    metadata step fail, and the response is the error response naming the
    missing [split] method. *)
Theorem non_text_script_yields_error_response
    request ai_response processing_time members script :
  snd (parse_ai_response ai_response) = Ok (JObj members) ->
  dict_get (lit "tailoredScript") members = Some script ->
  is_text script = false ->
  let data := generate_tailored_script request (ApiContent ai_response) processing_time in
  data = error_response (no_attribute script "split") processing_time /\
  tailoredScript data
    = JStr (lit "Error generating script: '" ++ type_name script
            ++ lit "' object has no attribute 'split'") /\
  confidence data = JFloat 0 /\
  wordCount data = 0%Z.
Proof.
  intros Hparse Hget Htext data.
  assert (Hdata : data = error_response (no_attribute script "split") processing_time).
  { unfold data, generate_tailored_script.
    cbn [call_openai_api mbind result_bind]. rewrite Hparse.
    unfold assemble. cbn [get mbind result_bind]. rewrite Hget.
    destruct script; try discriminate; reflexivity. }
  rewrite Hdata. repeat split.
Qed.

(** ** The prompt and the parameters of the API call *)

Lemma contains_longer_needle p q r s :
  contains (p ++ q ++ r) s = true -> contains q s = true.
Proof.
  rewrite !contains_infix. intros (a & b & ->).
  exists (a ++ p), (r ++ b). rewrite <- !app_assoc. reflexivity.
Qed.

(** The response format is requested exactly for the models whose name
    holds [gpt-4]; the test for [gpt-4o] never decides.  The other four
    parameters are always there, the two prompts in their roles. *)
Theorem standard_params_response_format model system_prompt user_prompt :
  let params := _get_standard_params model system_prompt user_prompt in
  dict_get (lit "response_format") params
    = (if contains (lit "gpt-4") model
       then Some (JObj [(lit "type", JStr (lit "json_object"))]) else None) /\
  dict_get (lit "model") params = Some (JStr model) /\
  dict_get (lit "messages") params
    = Some (JArr [JObj [(lit "role", JStr (lit "system")); (lit "content", JStr system_prompt)];
                  JObj [(lit "role", JStr (lit "user")); (lit "content", JStr user_prompt)]]) /\
  dict_get (lit "temperature") params = Some (JFloat settings.TEMPERATURE) /\
  dict_get (lit "max_tokens") params = Some (JInt settings.MAX_TOKENS).
Proof.
  intros params. unfold params, _get_standard_params.
  assert (H4o : contains (lit "gpt-4o") model = true -> contains (lit "gpt-4") model = true).
  { apply (contains_longer_needle [] (lit "gpt-4") (lit "o")). }
  destruct (contains (lit "gpt-4") model).
  - rewrite orb_true_r. repeat split.
  - destruct (contains (lit "gpt-4o") model); [discriminate (H4o eq_refl)|].
    repeat split.
Qed.

(** The prompt does not keep the transcript and the product description
    apart: text moved from the head of the description to the tail of the
    transcript, with the line that separates them, gives the same prompt. *)
Theorem create_user_prompt_runs_fields_together transcript middle product :
  let separator := lit "

Product: " in
  create_user_prompt {| originalTranscript := transcript ++ separator ++ middle;
                        productDescription := product |}
  = create_user_prompt {| originalTranscript := transcript;
                          productDescription := middle ++ separator ++ product |}.
Proof.
  intros separator. unfold create_user_prompt, separator.
  cbn [originalTranscript productDescription]. rewrite <- !app_assoc. reflexivity.
Qed.

(** ** Platforms: the classifier and the table of the health check *)

(** A platform that [_detect_platform] reports is listed by the health
    check in the class that tells its support and reliability; the one
    exception is the platform [Unknown], which is in no class. *)
Theorem detected_platform_is_listed lower url :
  let info := _detect_platform lower url in
  let class := if supported info then reliability info ++ lit "_reliability"
               else lit "not_supported" in
  (platform info = lit "Unknown" /\ supported info = false /\
   reliability info = lit "unknown" /\
   Forall (fun entry => ~ In (platform info) (snd entry)) supported_platforms) \/
  (exists names, In (class, names) supported_platforms /\ In (platform info) names /\
   Forall (fun entry => In (platform info) (snd entry) -> fst entry = class)
          supported_platforms).
Proof.
  intros info class. unfold class, info, _detect_platform.
  repeat match goal with
         | |- context [if ?b then _ else _] =>
             match b with
             | context [contains] => destruct b
             end
         end; cbn [platform supported reliability].
  7: { left. repeat split. repeat constructor; vm_compute; intuition discriminate. }
  all: right; eexists; split;
    [vm_compute; auto 10 |
     split; [vm_compute; auto |
             repeat constructor; vm_compute; intuition discriminate]].
Qed.

(** The second test of the TikTok branch never decides: a URL is
    classified as TikTok exactly when its lower-case form holds
    [tiktok.com] and neither [youtube.com] nor [youtu.be]. *)
Theorem tiktok_is_detected_by_one_test lower url :
  platform (_detect_platform lower url) = lit "TikTok" <->
  contains (lit "youtube.com") (lower url) = false /\
  contains (lit "youtu.be") (lower url) = false /\
  contains (lit "tiktok.com") (lower url) = true.
Proof.
  assert (Hm : contains (lit "m.tiktok.com") (lower url) = true ->
               contains (lit "tiktok.com") (lower url) = true).
  { apply (contains_longer_needle (lit "m.") (lit "tiktok.com") []). }
  unfold _detect_platform.
  destruct (contains (lit "youtube.com") (lower url)); cbn [orb platform].
  { split; [intros H; vm_compute in H; discriminate | intros (H & _); discriminate]. }
  destruct (contains (lit "youtu.be") (lower url)); cbn [orb platform].
  { split; [intros H; vm_compute in H; discriminate | intros (_ & H & _); discriminate]. }
  destruct (contains (lit "tiktok.com") (lower url)); cbn [orb platform].
  { split; auto. }
  destruct (contains (lit "m.tiktok.com") (lower url)); [discriminate (Hm eq_refl)|].
  cbn [platform].
  split; [|intros (_ & _ & H); discriminate].
  repeat match goal with
         | |- context [if ?b then _ else _] => destruct b
         end; cbn [platform]; intros H; vm_compute in H; discriminate.
Qed.

(** ** The domain in the metadata of the scraping endpoint *)

Lemma length_split_on_go sep cur s :
  length (split_on_go sep cur s) = S (count sep s).
Proof.
  revert cur. induction s as [|c s IH]; intros cur; [reflexivity|].
  cbn [split_on_go]. rewrite count_cons.
  destruct (c =? sep); cbn [length]; rewrite IH; reflexivity.
Qed.

Lemma split_on_go_app sep cur a b :
  Forall (fun c => c <> sep) a ->
  split_on_go sep cur (a ++ sep :: b) = (rev cur ++ a) :: split_on sep b.
Proof.
  intros Hall. revert cur. induction Hall as [|c a Hc _ IH]; intros cur.
  - cbn [app split_on_go]. rewrite N.eqb_refl, app_nil_r. reflexivity.
  - cbn [app split_on_go]. apply N.eqb_neq in Hc. rewrite Hc, IH.
    cbn [rev]. rewrite <- app_assoc. reflexivity.
Qed.

Lemma split_on_go_last sep cur a :
  Forall (fun c => c <> sep) a -> split_on_go sep cur a = [rev cur ++ a].
Proof.
  intros Hall. revert cur. induction Hall as [|c a Hc _ IH]; intros cur.
  - cbn. rewrite app_nil_r. reflexivity.
  - cbn [split_on_go]. apply N.eqb_neq in Hc. rewrite Hc, IH.
    cbn [rev]. rewrite <- app_assoc. reflexivity.
Qed.

(** The subscript never fails: a URL that holds [://] has two slashes, so
    the split has a third part.  For a URL made of a scheme, [://], a host
    and a path that starts at the next slash, the part is the host. *)
Theorem metadata_domain_is_defined url :
  (exists domain, metadata_domain url = Some domain) /\
  (contains (lit "://") url = false -> metadata_domain url = Some (lit "unknown")) /\
  (forall scheme host path,
      url = scheme ++ lit "://" ++ host ++ path ->
      Forall (fun c => c <> ch "/") scheme ->
      Forall (fun c => c <> ch "/") host ->
      path = [] \/ (exists rest, path = ch "/" :: rest) ->
      metadata_domain url = Some host).
Proof.
  split; [|split].
  - unfold metadata_domain. destruct (contains (lit "://") url) eqn:Hc; [|eauto].
    apply contains_infix in Hc as (a & b & ->).
    apply lookup_lt_is_Some_2. unfold split_on. rewrite length_split_on_go.
    rewrite !count_app.
    assert (H2 : count (ch "/") (lit "://") = 2%nat) by (vm_compute; reflexivity).
    rewrite H2. lia.
  - intros Hc. unfold metadata_domain. rewrite Hc. reflexivity.
  - intros scheme host path -> Hs Hh Hp.
    assert (Hc : contains (lit "://") (scheme ++ lit "://" ++ host ++ path) = true)
      by (apply contains_infix; exists scheme, (host ++ path); reflexivity).
    unfold metadata_domain. rewrite Hc. unfold split_on.
    change (lit "://") with ([ch ":"] ++ ch "/" :: ch "/" :: []).
    rewrite <- !app_assoc, (app_assoc scheme [ch ":"]).
    cbn [app]. rewrite (split_on_go_app (ch "/") [] (scheme ++ [ch ":"])).
    + unfold split_on. cbn [split_on_go]. rewrite N.eqb_refl.
      cbn [lookup list_lookup].
      destruct Hp as [-> | [rest ->]].
      * rewrite app_nil_r, split_on_go_last by exact Hh. reflexivity.
      * rewrite split_on_go_app by exact Hh. reflexivity.
    + apply Forall_app. split; [exact Hs|]. repeat constructor. vm_compute. discriminate.
Qed.

(** ** Cleaning the extracted text *)

Lemma split_go_nonempty cur c s :
  isspace c = false -> split_go cur (c :: s) <> [].
Proof.
  intros Hc. cbn [split_go]. rewrite Hc. clear Hc. revert c cur.
  induction s as [|d s IH]; intros c cur.
  - cbn. discriminate.
  - cbn [split_go]. destruct (isspace d); [discriminate | apply IH].
Qed.

Lemma join_cons w ws : ws <> [] -> join (w :: ws) = w ++ 32 :: join ws.
Proof. destruct ws; [congruence | reflexivity]. Qed.

(** A text in normal form is the join of its words. *)
Lemma join_split_go cur s :
  spaced s = true -> ends_clean s -> (cur = [] -> starts_clean s) ->
  join (split_go cur s) = rev cur ++ s.
Proof.
  revert cur. induction s as [|c s IH]; intros cur Hsp Hend Hstart.
  - cbn. destruct cur; [reflexivity|]. cbn. rewrite app_nil_r. reflexivity.
  - cbn [spaced] in Hsp. apply andb_prop in Hsp as [Hc Hsp].
    assert (Hend' : ends_clean s) by (apply (ends_clean_suffix [c]); exact Hend).
    cbn [split_go]. destruct (isspace c) eqn:Hsc.
    + apply andb_prop in Hc as [Hc32 Hnext]. apply N.eqb_eq in Hc32. subst c.
      destruct cur as [|x cur].
      { specialize (Hstart eq_refl 32 eq_refl). congruence. }
      destruct s as [|d s].
      { specialize (Hend 32 eq_refl). congruence. }
      apply negb_true_iff in Hnext.
      rewrite join_cons by (apply split_go_nonempty; exact Hnext).
      rewrite IH; [reflexivity | exact Hsp | exact Hend' |].
      intros _ y Hy. cbn in Hy. congruence.
    + rewrite IH; [|exact Hsp | exact Hend' | discriminate].
      cbn [rev]. rewrite <- app_assoc. reflexivity.
Qed.

Lemma join_split s :
  spaced s = true -> starts_clean s -> ends_clean s -> join (split s) = s.
Proof. intros Hsp Hst Hend. apply (join_split_go [] s); auto. Qed.

(** The normal form goes over to the parts of a text. *)
Lemma spaced_suffix a s : spaced (a ++ s) = true -> spaced s = true.
Proof.
  induction a as [|c a IH]; [auto|]. cbn [app spaced]. intros H.
  apply andb_prop in H as [_ H]. exact (IH H).
Qed.

Lemma spaced_prefix s b : spaced (s ++ b) = true -> spaced s = true.
Proof.
  induction s as [|c s IH]; [reflexivity|]. cbn [app spaced]. intros H.
  apply andb_prop in H as [Hc H]. rewrite (IH H), andb_true_r.
  destruct (isspace c); [|reflexivity].
  apply andb_prop in Hc as [-> Hn]. destruct s; [reflexivity | exact Hn].
Qed.

Lemma spaced_infix p s : infix_of p s -> spaced s = true -> spaced p = true.
Proof.
  intros (a & b & ->) H. apply spaced_suffix in H. exact (spaced_prefix p b H).
Qed.

Lemma spaced_sub_whitespace_go in_run s :
  spaced (sub_whitespace_go in_run s) = true /\
  (in_run = true -> starts_clean (sub_whitespace_go in_run s)).
Proof.
  revert in_run. induction s as [|c s IH]; intros in_run.
  - split; [reflexivity | intros _ x Hx; discriminate].
  - cbn [sub_whitespace_go]. destruct (isspace c) eqn:Hc.
    + destruct (IH true) as [Hsp Hst]. destruct in_run.
      * split; [exact Hsp | intros _; exact (Hst eq_refl)].
      * split; [|discriminate]. cbn [spaced]. rewrite Hsp, andb_true_r.
        change (isspace 32) with true. cbn [N.eqb Pos.eqb andb].
        specialize (Hst eq_refl).
        destruct (sub_whitespace_go true s) as [|d r]; [reflexivity|].
        rewrite (Hst d eq_refl). reflexivity.
    + destruct (IH false) as [Hsp _]. split.
      * cbn [spaced]. rewrite Hc, Hsp. reflexivity.
      * intros _ x Hx. cbn in Hx. congruence.
Qed.

Lemma sub_whitespace_go_snoc in_run s c :
  isspace c = false ->
  sub_whitespace_go in_run (s ++ [c]) = sub_whitespace_go in_run s ++ [c].
Proof.
  intros Hc. revert in_run. induction s as [|d s IH]; intros in_run.
  - cbn. rewrite Hc. reflexivity.
  - cbn [app sub_whitespace_go]. destruct (isspace d).
    + destruct in_run; rewrite IH; reflexivity.
    + rewrite IH. reflexivity.
Qed.

Lemma ends_clean_snoc s c : ends_clean (s ++ [c]) <-> isspace c = false.
Proof.
  unfold ends_clean. rewrite last_snoc. split.
  - intros H. apply H. reflexivity.
  - intros H x Hx. congruence.
Qed.

Lemma ends_clean_sub_whitespace_go in_run s :
  ends_clean s -> ends_clean (sub_whitespace_go in_run s).
Proof.
  destruct s as [|c s _] using rev_ind.
  - intros _ x Hx. discriminate.
  - intros H. apply ends_clean_snoc in H.
    rewrite sub_whitespace_go_snoc by exact H. apply ends_clean_snoc. exact H.
Qed.

Lemma starts_clean_sub_whitespace s :
  starts_clean s -> starts_clean (sub_whitespace s).
Proof.
  destruct s as [|c s]; [auto|]. intros H. specialize (H c eq_refl).
  unfold sub_whitespace. cbn [sub_whitespace_go]. rewrite H.
  intros x Hx. cbn in Hx. congruence.
Qed.

Lemma lstrip_starts_clean s : starts_clean (lstrip s).
Proof.
  unfold starts_clean, lstrip. pose proof (drop_while_head isspace s) as H.
  destruct (drop_while isspace s); intros x Hx; cbn in Hx; congruence.
Qed.

Lemma starts_clean_prefix s b : starts_clean (s ++ b) -> starts_clean s.
Proof. destruct s as [|c s]; [intros _ x Hx; discriminate | auto]. Qed.

Lemma strip_starts_clean s : starts_clean (strip s).
Proof.
  unfold strip. destruct (rstrip_prefix (lstrip s)) as (b & Hb & _).
  apply (starts_clean_prefix _ b). rewrite <- Hb. apply lstrip_starts_clean.
Qed.

Lemma lstrip_clean s : starts_clean s -> lstrip s = s.
Proof.
  destruct s as [|c s]; [reflexivity|]. intros H. specialize (H c eq_refl).
  unfold lstrip. cbn. rewrite H. reflexivity.
Qed.

Lemma strip_clean s : starts_clean s -> ends_clean s -> strip s = s.
Proof.
  intros Hs He. unfold strip. rewrite (lstrip_clean s Hs). apply rstrip_clean. exact He.
Qed.

(** The words of a text do not change when white space is stripped or
    collapsed. *)
Lemma split_go_app_spaces cur a b : spaces b -> split_go cur (a ++ b) = split_go cur a.
Proof.
  intros Hb. revert cur. induction a as [|c a IH]; intros cur.
  - cbn [app]. destruct Hb as [|c b Hc Hb]; [reflexivity|].
    cbn [split_go]. rewrite Hc, (split_go_spaces b Hb).
    destruct cur; reflexivity.
  - cbn [app split_go]. rewrite !IH. reflexivity.
Qed.

Lemma split_strip s : split (strip s) = split s.
Proof.
  unfold split, strip.
  destruct (rstrip_prefix (lstrip s)) as (b & Hb & Hsb).
  destruct (lstrip_suffix s) as (a & Ha & Hsa).
  rewrite <- (split_go_app_spaces [] (rstrip (lstrip s)) b Hsb), <- Hb.
  rewrite Ha at 2. generalize (lstrip s) as t. clear -Hsa. intros t.
  induction Hsa as [|c a Hc _ IH]; [reflexivity|].
  cbn [app split_go]. rewrite Hc. exact IH.
Qed.

Lemma split_go_sub_whitespace_go in_run cur s :
  (in_run = true -> cur = []) ->
  split_go cur (sub_whitespace_go in_run s) = split_go cur s.
Proof.
  revert in_run cur. induction s as [|c s IH]; intros in_run cur Hrun; [reflexivity|].
  cbn [sub_whitespace_go]. destruct (isspace c) eqn:Hc.
  - destruct in_run.
    + rewrite (Hrun eq_refl). cbn [split_go]. rewrite Hc. apply IH. auto.
    + cbn [split_go]. rewrite Hc. change (isspace 32) with true. cbn match.
      rewrite IH by auto. reflexivity.
  - cbn [split_go]. rewrite Hc. apply IH. discriminate.
Qed.

Lemma split_sub_whitespace s : split (sub_whitespace s) = split s.
Proof. apply split_go_sub_whitespace_go. discriminate. Qed.

(** [re.sub(r'\s+', ' ', text.strip())] is [' '.join(text.split())]. *)
Lemma sub_whitespace_strip s : sub_whitespace (strip s) = join (split s).
Proof.
  rewrite <- (split_strip s), <- (split_sub_whitespace (strip s)).
  symmetry. apply join_split.
  - apply spaced_sub_whitespace_go.
  - apply starts_clean_sub_whitespace, strip_starts_clean.
  - apply ends_clean_sub_whitespace_go, strip_ends_clean.
Qed.

(** Each pattern removes an end of the text. *)
Lemma sub_leading_bullet_suffix s : exists a, s = a ++ sub_leading_bullet s.
Proof.
  unfold sub_leading_bullet.
  destruct (lstrip_suffix s) as (a & Ha & _).
  destruct (lstrip s) as [|c r]; [exists []; reflexivity|].
  destruct (is_bullet c); [|exists []; reflexivity].
  destruct (lstrip_suffix r) as (a' & Ha' & _).
  exists (a ++ c :: a'). rewrite Ha at 1. rewrite Ha' at 1.
  rewrite <- app_assoc. reflexivity.
Qed.

Lemma sub_trailing_bullet_prefix s : exists b, s = sub_trailing_bullet s ++ b.
Proof.
  induction s as [|c s [b IH]]; [exists []; reflexivity|].
  cbn [sub_trailing_bullet]. destruct (is_bullet_tail (c :: s)).
  - exists (c :: s). reflexivity.
  - exists b. cbn [app]. rewrite <- IH. reflexivity.
Qed.

Lemma sub_leading_number_suffix s : exists a, s = a ++ sub_leading_number s.
Proof.
  unfold sub_leading_number.
  destruct (lstrip_suffix s) as (a & Ha & _).
  destruct (lstrip s) as [|d t] eqn:Ht; [exists []; reflexivity|].
  destruct (isdecimal d); [|exists []; reflexivity].
  destruct (drop_while_suffix isdecimal (d :: t)) as (digits & Hd & _).
  destruct (drop_while isdecimal (d :: t)) as [|c r]; [exists []; reflexivity|].
  destruct (c =? ch "."); [|exists []; reflexivity].
  destruct (lstrip_suffix r) as (a' & Ha' & _).
  exists (a ++ digits ++ c :: a'). rewrite Ha at 1. rewrite Hd at 1. rewrite Ha' at 1.
  rewrite <- !app_assoc. reflexivity.
Qed.

Lemma infix_of_refl s : infix_of s s.
Proof. exists [], []. rewrite app_nil_r. reflexivity. Qed.

Lemma clean_text_infix text :
  infix_of (_clean_text text) (join (split text)).
Proof.
  destruct text as [|c text]; [exists [], []; reflexivity|].
  unfold _clean_text. rewrite sub_whitespace_strip.
  set (y := join (split (c :: text))).
  eapply infix_of_trans; [apply strip_infix|].
  eapply infix_of_trans; [apply infix_of_suffix, sub_leading_number_suffix|].
  eapply infix_of_trans;
    [apply infix_of_prefix, sub_trailing_bullet_prefix|].
  apply infix_of_suffix, sub_leading_bullet_suffix.
Qed.

Lemma spaced_join_split s : spaced (join (split s)) = true.
Proof. rewrite <- sub_whitespace_strip. apply spaced_sub_whitespace_go. Qed.

(** The cleaned text is in normal form: it is a part of the text with its
    white space collapsed, it neither starts nor ends with white space,
    and it is the join of its own words, [' '.join(cleaned.split())]. *)
Theorem clean_text_normal_form text :
  let cleaned := _clean_text text in
  infix_of cleaned (join (split text)) /\
  strip cleaned = cleaned /\
  join (split cleaned) = cleaned.
Proof.
  intros cleaned.
  assert (Hinfix : infix_of cleaned (join (split text))) by apply clean_text_infix.
  assert (Hstart : starts_clean cleaned /\ ends_clean cleaned).
  { unfold cleaned. destruct text as [|c text].
    - split; intros x Hx; discriminate.
    - split; [apply strip_starts_clean | apply strip_ends_clean]. }
  destruct Hstart as [Hs He].
  split; [exact Hinfix|]. split.
  - apply strip_clean; assumption.
  - apply join_split; [|assumption..].
    exact (spaced_infix _ _ Hinfix (spaced_join_split text)).
Qed.

Lemma is_bullet_tail_last s :
  is_bullet_tail s = true ->
  exists x, last s = Some x /\ (is_bullet x = true \/ isspace x = true).
Proof.
  unfold is_bullet_tail. destruct (lstrip_suffix s) as (a & Ha & _).
  destruct (lstrip s) as [|c r]; [discriminate|]. intros H.
  apply andb_prop in H as [Hc Hr].
  destruct (lstrip_suffix r) as (a' & Ha' & Hsp).
  destruct (lstrip r); [|discriminate]. rewrite app_nil_r in Ha'. subst a'.
  rewrite Ha. destruct r as [|x r _] using rev_ind.
  - exists c. change (a ++ [c]) with (a ++ [c]). rewrite last_snoc. auto.
  - exists x. rewrite app_comm_cons, app_assoc, last_snoc. split; [reflexivity|].
    right. apply Forall_app in Hsp as [_ Hx]. inversion Hx. assumption.
Qed.

Lemma sub_trailing_bullet_id s :
  (forall x, last s = Some x -> is_bullet x = false /\ isspace x = false) ->
  sub_trailing_bullet s = s.
Proof.
  induction s as [|c s IH]; intros Hlast; [reflexivity|].
  cbn [sub_trailing_bullet].
  destruct (is_bullet_tail (c :: s)) eqn:Ht.
  - apply is_bullet_tail_last in Ht as (x & Hx & Hor).
    destruct (Hlast x Hx) as [Hb Hs]. destruct Hor; congruence.
  - f_equal. apply IH. intros x Hx. apply Hlast.
    destruct s as [|d s]; [discriminate|]. exact Hx.
Qed.

(** A text whose first word starts with neither a bullet nor a digit and
    whose last word does not end with a bullet is cleaned to its words
    joined by single spaces, [' '.join(text.split())]. *)
Theorem clean_text_joins_the_words text :
  let joined := join (split text) in
  (forall c, head joined = Some c -> is_bullet c = false /\ isdecimal c = false) ->
  (forall c, last joined = Some c -> is_bullet c = false) ->
  _clean_text text = joined.
Proof.
  intros joined Hhead Hlast.
  destruct text as [|c0 text]; [reflexivity|].
  unfold _clean_text. rewrite sub_whitespace_strip. fold joined.
  assert (Hs : starts_clean joined).
  { unfold joined. rewrite <- sub_whitespace_strip.
    apply starts_clean_sub_whitespace, strip_starts_clean. }
  assert (He : ends_clean joined).
  { unfold joined. rewrite <- sub_whitespace_strip.
    apply ends_clean_sub_whitespace_go, strip_ends_clean. }
  assert (H1 : sub_leading_bullet joined = joined).
  { unfold sub_leading_bullet. rewrite (lstrip_clean joined Hs).
    destruct joined as [|c r]; [reflexivity|].
    destruct (Hhead c eq_refl) as [-> _]. reflexivity. }
  assert (H2 : sub_trailing_bullet joined = joined).
  { apply sub_trailing_bullet_id. intros x Hx. split; [apply Hlast | apply He]; exact Hx. }
  assert (H3 : sub_leading_number joined = joined).
  { unfold sub_leading_number. rewrite (lstrip_clean joined Hs).
    destruct joined as [|c r]; [reflexivity|].
    destruct (Hhead c eq_refl) as [_ ->]. reflexivity. }
  rewrite H1, H2, H3. apply strip_clean; assumption.
Qed.

(** ** Cleaning a text that starts with a bullet *)

Lemma join_split_go_snoc cur b r :
  cur <> [] ->
  join (split_go (cur ++ [b]) r) = b :: join (split_go cur r).
Proof.
  revert cur. induction r as [|c r IH]; intros cur Hcur.
  - cbn [split_go]. destruct cur as [|x cur]; [congruence|].
    destruct ((x :: cur) ++ [b]) eqn:E; [destruct cur; discriminate|]. rewrite <- E.
    cbn [join]. rewrite rev_app_distr. reflexivity.
  - cbn [split_go]. destruct (isspace c).
    + destruct cur as [|x cur]; [congruence|].
      destruct ((x :: cur) ++ [b]) eqn:E; [destruct cur; discriminate|]. rewrite <- E.
      rewrite rev_app_distr. cbn [rev app join].
      destruct (split_go [] r); reflexivity.
    + rewrite app_comm_cons. apply IH. discriminate.
Qed.

Lemma split_go_skip_spaces a s : spaces a -> split_go [] (a ++ s) = split_go [] s.
Proof.
  induction 1 as [|c a Hc _ IH]; [reflexivity|]. cbn [app split_go]. rewrite Hc. exact IH.
Qed.

(** The joined words of a text after a bullet. *)
Lemma join_split_after_bullet a b rest :
  spaces a -> isspace b = false ->
  join (split (a ++ b :: rest))
    = b :: match rest with
           | c :: _ =>
               if isspace c
               then match split rest with [] => [] | _ :: _ => 32 :: join (split rest) end
               else join (split rest)
           | [] => []
           end.
Proof.
  intros Ha Hb. unfold split. rewrite (split_go_skip_spaces a _ Ha).
  cbn [split_go]. rewrite Hb. destruct rest as [|c r]; [reflexivity|].
  cbn [split_go]. destruct (isspace c) eqn:Hc.
  - destruct (split_go [] r) eqn:E; reflexivity.
  - apply (join_split_go_snoc [c] b r). discriminate.
Qed.

Lemma starts_clean_join_split s : starts_clean (join (split s)).
Proof.
  rewrite <- sub_whitespace_strip. apply starts_clean_sub_whitespace, strip_starts_clean.
Qed.

Lemma ends_clean_join_split s : ends_clean (join (split s)).
Proof.
  rewrite <- sub_whitespace_strip. apply ends_clean_sub_whitespace_go, strip_ends_clean.
Qed.

Lemma is_bullet_not_space b : is_bullet b = true -> isspace b = false.
Proof.
  unfold is_bullet. intros H.
  apply orb_prop in H as [H | H]; [apply orb_prop in H as [H | H]|];
    apply N.eqb_eq in H; subst b; reflexivity.
Qed.

(** One bullet at the start of a text is removed, with the white space
    around it, and no more than one: if what follows does not start with
    a digit and does not end with a bullet, the cleaned text is what
    follows, its words joined by single spaces. *)
Theorem clean_text_removes_one_bullet a b rest :
  spaces a -> is_bullet b = true ->
  let joined := join (split rest) in
  (forall c, head joined = Some c -> isdecimal c = false) ->
  (forall c, last joined = Some c -> is_bullet c = false) ->
  _clean_text (a ++ b :: rest) = joined.
Proof.
  intros Ha Hb joined Hhead Hlast.
  pose proof (is_bullet_not_space b Hb) as Hsp.
  assert (Hs : starts_clean joined) by apply starts_clean_join_split.
  assert (He : ends_clean joined) by apply ends_clean_join_split.
  assert (Htext : _clean_text (a ++ b :: rest)
                  = strip (sub_leading_number (sub_trailing_bullet (sub_leading_bullet
                      (join (split (a ++ b :: rest))))))).
  { unfold _clean_text. destruct (a ++ b :: rest) eqn:E; [destruct a; discriminate|].
    rewrite sub_whitespace_strip. reflexivity. }
  rewrite Htext, (join_split_after_bullet a b rest Ha Hsp).
  assert (H1 : sub_leading_bullet
                 (b :: match rest with
                       | c :: _ =>
                           if isspace c
                           then match split rest with
                                | [] => []
                                | _ :: _ => 32 :: join (split rest)
                                end
                           else join (split rest)
                       | [] => []
                       end) = joined).
  { unfold sub_leading_bullet, lstrip at 1. cbn [drop_while]. rewrite Hsp, Hb.
    destruct rest as [|c r]; [reflexivity|].
    destruct (isspace c).
    - fold joined. unfold joined. destruct (split (c :: r)) eqn:E; [reflexivity|].
      rewrite <- E. unfold lstrip. cbn [drop_while]. change (isspace 32) with true. cbn match.
      apply (lstrip_clean _ (starts_clean_join_split (c :: r))).
    - apply (lstrip_clean _ Hs). }
  rewrite H1.
  assert (H2 : sub_trailing_bullet joined = joined).
  { apply sub_trailing_bullet_id. intros x Hx. split; [apply Hlast | apply He]; exact Hx. }
  assert (H3 : sub_leading_number joined = joined).
  { unfold sub_leading_number. rewrite (lstrip_clean joined Hs).
    destruct joined as [|c r]; [reflexivity|]. rewrite (Hhead c eq_refl). reflexivity. }
  rewrite H2, H3. apply strip_clean; assumption.
Qed.

(** ** Finding the description of a product *)

(** Script tags whose text is not JSON are passed over.  The first script
    that decodes to an object with a [description] gives the result,
    whatever kind of value it is; a script tag without a string ends the
    search with [None], also when a later script has a description. *)
Theorem structured_description_search before rest :
  Forall malformed_script before ->
  _extract_structured_data_description (before ++ rest)
    = _extract_structured_data_description rest /\
  _extract_structured_data_description (before ++ None :: rest) = JNull /\
  (forall text members v,
      json_loads text = Ok (JObj members) ->
      dict_get (lit "description") members = Some v ->
      _extract_structured_data_description (before ++ Some text :: rest) = v).
Proof.
  intros Hall.
  assert (Hskip : forall tail,
             _extract_structured_data_description (before ++ tail)
             = _extract_structured_data_description tail).
  { intros tail. induction Hall as [|script before (text & e & -> & Hraise) _ IH];
      [reflexivity|].
    cbn [app _extract_structured_data_description]. rewrite Hraise. exact IH. }
  split; [apply Hskip|]. split; [rewrite Hskip; reflexivity|].
  intros text members v Hloads Hget. rewrite Hskip.
  cbn [_extract_structured_data_description]. rewrite Hloads, Hget. reflexivity.
Qed.

(** The first selector that matches decides: its text, cleaned, is the
    description, also when nothing is left of it after cleaning; the
    structured data and the meta tag are not looked at. *)
Theorem selected_description_wins page c text :
  _extract_text_by_selectors page description_selectors = Some (c :: text) ->
  description (scrape_product true (Some page)) = _clean_text (c :: text).
Proof.
  intros Hsel. unfold scrape_product. cbn [negb]. rewrite Hsel. reflexivity.
Qed.

(** When the selectors find nothing and the structured data give a
    description that is not a text (a number, a list, an object), the
    cleaning fails and the answer is the error response, whatever the
    meta tag holds. *)
Theorem non_text_structured_description_fails page v :
  no_selected_description page ->
  _extract_structured_data_description (ld_json_scripts page) = v ->
  truthy v = true ->
  is_text v = false ->
  scrape_product true (Some page)
    = {| description := lit "Error occurred while scraping the product description: '"
                        ++ type_name v ++ lit "' object has no attribute 'strip'";
         title := Some (lit "Error: Failed to scrape product") |}.
Proof.
  intros Hsel Hld Ht Htext. unfold scrape_product. cbn [negb].
  assert (Hfirst :
    truthy (match _extract_text_by_selectors page description_selectors with
            | Some text => JStr text
            | None => JNull
            end) = false) by (destruct Hsel as [-> | ->]; reflexivity).
  cbv zeta. rewrite Hfirst. cbv iota. rewrite Hld, Ht. cbv iota. rewrite Ht.
  destruct v; try discriminate; cbn [clean_value mbind result_bind];
    f_equal; unfold no_attribute; cbn [str_of_exn type_name]; reflexivity.
Qed.

(** When neither the selectors nor the structured data give anything, the
    content of the meta tag is cleaned and used, and without such a
    content the description is the fixed text. *)
Theorem description_falls_back_to_meta page :
  no_selected_description page ->
  truthy (_extract_structured_data_description (ld_json_scripts page)) = false ->
  description (scrape_product true (Some page))
    = match meta_description page with
      | Some (Some (c :: content)) => _clean_text (c :: content)
      | _ => lit "Product description not available"
      end.
Proof.
  intros Hsel Hld. unfold scrape_product. cbn [negb].
  assert (Hfirst :
    truthy (match _extract_text_by_selectors page description_selectors with
            | Some text => JStr text
            | None => JNull
            end) = false) by (destruct Hsel as [-> | ->]; reflexivity).
  cbv zeta. rewrite Hfirst. cbv iota. rewrite Hld. cbv iota.
  destruct (meta_description page) as [[[|c content]|]|]; cbn [truthy];
    try (rewrite Hld); reflexivity.
Qed.

(** ** What the decoder leaves is an end of the text *)

Lemma drop_while_is_suffix f (s : str) : drop_while f s `suffix_of` s.
Proof. destruct (drop_while_suffix f s) as (a & Ha & _). exists a. exact Ha. Qed.

Lemma skip_ws_is_suffix s : skip_ws s `suffix_of` s.
Proof. apply drop_while_is_suffix. Qed.

Lemma suffix_of_skip_ws r s c t : r `suffix_of` s -> skip_ws r = c :: t -> t `suffix_of` s.
Proof.
  intros Hr Ht. etrans; [|exact Hr]. etrans; [|apply (skip_ws_is_suffix r)].
  rewrite Ht. apply suffix_cons_r. reflexivity.
Qed.

Lemma hex4_suffix s n r : hex4 s = Some (n, r) -> r `suffix_of` s.
Proof.
  destruct s as [|a [|b [|c [|d s]]]]; try discriminate. cbn [hex4].
  destruct (hex_value a), (hex_value b), (hex_value c), (hex_value d); try discriminate.
  cbn. intros H. injection H as _ <-. do 4 apply suffix_cons_r. reflexivity.
Qed.

Lemma scanstring_suffix fuel s body rest :
  scanstring fuel s = Some (body, rest) -> rest `suffix_of` s.
Proof.
  revert s body rest. induction fuel as [|fuel IH]; intros s body rest; [discriminate|].
  cbn [scanstring]. destruct s as [|c r]; [discriminate|].
  destruct (c =? QUOTE).
  { intros H. injection H as _ <-. apply suffix_cons_r. reflexivity. }
  destruct (c =? BACKSLASH).
  - destruct r as [|e r']; [discriminate|].
    destruct (e =? ch "u").
    + destruct (hex4 r') as [[hi r1]|] eqn:Hhex; [|discriminate].
      cbn [mbind option_bind].
      apply hex4_suffix in Hhex.
      match goal with
      | |- context [let '(_, _) := ?d in _] => remember d as d4 eqn:Hd
      end.
      assert (Hpair : snd d4 `suffix_of` r1).
      { subst d4. destruct ((55296 <=? hi) && (hi <=? 56319)); [|reflexivity].
        destruct r1 as [|b [|u r2]]; try reflexivity.
        destruct ((b =? BACKSLASH) && (u =? ch "u")); [|reflexivity].
        destruct (hex4 r2) as [[lo r3]|] eqn:Hlo; [|reflexivity].
        apply hex4_suffix in Hlo.
        destruct ((56320 <=? lo) && (lo <=? 57343)); [|reflexivity].
        cbn [default snd]. do 2 apply suffix_cons_r. exact Hlo. }
      clear Hd. destruct d4 as [cp r4]. cbn [snd] in Hpair.
      destruct (scanstring fuel r4) as [[b' rest']|] eqn:Hrec; cbn; [|discriminate].
      intros H. injection H as _ <-. apply IH in Hrec.
      do 2 apply suffix_cons_r. etrans; [exact Hrec|]. etrans; [exact Hpair | exact Hhex].
    + destruct (simple_escape e); [|discriminate]. cbn [mbind option_bind].
      destruct (scanstring fuel r') as [[b' rest']|] eqn:Hrec; cbn; [|discriminate].
      intros H. injection H as _ <-. apply IH in Hrec.
      do 2 apply suffix_cons_r. exact Hrec.
  - destruct (c <? 32); [discriminate|].
    destruct (scanstring fuel r) as [[b' rest']|] eqn:Hrec; cbn; [|discriminate].
    intros H. injection H as _ <-. apply IH in Hrec. apply suffix_cons_r. exact Hrec.
Qed.

Lemma take_digits_suffix s d r : take_digits s = (d, r) -> r `suffix_of` s.
Proof.
  revert d r. induction s as [|c s IH]; intros d r; simpl.
  - intros H. injection H as _ <-. reflexivity.
  - destruct (is_digit c).
    + destruct (take_digits s) as [d' r'] eqn:E. intros H. injection H as _ <-.
      apply suffix_cons_r. exact (IH d' r' eq_refl).
    + intros H. injection H as _ <-. reflexivity.
Qed.

Lemma scan_int_part_suffix s ip r : scan_int_part s = Some (ip, r) -> r `suffix_of` s.
Proof.
  destruct s as [|c s]; [discriminate|]. cbn [scan_int_part].
  destruct (c =? 48).
  - intros H. injection H as _ <-. apply suffix_cons_r. reflexivity.
  - destruct (is_digit c); [|discriminate].
    destruct (take_digits s) as [d r'] eqn:E. intros H. injection H as _ <-.
    apply take_digits_suffix in E. apply suffix_cons_r. exact E.
Qed.

Lemma scan_frac_suffix s fp r : scan_frac s = (fp, r) -> r `suffix_of` s.
Proof.
  destruct s as [|p s]; cbn [scan_frac].
  - intros H. injection H as _ <-. reflexivity.
  - destruct (p =? ch ".").
    + destruct (take_digits s) as [[|d0 d] r'] eqn:E; intros H; injection H as _ <-.
      * reflexivity.
      * apply take_digits_suffix in E. apply suffix_cons_r. exact E.
    + intros H. injection H as _ <-. reflexivity.
Qed.

Lemma scan_exp_suffix s x r : scan_exp s = (x, r) -> r `suffix_of` s.
Proof.
  destruct s as [|e s]; cbn [scan_exp].
  - intros H. injection H as _ <-. reflexivity.
  - destruct ((e =? ch "e") || (e =? ch "E")).
    + match goal with
      | |- context [let '(neg, r1) := ?p in _] => destruct p as [neg r1] eqn:Hsign
      end.
      assert (Hr1 : r1 `suffix_of` s).
      { destruct s as [|sg r0]; [injection Hsign as _ <-; reflexivity|].
        destruct (sg =? ch "-"); [injection Hsign as _ <-; apply suffix_cons_r; reflexivity|].
        destruct (sg =? ch "+"); injection Hsign as _ <-;
          [apply suffix_cons_r|]; reflexivity. }
      destruct (take_digits r1) as [[|d0 d] r'] eqn:E; intros H; injection H as _ <-.
      * reflexivity.
      * apply take_digits_suffix in E. apply suffix_cons_r. etrans; eassumption.
    + intros H. injection H as _ <-. reflexivity.
Qed.

Lemma match_number_suffix s v r : match_number s = Some (v, r) -> r `suffix_of` s.
Proof.
  unfold match_number.
  match goal with
  | |- context [let '(neg, s0) := ?p in _] => destruct p as [neg s0] eqn:Hsign
  end.
  assert (Hs0 : s0 `suffix_of` s).
  { destruct s as [|c s']; [injection Hsign as _ <-; reflexivity|].
    destruct (c =? ch "-"); injection Hsign as _ <-; [apply suffix_cons_r|]; reflexivity. }
  destruct (scan_int_part s0) as [[ip s1]|] eqn:Hint; [|discriminate].
  cbn [mbind option_bind].
  destruct (scan_frac s1) as [fp s2] eqn:Hfrac.
  destruct (scan_exp s2) as [[[has_exp eneg] ed] s3] eqn:Hexp.
  apply scan_int_part_suffix in Hint. apply scan_frac_suffix in Hfrac.
  apply scan_exp_suffix in Hexp.
  assert (Hall : s3 `suffix_of` s) by (repeat (etrans; [eassumption|]); reflexivity).
  destruct fp, has_exp; intros H; injection H as _ <-; exact Hall.
Qed.

Lemma suffix_of_tail (c : N) (r s : str) : c :: r `suffix_of` s -> r `suffix_of` s.
Proof. apply suffix_cons_l. Qed.

(** What a scan leaves is an end of its text; the term read from a text
    that starts with a brace ends with a brace. *)
Lemma scan_leaves_suffix fuel :
  (forall s v rest, scan_once fuel s = Parsed v rest ->
     rest `suffix_of` s /\
     (head s = Some (ch "{") -> ch "}" :: rest `suffix_of` s)) /\
  (forall acc s v rest, scan_members fuel acc s = Parsed v rest ->
     ch "}" :: rest `suffix_of` s) /\
  (forall acc s v rest, scan_items fuel acc s = Parsed v rest -> rest `suffix_of` s).
Proof.
  induction fuel as [|fuel (IHonce & IHmembers & IHitems)].
  { repeat split; intros; discriminate. }
  split; [|split].
  - intros s v rest. cbn [scan_once]. destruct s as [|c r]; [discriminate|].
    destruct (N.eqb_spec c QUOTE) as [-> | _].
    { destruct (scanstring (length r) r) as [[body rest']|] eqn:E; [|discriminate].
      intros H. injection H as _ <-. apply scanstring_suffix in E. split.
      - apply suffix_cons_r. exact E.
      - intros Hh. vm_compute in Hh. discriminate. }
    destruct (N.eqb_spec c (ch "{")) as [-> | Hbrace].
    { pose proof (skip_ws_is_suffix r) as Hws.
      destruct (skip_ws r) as [|c' r']; [discriminate|].
      destruct (N.eqb_spec c' (ch "}")) as [-> | _].
      - intros H. injection H as _ <-.
        assert (Hclose : ch "}" :: r' `suffix_of` ch "{" :: r)
          by (apply suffix_cons_r; exact Hws).
        split; [exact (suffix_of_tail _ _ _ Hclose) | intros _; exact Hclose].
      - intros H. apply IHmembers in H.
        assert (Hclose : ch "}" :: rest `suffix_of` ch "{" :: r)
          by (apply suffix_cons_r; etrans; eassumption).
        split; [exact (suffix_of_tail _ _ _ Hclose) | intros _; exact Hclose]. }
    assert (Hhead : head (c :: r) = Some (ch "{") -> ch "}" :: rest `suffix_of` c :: r).
    { intros Hh. cbn [head] in Hh. injection Hh as Hh. contradiction. }
    destruct (c =? ch "[").
    { pose proof (skip_ws_is_suffix r) as Hws.
      destruct (skip_ws r) as [|c' r']; [discriminate|].
      destruct (c' =? ch "]").
      - intros H. injection H as _ <-. split; [|exact Hhead].
        apply suffix_cons_r. etrans; [|exact Hws]. apply suffix_cons_r. reflexivity.
      - intros H. apply IHitems in H. split; [|exact Hhead].
        apply suffix_cons_r. etrans; eassumption. }
    assert (Hlit : forall n v', Parsed v' (drop n (c :: r)) = Parsed v rest ->
               rest `suffix_of` c :: r /\
               (head (c :: r) = Some (ch "{") -> ch "}" :: rest `suffix_of` c :: r)).
    { intros n v' H. injection H as _ <-. split; [apply suffix_drop | exact Hhead]. }
    destruct (startswith (lit "null") (c :: r)); [apply Hlit|].
    destruct (startswith (lit "true") (c :: r)); [apply Hlit|].
    destruct (startswith (lit "false") (c :: r)); [apply Hlit|].
    destruct (startswith (lit "NaN") (c :: r)); [apply Hlit|].
    destruct (startswith (lit "Infinity") (c :: r)); [apply Hlit|].
    destruct (startswith (lit "-Infinity") (c :: r)); [apply Hlit|].
    destruct (match_number (c :: r)) as [[v' rest']|] eqn:E; [|discriminate].
    intros H. injection H as _ <-. apply match_number_suffix in E. split; assumption.
  - intros acc s v rest. cbn [scan_members]. destruct s as [|c r]; [discriminate|].
    destruct (c =? QUOTE); [|discriminate].
    destruct (scanstring (length r) r) as [[key r1]|] eqn:E; [|discriminate].
    apply scanstring_suffix in E.
    pose proof (skip_ws_is_suffix r1) as Hws1.
    destruct (skip_ws r1) as [|colon r2]; [discriminate|].
    destruct (colon =? ch ":"); [|discriminate].
    pose proof (skip_ws_is_suffix r2) as Hws2.
    destruct (scan_once fuel (skip_ws r2)) as [v' r3| |] eqn:Hval; [|discriminate..].
    apply IHonce in Hval as [Hval _].
    pose proof (skip_ws_is_suffix r3) as Hws3.
    assert (Hr3 : r3 `suffix_of` c :: r).
    { apply suffix_cons_r. etrans; [exact Hval|]. etrans; [exact Hws2|].
      etrans; [|exact E]. etrans; [|exact Hws1]. apply suffix_cons_r. reflexivity. }
    destruct (skip_ws r3) as [|d r4]; [discriminate|].
    destruct (N.eqb_spec d (ch "}")) as [-> | _].
    { intros H. injection H as _ <-. etrans; eassumption. }
    destruct (d =? ch ","); [|discriminate].
    intros H. apply IHmembers in H.
    etrans; [exact H|]. etrans; [apply skip_ws_is_suffix|].
    etrans; [|exact Hr3]. etrans; [|exact Hws3]. apply suffix_cons_r. reflexivity.
  - intros acc s v rest. cbn [scan_items].
    destruct (scan_once fuel s) as [v' r1| |] eqn:Hval; [|discriminate..].
    apply IHonce in Hval as [Hval _].
    pose proof (skip_ws_is_suffix r1) as Hws1.
    destruct (skip_ws r1) as [|d r2]; [discriminate|].
    assert (Hr2 : r2 `suffix_of` s).
    { etrans; [|exact Hval]. etrans; [|exact Hws1]. apply suffix_cons_r. reflexivity. }
    destruct (d =? ch "]").
    { intros H. injection H as _ <-. exact Hr2. }
    destruct (d =? ch ","); [|discriminate].
    intros H. apply IHitems in H.
    etrans; [exact H|]. etrans; [apply skip_ws_is_suffix | exact Hr2].
Qed.

(** A text that decodes and starts with a brace ends with a brace,
    white space aside. *)
Lemma json_loads_object_ends_with_brace s v r :
  json_loads s = Ok v -> skip_ws s = ch "{" :: r ->
  exists body ws, s = body ++ ch "}" :: ws /\ Forall (fun c => is_json_ws c = true) ws.
Proof.
  unfold json_loads. intros Hloads Hhead.
  destruct (scan_once (S (2 * length s)) (skip_ws s)) as [v' rest| |] eqn:Hscan;
    [|discriminate..].
  destruct (skip_ws rest) eqn:Hrest; [|discriminate].
  destruct (proj1 (scan_leaves_suffix _) _ _ _ Hscan) as [_ Hclose].
  specialize (Hclose ltac:(rewrite Hhead; reflexivity)).
  assert (Hs : ch "}" :: rest `suffix_of` s) by (etrans; [exact Hclose | apply skip_ws_is_suffix]).
  destruct Hs as [body Hs]. exists body, rest. split; [exact Hs|].
  destruct (drop_while_suffix is_json_ws rest) as (a & Ha & Hall).
  unfold skip_ws in Hrest. rewrite Hrest, app_nil_r in Ha. subst a. exact Hall.
Qed.

Lemma last_repeat (c : N) n (s : str) : last (s ++ repeat c (S n)) = Some c.
Proof.
  replace (repeat c (S n)) with (repeat c n ++ [c]).
  - rewrite app_assoc. apply last_snoc.
  - clear. induction n as [|n IH]; [reflexivity|]. cbn [repeat app]. rewrite IH. reflexivity.
Qed.

(** A reply that is an object and has more opening than closing brackets
    is never recovered: the brackets are appended behind the braces, so
    the repaired text ends with a bracket and does not decode. *)
Theorem open_list_is_not_recovered ai_response e r :
  let text := clean_response ai_response in
  text = ch "{" :: r ->
  json_loads text = Raise e ->
  contains KEY_TAILORED_SCRIPT text = true ->
  in_string (scan text) = false ->
  (count (ch "]") text < count (ch "[") text)%nat ->
  (exists before, snd (_fix_common_json_issues text) = before ++ [ch "]"]) /\
  snd (parse_ai_response ai_response) = Ok FALLBACK.
Proof.
  intros text Htext Hraise Hkey Hscan Hcount.
  pose proof (fix_common_json_issues_closed_strings text Hscan) as Hfixed.
  set (braces := (count (ch "{") text - count (ch "}") text)%nat) in *.
  destruct (count (ch "[") text - count (ch "]") text)%nat as [|n] eqn:Hn; [lia|].
  assert (Hlast : last (snd (_fix_common_json_issues text)) = Some (ch "]")).
  { rewrite Hfixed, app_assoc. apply last_repeat. }
  split.
  - destruct (snd (_fix_common_json_issues text)) as [|x fixed _] using rev_ind;
      [discriminate|].
    rewrite last_snoc in Hlast. injection Hlast as ->. exists fixed. reflexivity.
  - rewrite (parse_ai_response_repaired ai_response e Hraise Hkey). fold text.
    destruct (json_loads (snd (_fix_common_json_issues text))) as [v|e'] eqn:Hloads;
      [exfalso | reflexivity].
    destruct (json_loads_object_ends_with_brace _ v
                (r ++ repeat (ch "}") braces ++ repeat (ch "]") (S n)) Hloads)
      as (body & ws & Hs & Hws).
    { rewrite Hfixed, Htext. reflexivity. }
    rewrite Hs in Hlast.
    destruct ws as [|w ws _] using rev_ind.
    + rewrite last_snoc in Hlast. discriminate.
    + rewrite app_comm_cons, app_assoc, last_snoc in Hlast. injection Hlast as ->.
      apply Forall_app in Hws as [_ Hw]. inversion Hw as [|? ? Hc _]. discriminate.
Qed.

(** ** The endpoint: what one request can do *)

Section RequestEffort.
Variable lower : str -> str.
Variable _hash_url : str -> str.

(** What the endpoint's fetch of one URL costs at most. *)
Lemma endpoint_fetch_bounds supadata url lang text mode :
  let events := fst (_transcribe_with_retry lower supadata url lang text mode 3) in
  (calls events <= 5)%nat /\ (0 <= total_sleep events <= 155)%Z.
Proof using Type.
  intros events.
  set (info := _detect_platform lower url).
  set (budget := retry_budget info 3).
  assert (Hb : budget = 3%Z \/ budget = 5%Z).
  { unfold budget, retry_budget. destruct (str_eqb (reliability info) (lit "low")); auto. }
  destruct (transcribe_with_retry_events lower supadata url lang text mode 3) as [H | H];
    fold info budget events in H.
  - rewrite H. cbn. lia.
  - destruct (retry_loop_calls supadata url info budget (Z.to_nat budget) 0)
      as (j & Hj & Hcalls & Hsleep & Hpos). cbn zeta in Hcalls, Hsleep, Hpos.
    rewrite <- H in Hcalls, Hsleep, Hpos.
    unfold calls. rewrite Hcalls, length_map, length_seq.
    destruct Hb as [Hb | Hb]; rewrite Hb in Hj, Hsleep.
    + change (Z.to_nat 3) with 3%nat in Hj, Hsleep.
      change (2 ^ Z.of_nat (0 + 3))%Z with 8%Z in Hsleep.
      change (2 ^ Z.of_nat 0)%Z with 1%Z in Hsleep. lia.
    + change (Z.to_nat 5) with 5%nat in Hj, Hsleep.
      change (2 ^ Z.of_nat (0 + 5))%Z with 32%Z in Hsleep.
      change (2 ^ Z.of_nat 0)%Z with 1%Z in Hsleep. lia.
Qed.

Lemma transcribe_urls_effort data now cache supadata todo :
  Forall (fun p => match snd p with
                   | FromCache => True
                   | Fetched events =>
                       (calls events <= 5)%nat /\ (0 <= total_sleep events <= 155)%Z
                   end)
         (fst (fst (transcribe_urls lower _hash_url data now cache supadata todo))).
Proof using Type.
  revert cache supadata. induction todo as [|u todo IH]; intros cache supadata.
  - constructor.
  - cbn [transcribe_urls].
    pose proof (transcribe_url_cases lower _hash_url data now cache supadata u) as Hcases.
    destruct (transcribe_url lower _hash_url data now cache supadata u) as [[[r src] c] s].
    cbn [fst snd] in Hcases. specialize (IH c s).
    destruct (transcribe_urls lower _hash_url data now c s todo) as [[o c'] s'].
    cbn [fst snd] in *. constructor; [|exact IH]. cbn [snd].
    destruct Hcases as [(-> & _) | (events & -> & Hrun & _)]; [exact I|].
    pose proof (endpoint_fetch_bounds supadata u (lang data) (text data) (mode data)) as Hb.
    cbn zeta in Hb. rewrite <- Hrun in Hb. exact Hb.
Qed.

(** For each URL of a request the provider is called five times at most
    and the fetcher sleeps for no more than 155 seconds in all, whatever
    the provider answers; a URL answered from the cache costs nothing. *)
Theorem request_effort_is_bounded data now cache supadata :
  let run := transcribe lower _hash_url data now cache supadata in
  length (sources_of run) = length (urls data) /\
  Forall (fun src => match src with
                     | FromCache => True
                     | Fetched events =>
                         (calls events <= 5)%nat /\ (0 <= total_sleep events <= 155)%Z
                     end)
         (sources_of run).
Proof using Type.
  intros run.
  destruct (transcribe_parts lower _hash_url data now cache supadata) as (_ & Hsrc & _).
  fold run in Hsrc. rewrite Hsrc, length_map. split; [apply transcribe_urls_length|].
  apply Forall_map.
  exact (transcribe_urls_effort data now cache supadata (urls data)).
Qed.

(** A request leaves alone what the cache holds under the keys of other
    URLs than its own. *)
Theorem request_touches_only_its_keys data now cache supadata key :
  Forall (fun url => _hash_url url <> key) (urls data) ->
  cache_of (transcribe lower _hash_url data now cache supadata) !! key = cache !! key.
Proof using Type.
  intros Hall.
  destruct (transcribe_parts lower _hash_url data now cache supadata) as (_ & _ & Hcache & _).
  rewrite Hcache. apply transcribe_urls_other_key. exact Hall.
Qed.
End RequestEffort.

(** ** The endpoint: whose result a result is *)

Lemma attempt_once_names_url supadata url info max_retries attempt events r :
  attempt_once supadata url info max_retries attempt = (events, Some r) ->
  url_of r = url /\ platform_of r = platform info.
Proof.
  unfold attempt_once.
  destruct (supadata attempt) as [l c | j | error_msg | msg].
  - intros H. injection H as _ <-. split; reflexivity.
  - intros H. injection H as _ <-. split; reflexivity.
  - destruct (contains (lit "status 429") error_msg).
    + destruct (Z.of_nat attempt =? max_retries - 1)%Z; [|discriminate].
      intros H. injection H as _ <-. split; reflexivity.
    + destruct (contains (lit "status 400") error_msg || contains (lit "status 500") error_msg).
      * destruct (Z.of_nat attempt =? max_retries - 1)%Z; [|discriminate].
        intros H. injection H as _ <-. split; reflexivity.
      * intros H. injection H as _ <-. split; reflexivity.
  - destruct (Z.of_nat attempt =? max_retries - 1)%Z; [|discriminate].
    intros H. injection H as _ <-. split; reflexivity.
Qed.

Lemma retry_loop_names_url supadata url info max_retries attempts events r :
  retry_loop supadata url info max_retries attempts = (events, Some r) ->
  url_of r = url /\ platform_of r = platform info.
Proof.
  revert events. induction attempts as [|attempt attempts IH]; intros events; [discriminate|].
  cbn [retry_loop].
  destruct (attempt_once supadata url info max_retries attempt) as [ev [r'|]] eqn:Hatt.
  - intros H. injection H as _ <-. exact (attempt_once_names_url _ _ _ _ _ _ _ Hatt).
  - destruct (retry_loop supadata url info max_retries attempts) as [ev' [r'|]];
      [|discriminate].
    intros H. injection H as _ <-. exact (IH ev' eq_refl).
Qed.

Lemma transcribe_with_retry_names_url lower supadata url lang text mode max_retries :
  let r := snd (_transcribe_with_retry lower supadata url lang text mode max_retries) in
  url_of r = url /\ platform_of r = platform (_detect_platform lower url).
Proof.
  cbn zeta. unfold _transcribe_with_retry.
  destruct (supported (_detect_platform lower url)); cbn [negb]; [|split; reflexivity].
  destruct (retry_loop supadata url (_detect_platform lower url)
              (retry_budget (_detect_platform lower url) max_retries)
              (seq 0 (Z.to_nat (retry_budget (_detect_platform lower url) max_retries))))
    as [events [r|]] eqn:Hloop; cbn [snd].
  - exact (retry_loop_names_url _ _ _ _ _ _ _ Hloop).
  - split; reflexivity.
Qed.

Section ResultOwner.
Variable lower : str -> str.
Variable _hash_url : str -> str.

(** A result that a request fetched names the URL at its place in the
    request and the platform detected for it, whatever the provider did;
    only a result taken from the cache can name another URL. *)
Theorem fetched_result_names_its_url data now cache supadata i url r events :
  let run := transcribe lower _hash_url data now cache supadata in
  urls data !! i = Some url ->
  results_of run !! i = Some r ->
  sources_of run !! i = Some (Fetched events) ->
  url_of r = url /\ platform_of r = platform (_detect_platform lower url).
Proof using Type.
  intros run Hurl Hr Hsrc.
  assert (Hsplit : urls data = take i (urls data) ++ url :: drop (S i) (urls data))
    by (symmetry; apply take_drop_middle; exact Hurl).
  assert (Hlen : length (take i (urls data)) = i).
  { rewrite length_take. apply lookup_lt_Some in Hurl. lia. }
  destruct (transcribe_at lower _hash_url data now cache supadata _ _ _ Hsplit)
    as (Hr' & Hsrc' & _).
  fold run in Hr', Hsrc'. rewrite Hlen in Hr', Hsrc'.
  rewrite Hr in Hr'. injection Hr' as Hr'. rewrite Hsrc in Hsrc'. injection Hsrc' as Hsrc'.
  set (first := transcribe_urls lower _hash_url data now cache supadata (take i (urls data)))
    in *.
  destruct (transcribe_url_cases lower _hash_url data now (snd (fst first)) (snd first) url)
    as [(Hfrom & _) | (events' & _ & Hrun & _)].
  - rewrite <- Hsrc' in Hfrom. discriminate.
  - rewrite <- Hr' in Hrun.
    pose proof (transcribe_with_retry_names_url lower (snd first) url (lang data) (text data)
                  (mode data) 3) as Hname.
    cbn zeta in Hname. rewrite <- Hrun in Hname. exact Hname.
Qed.
End ResultOwner.

(** * The theorems at work on concrete inputs *)

(** A reply in a fence tagged [json]. *)
Lemma C1_witness :
  let text := qlit "{'tailoredScript': 'Hi'}" in
  let ai_response := [] ++ (FENCE_JSON ++ [10] ++ text ++ [10] ++ FENCE) ++ [] in
  clean_response ai_response = text /\
  parse_ai_response ai_response
    = ([LogParsed], Ok (JObj [(lit "tailoredScript", JStr (lit "Hi"))])).
Proof.
  apply (C1_valid_json_returned_unchanged
           ([] ++ (FENCE_JSON ++ [10] ++ qlit "{'tailoredScript': 'Hi'}" ++ [10] ++ FENCE) ++ [])
           (qlit "{'tailoredScript': 'Hi'}")
           (JObj [(lit "tailoredScript", JStr (lit "Hi"))])).
  - vm_compute. reflexivity.
  - vm_compute. reflexivity.
  - apply (carries_fenced_json _ [] [10] [10] []); repeat constructor.
Defined.

(** A reply that is no JSON and does not name the key. *)
Lemma C2_witness :
  parse_ai_response (lit "I am sorry, I cannot help with that.")
    = ([LogParseFailed], Ok FALLBACK) /\
  fallback_fields FALLBACK.
Proof.
  apply (C2_fallback_without_key (lit "I am sorry, I cannot help with that.")).
  - vm_compute. reflexivity.
  - vm_compute. reflexivity.
Defined.

(** A TikTok URL, the default budget of three raised to five, and a
    provider that reports a rate limit at every attempt. *)
Lemma C5_witness :
  let supadata := fun _ : nat => RaisesSupadataError (lit "Request failed with status 429") in
  let url := lit "https://www.tiktok.com/@x/video/1" in
  let run := _transcribe_with_retry lower_ascii supadata url (lit "en") true (lit "auto") 3 in
  fst run = [Call 0; Sleep 5; Call 1; Sleep 10; Call 2; Sleep 20; Call 3; Sleep 40;
             Call 4; Sleep 80] /\
  exists e, snd run = Error url (lit "TikTok") e /\ code e = TRANSCRIPTION_FAILED.
Proof.
  intros supadata url run.
  destruct (C5_low_reliability_backoff lower_ascii supadata url (lit "en") true (lit "auto") 3 5)
    as (_ & _ & rest & Hevents & _ & Hlast).
  - vm_compute. reflexivity.
  - lia.
  - lia.
  - intros attempt _. eexists. split; [reflexivity | vm_compute; reflexivity].
  - destruct (Hlast eq_refl) as [-> He]. split.
    + exact Hevents.
    + exact He.
Defined.

(** A YouTube URL with the default budget and a provider that always fails. *)
Lemma C6_witness :
  let supadata := fun _ : nat => RaisesException (lit "connection reset") in
  let url := lit "https://www.youtube.com/watch?v=1" in
  is_unknown_error
    (snd (_transcribe_with_retry lower_ascii supadata url (lit "en") true (lit "auto") 3))
    = false.
Proof.
  intros supadata url.
  apply (C6_fallback_unreachable lower_ascii supadata url (lit "en") true (lit "auto") 3).
  vm_compute. discriminate.
Defined.


(** A script of exactly 150 words. *)
Lemma C8_witness :
  let metadata := calculate_metadata (concat (repeat (lit "word ") 150)) (lit "a b c") 0 in
  Metadata.wordCount metadata = 150%Z /\
  Metadata.estimatedReadTime metadata = lit "1.0m".
Proof.
  intros metadata.
  destruct (C8_metadata (concat (repeat (lit "word ") 150)) (lit "a b c") 0%float)
    as (Hcount & _ & _ & _ & H150 & _).
  - apply Nat.leb_le. vm_compute. reflexivity.
  - split.
    + exact Hcount.
    + apply H150. vm_compute. reflexivity.
Defined.

(** One URL whose fetch ends in an error, asked for twice; the URL itself
    stands for its digest. *)
Lemma C10_witness :
  let supadata := fun _ : nat => RaisesSupadataError (lit "video is private") in
  let url := lit "https://youtu.be/abc" in
  let data := {| urls := [url]; lang := lit "en"; text := true; mode := lit "auto" |} in
  let run := transcribe lower_ascii id data 1000 ∅ supadata in
  cache_of run !! id url = None /\
  exists events,
    sources_of (transcribe lower_ascii id data 2000 (cache_of run) supadata) !! 0%nat
      = Some (Fetched events).
Proof.
  intros supadata url data run.
  destruct (C10_errors_are_never_cached lower_ascii id data 1000%float ∅ supadata
              cache_clean_empty) as (_ & _ & Hlast).
  edestruct (Hlast [] url []) as [Hnone Hnext].
  - reflexivity.
  - constructor.
  - vm_compute. reflexivity.
  - vm_compute. reflexivity.
  - split; [exact Hnone|].
    apply (Hnext data 2000%float supadata [] []); [reflexivity | constructor].
Defined.

(** A string of any content after the key: the repaired text is that of
    the reply cut right after the opening quote. *)
Lemma fix_unterminated_strings_drops_content_witness :
  in_string (scan (qlit "{'tailoredScript': 'Hello world. This is trunc")) = true /\
  _fix_unterminated_strings (qlit "{'tailoredScript': 'Hello world. This is trunc")
    = _fix_unterminated_strings (qlit "{'tailoredScript': '").
Proof.
  apply (fix_unterminated_strings_drops_content
           (qlit "{'tailoredScript': ") (lit "Hello world. This is trunc")).
  - vm_compute. reflexivity.
  - vm_compute. reflexivity.
  - repeat constructor; vm_compute; discriminate.
Defined.

(** A Vimeo URL. *)
Lemma unsupported_platform_is_not_fetched_witness :
  exists e,
    _transcribe_with_retry lower_ascii (fun _ => Content (lit "en") (lit "text"))
      (lit "https://vimeo.com/1") (lit "en") true (lit "auto") 3
      = ([], Error (lit "https://vimeo.com/1") (lit "Vimeo") e) /\
    code e = PLATFORM_NOT_SUPPORTED /\
    details e = lit "Not supported by Supadata. Use alternative transcription service.".
Proof.
  apply (unsupported_platform_is_not_fetched lower_ascii
           (fun _ => Content (lit "en") (lit "text"))
           (lit "https://vimeo.com/1") (lit "en") true (lit "auto") 3).
  vm_compute. reflexivity.
Defined.

(** A YouTube URL whose first two attempts fail with a rate limit and a
    server error; the third gives the transcript. *)
Lemma retry_recovers_witness :
  let supadata := fun attempt : nat =>
    match attempt with
    | 0%nat => RaisesSupadataError (lit "Request failed with status 429")
    | 1%nat => RaisesSupadataError (lit "Request failed with status 500")
    | _ => Content (lit "en") (lit "hello")
    end in
  let url := lit "https://www.youtube.com/watch?v=1" in
  let run := _transcribe_with_retry lower_ascii supadata url (lit "en") true (lit "auto") 3 in
  snd run = Success url (lit "YouTube") (lit "en") (lit "hello") /\
  calls (fst run) = 3%nat.
Proof.
  intros supadata url run.
  apply (retry_recovers lower_ascii supadata url (lit "en") true (lit "auto") 3 2
           (lit "en") (lit "hello")).
  - vm_compute. reflexivity.
  - vm_compute. reflexivity.
  - intros [|[|attempt]] Ha; [vm_compute; reflexivity | vm_compute; reflexivity | lia].
  - reflexivity.
Defined.

(** A YouTube URL that the provider refuses with a status the loop does
    not retry. *)
Lemma non_retryable_error_is_final_witness :
  let supadata := fun _ : nat => RaisesSupadataError (lit "Request failed with status 404") in
  let url := lit "https://www.youtube.com/watch?v=1" in
  let run := _transcribe_with_retry lower_ascii supadata url (lit "en") true (lit "auto") 3 in
  (exists e,
     snd run = Error url (lit "YouTube") e /\
     code e = TRANSCRIPTION_ERROR /\
     message e = lit "Failed to transcribe YouTube video: Request failed with status 404" /\
     details e = lit "Request failed with status 404") /\
  calls (fst run) = 1%nat /\
  exists before, fst run = before ++ [Call 0].
Proof.
  intros supadata url run.
  apply (non_retryable_error_is_final lower_ascii supadata url (lit "en") true (lit "auto") 3 0
           (lit "Request failed with status 404")).
  - vm_compute. reflexivity.
  - vm_compute. reflexivity.
  - intros attempt Ha. lia.
  - reflexivity.
  - vm_compute. reflexivity.
Defined.

(** A YouTube URL and a provider whose client fails each time. *)
Lemma unexpected_errors_use_the_budget_witness :
  let supadata := fun _ : nat => RaisesException (lit "connection reset") in
  let url := lit "https://www.youtube.com/watch?v=1" in
  exists e,
    _transcribe_with_retry lower_ascii supadata url (lit "en") true (lit "auto") 3
      = ([Call 0; Sleep 1; Call 1; Sleep 2; Call 2], Error url (lit "YouTube") e) /\
    code e = UNEXPECTED_ERROR /\
    details e = lit "connection reset" /\
    message e = lit "Unexpected error transcribing YouTube video: connection reset".
Proof.
  intros supadata url.
  apply (unexpected_errors_use_the_budget lower_ascii supadata url (lit "en") true (lit "auto") 3
           (fun _ => lit "connection reset")).
  - vm_compute. reflexivity.
  - vm_compute. discriminate.
  - intros attempt _. reflexivity.
Defined.

(** An Instagram URL and a provider that answers with status 500. *)
Lemma server_errors_use_the_budget_witness :
  let supadata := fun _ : nat => RaisesSupadataError (lit "Request failed with status 500") in
  let url := lit "https://www.instagram.com/reel/1" in
  exists e error_msg,
    _transcribe_with_retry lower_ascii supadata url (lit "en") true (lit "auto") 3
      = ([Call 0; Sleep 2; Call 1; Sleep 4; Call 2; Sleep 8], Error url (lit "Instagram") e) /\
    supadata 2%nat = RaisesSupadataError error_msg /\
    code e = TRANSCRIPTION_FAILED /\
    details e = error_msg /\
    message e = lit "Failed to transcribe Instagram video after 3 attempts: " ++ error_msg.
Proof.
  intros supadata url.
  apply (server_errors_use_the_budget lower_ascii supadata url (lit "en") true (lit "auto") 3).
  - vm_compute. reflexivity.
  - vm_compute. discriminate.
  - intros attempt _. eexists. split; [reflexivity|]. split; vm_compute; reflexivity.
Defined.

(** A YouTube URL fetched at time 1000: a request at time 2000 is answered
    from the cache, one at time 90000 is not. *)
Lemma cached_result_is_reused_until_expiry_witness :
  let supadata := fun _ : nat => Content (lit "en") (lit "hello") in
  let url := lit "https://youtu.be/abc" in
  let data := {| urls := [url]; lang := lit "en"; text := true; mode := lit "auto" |} in
  let run := transcribe lower_ascii id data 1000 ∅ supadata in
  transcribe_url lower_ascii id data 2000 (cache_of run) supadata url
    = (Success url (lit "YouTube") (lit "en") (lit "hello"), FromCache, cache_of run, supadata) /\
  exists events,
    snd (fst (fst (transcribe_url lower_ascii id data 90000 (cache_of run) supadata url)))
      = Fetched events.
Proof.
  intros supadata url data run.
  assert (H : forall now' : float,
             let step := transcribe_url lower_ascii id data now' (cache_of run) supadata url in
             ((now' - 1000 <? CACHE_TTL)%float = true ->
                step = (Success url (lit "YouTube") (lit "en") (lit "hello"), FromCache,
                        cache_of run, supadata)) /\
             ((now' - 1000 <? CACHE_TTL)%float = false ->
                exists events', snd (fst (fst step)) = Fetched events')).
  { intros now'.
    apply (cached_result_is_reused_until_expiry lower_ascii id data 1000%float ∅ supadata
             [] url [] (Success url (lit "YouTube") (lit "en") (lit "hello")) [Call 0]).
    - reflexivity.
    - constructor.
    - vm_compute. reflexivity.
    - vm_compute. reflexivity.
    - vm_compute. reflexivity. }
  split.
  - apply (H 2000%float). reflexivity.
  - apply (H 90000%float). reflexivity.
Defined.

(** The same URL twice in one request. *)
Lemma repeated_url_is_fetched_once_witness :
  let supadata := fun _ : nat => Content (lit "en") (lit "hello") in
  let url := lit "https://youtu.be/abc" in
  let other := lit "https://youtu.be/xyz" in
  let data := {| urls := [url; other; url]; lang := lit "en"; text := true;
                 mode := lit "auto" |} in
  let run := transcribe lower_ascii id data 1000 ∅ supadata in
  results_of run !! 2%nat = Some (Success url (lit "YouTube") (lit "en") (lit "hello")) /\
  sources_of run !! 2%nat = Some FromCache.
Proof.
  intros supadata url other data run.
  apply (repeated_url_is_fetched_once lower_ascii id data 1000%float ∅ supadata
           [] url [other] url []).
  - reflexivity.
  - reflexivity.
  - repeat constructor. vm_compute. discriminate.
  - reflexivity.
  - vm_compute. reflexivity.
  - vm_compute. reflexivity.
Defined.

(** A reply that lost its closing brace, and one cut inside the list of
    sections: the first is recovered, the second is not. *)
Lemma repair_appends_missing_closers_witness :
  snd (parse_ai_response (qlit "{'tailoredScript': 'Hi', 'confidence': 0.9"))
    = Ok (JObj [(lit "tailoredScript", JStr (lit "Hi")); (lit "confidence", JFloat 0.9)]) /\
  snd (_fix_common_json_issues
         (clean_response
            (qlit "{'tailoredScript': 'Hi', 'sectionBreakdown': [{'sectionName': 'Hook'")))
    = qlit "{'tailoredScript': 'Hi', 'sectionBreakdown': [{'sectionName': 'Hook'}}]" /\
  snd (parse_ai_response
         (qlit "{'tailoredScript': 'Hi', 'sectionBreakdown': [{'sectionName': 'Hook'"))
    = Ok FALLBACK.
Proof.
  destruct (repair_appends_missing_closers
              (qlit "{'tailoredScript': 'Hi', 'confidence': 0.9") JSONDecodeError)
    as [_ H1]; [vm_compute; reflexivity ..|].
  destruct (repair_appends_missing_closers
              (qlit "{'tailoredScript': 'Hi', 'sectionBreakdown': [{'sectionName': 'Hook'")
              JSONDecodeError)
    as [H2 H3]; [vm_compute; reflexivity ..|].
  split; [|split].
  - rewrite H1. vm_compute. reflexivity.
  - rewrite H2. vm_compute. reflexivity.
  - rewrite H3. vm_compute. reflexivity.
Defined.

(** Three quotes: the scan ends inside the string. *)
Lemma scan_ends_in_string_when_quotes_are_odd_witness :
  in_string (scan (qlit "{'a': 'b")) = Nat.odd (count QUOTE (qlit "{'a': 'b")) /\
  in_string (scan (qlit "{'a': 'b")) = true.
Proof.
  split.
  - apply (scan_ends_in_string_when_quotes_are_odd (qlit "{'a': 'b")).
    repeat constructor; vm_compute; discriminate.
  - vm_compute. reflexivity.
Defined.

(** A script of two spaces. *)
Lemma blank_script_metadata_witness :
  let metadata := calculate_metadata (lit "  ") (lit "one two") 0 in
  Metadata.wordCount metadata = 0%Z /\
  Metadata.estimatedReadTime metadata = lit "0s".
Proof.
  apply (blank_script_metadata (lit "  ") (lit "one two") 0%float).
  repeat constructor.
Defined.

(** A reply that is no JSON and does not hold the key. *)
Lemma fallback_reaches_the_client_witness :
  let request := {| originalTranscript := lit "one two"; productDescription := lit "a pen" |} in
  let data := generate_tailored_script request (ApiContent (lit "I cannot help with that.")) 2 in
  tailoredScript data = JStr (lit "Error: Could not parse AI response. Please try again.") /\
  confidence data = JFloat 0.1 /\
  wordCount data = 9%Z /\
  estimatedReadTime data = lit "3s" /\
  sectionBreakdown data = JArr [] /\
  is_fully_populated data = true.
Proof.
  intros request.
  apply (fallback_reaches_the_client request (lit "I cannot help with that.") 2%float).
  vm_compute. reflexivity.
Defined.

(** A reply whose script is a number. *)
Lemma non_text_script_yields_error_response_witness :
  let request := {| originalTranscript := lit "one two"; productDescription := lit "a pen" |} in
  let data := generate_tailored_script request (ApiContent (qlit "{'tailoredScript': 5}")) 2 in
  data = error_response (no_attribute (JInt 5) "split") 2 /\
  tailoredScript data
    = JStr (lit "Error generating script: 'int' object has no attribute 'split'") /\
  confidence data = JFloat 0 /\
  wordCount data = 0%Z.
Proof.
  intros request.
  apply (non_text_script_yields_error_response request (qlit "{'tailoredScript': 5}") 2%float
           [(lit "tailoredScript", JInt 5)] (JInt 5)).
  - vm_compute. reflexivity.
  - vm_compute. reflexivity.
  - reflexivity.
Defined.

(** A description over two lines with runs of spaces. *)
Lemma clean_text_joins_the_words_witness :
  _clean_text (lit "  Great   pen
 for you ") = lit "Great pen for you".
Proof.
  apply (clean_text_joins_the_words (lit "  Great   pen
 for you ")).
  - intros c Hc. vm_compute in Hc. injection Hc as <-. split; reflexivity.
  - intros c Hc. vm_compute in Hc. injection Hc as <-. reflexivity.
Defined.

(** An item of a list, and a text with two hyphens in front. *)
Lemma clean_text_removes_one_bullet_witness :
  _clean_text (lit " * Great   pen - for you ") = lit "Great pen - for you" /\
  _clean_text (lit "- - a") = lit "- a".
Proof.
  split.
  - apply (clean_text_removes_one_bullet (lit " ") (ch "*") (lit " Great   pen - for you ")).
    + repeat constructor.
    + reflexivity.
    + intros c Hc. vm_compute in Hc. injection Hc as <-. reflexivity.
    + intros c Hc. vm_compute in Hc. injection Hc as <-. reflexivity.
  - apply (clean_text_removes_one_bullet [] (ch "-") (lit " - a")).
    + constructor.
    + reflexivity.
    + intros c Hc. vm_compute in Hc. injection Hc as <-. reflexivity.
    + intros c Hc. vm_compute in Hc. injection Hc as <-. reflexivity.
Defined.

(** A page with a broken JSON-LD script before a good one. *)
Lemma structured_description_search_witness :
  let broken := Some (qlit "{'description': ") in
  let good := Some (qlit "{'@type': 'Product', 'description': 'A pen'}") in
  _extract_structured_data_description [broken; good] = JStr (lit "A pen") /\
  _extract_structured_data_description [broken; None; good] = JNull.
Proof.
  intros broken good.
  destruct (structured_description_search [broken] [good]) as (Hskip & _ & _).
  { repeat constructor. eexists _, JSONDecodeError. split; [reflexivity | vm_compute; reflexivity]. }
  destruct (structured_description_search [broken] [good]) as (_ & Hnone & _).
  { repeat constructor. eexists _, JSONDecodeError. split; [reflexivity | vm_compute; reflexivity]. }
  split.
  - etransitivity; [exact Hskip | vm_compute; reflexivity].
  - exact Hnone.
Defined.

(** A page whose description element holds a hyphen only: the description
    is empty, although the meta tag has a text. *)
Lemma selected_description_wins_witness :
  let page := {| select_one := fun selector =>
                   if str_eqb selector (lit ".description") then Some (Tag (lit "-")) else None;
                 ld_json_scripts := [];
                 meta_description := Some (Some (lit "A pen")) |} in
  description (scrape_product true (Some page)) = [].
Proof.
  intros page.
  rewrite (selected_description_wins page (ch "-") []); [|vm_compute]; reflexivity.
Defined.

(** A page whose structured data give a number as the description. *)
Lemma non_text_structured_description_fails_witness :
  let page := {| select_one := fun _ => None;
                 ld_json_scripts := [Some (qlit "{'description': 5}")];
                 meta_description := Some (Some (lit "A pen")) |} in
  scrape_product true (Some page)
    = {| description := lit "Error occurred while scraping the product description: 'int' object has no attribute 'strip'";
         title := Some (lit "Error: Failed to scrape product") |}.
Proof.
  intros page.
  apply (non_text_structured_description_fails page (JInt 5)).
  - left. reflexivity.
  - vm_compute. reflexivity.
  - reflexivity.
  - reflexivity.
Defined.

(** A page with a meta description only, and one with nothing. *)
Lemma description_falls_back_to_meta_witness :
  let with_meta := {| select_one := fun _ => None; ld_json_scripts := [];
                      meta_description := Some (Some (lit " A  pen ")) |} in
  let bare := {| select_one := fun _ => None; ld_json_scripts := [];
                 meta_description := None |} in
  description (scrape_product true (Some with_meta)) = lit "A pen" /\
  description (scrape_product true (Some bare)) = lit "Product description not available".
Proof.
  intros with_meta bare. split.
  - rewrite (description_falls_back_to_meta with_meta);
      [vm_compute; reflexivity | left; reflexivity | reflexivity].
  - rewrite (description_falls_back_to_meta bare);
      [reflexivity | left; reflexivity | reflexivity].
Defined.

(** A reply cut inside the list of sections. *)
Lemma open_list_is_not_recovered_witness :
  let ai_response :=
    qlit "{'tailoredScript': 'Hi', 'sectionBreakdown': [{'sectionName': 'Hook'" in
  (exists before,
     snd (_fix_common_json_issues (clean_response ai_response)) = before ++ [ch "]"]) /\
  snd (parse_ai_response ai_response) = Ok FALLBACK.
Proof.
  intros ai_response.
  apply (open_list_is_not_recovered ai_response JSONDecodeError
           (qlit "'tailoredScript': 'Hi', 'sectionBreakdown': [{'sectionName': 'Hook'"));
    vm_compute; solve [reflexivity | lia].
Defined.

(** A cache that holds an old result, and a request for another URL. *)
Lemma request_touches_only_its_keys_witness :
  let old := lit "https://youtu.be/old" in
  let entry := {| CacheEntry.result := Success old (lit "YouTube") (lit "en") (lit "hello");
                  CacheEntry.timestamp := 1000 |} in
  let data := {| urls := [lit "https://youtu.be/new"]; lang := lit "en"; text := true;
                 mode := lit "auto" |} in
  let supadata := fun _ : nat => RaisesSupadataError (lit "video is private") in
  cache_of (transcribe lower_ascii id data 2000 (<[old := entry]> ∅) supadata) !! old
    = Some entry.
Proof.
  intros old entry data supadata.
  rewrite (request_touches_only_its_keys lower_ascii id data 2000%float (<[old := entry]> ∅)
             supadata old).
  - apply lookup_insert_eq.
  - repeat constructor. vm_compute. discriminate.
Defined.

(** Two URLs, the first refused by the provider, the second transcribed. *)
Lemma fetched_result_names_its_url_witness :
  let supadata := fun attempt : nat =>
    match attempt with
    | 0%nat => RaisesSupadataError (lit "video is private")
    | _ => Content (lit "en") (lit "hello")
    end in
  let first := lit "https://youtu.be/abc" in
  let second := lit "https://www.instagram.com/reel/1" in
  let data := {| urls := [first; second]; lang := lit "en"; text := true;
                 mode := lit "auto" |} in
  let r := Success second (lit "Instagram") (lit "en") (lit "hello") in
  results_of (transcribe lower_ascii id data 1000 ∅ supadata) !! 1%nat = Some r /\
  url_of r = second /\
  platform_of r = platform (_detect_platform lower_ascii second).
Proof.
  intros supadata first second data r.
  assert (Hr : results_of (transcribe lower_ascii id data 1000 ∅ supadata) !! 1%nat = Some r)
    by (vm_compute; reflexivity).
  split; [exact Hr|].
  apply (fetched_result_names_its_url lower_ascii id data 1000%float ∅ supadata 1 second r
           [Call 0]).
  - reflexivity.
  - exact Hr.
  - vm_compute. reflexivity.
Defined.
